(** * Crunchy: the release orchestrator and its build selector

    A shallow embedding of [main.go] (entry point, configuration, digest
    extraction, fan-out deploy, retention cleanup), of the build selector
    ([determineLanguage], [detectLanguage], [buildProject]) and of the
    digest extractor of the earlier implementation, with the theorems that
    relate them to the written specification and further properties of the
    code. *)

From Stdlib Require Import String Ascii.
From Stdlib Require Import List NArith ZArith Lia Bool Permutation.
Import ListNotations.

(** ** Go strings

    A Go string is modelled as the sequence of Unicode code points it
    encodes.  Every separator the program splits on is ASCII, so cutting the
    bytes and cutting the code points agree. *)

Module GoStrings.

Definition rune := N.
Definition gostring := list rune.

(** A literal of the source, written as a Rocq string. *)
Definition lit (s : string) : gostring :=
  map N_of_ascii (list_ascii_of_string s).

Fixpoint streq (a b : gostring) : bool :=
  match a, b with
  | [], [] => true
  | x :: a', y :: b' => N.eqb x y && streq a' b'
  | _, _ => false
  end.

(** [unicode.IsSpace]: the Latin-1 cases and the White_Space table. *)
Definition isSpace (r : rune) : bool :=
  if (r <=? 255)%N then
    ((9 <=? r) && (r <=? 13) || (r =? 32) || (r =? 133) || (r =? 160))%N
  else
    ((r =? 5760) || ((8192 <=? r) && (r <=? 8202)) || (r =? 8232) || (r =? 8233)
     || (r =? 8239) || (r =? 8287) || (r =? 12288))%N.

Fixpoint TrimLeftSpace (s : gostring) : gostring :=
  match s with
  | [] => []
  | c :: s' => if isSpace c then TrimLeftSpace s' else s
  end.

Definition TrimRightSpace (s : gostring) : gostring :=
  rev (TrimLeftSpace (rev s)).

(** [strings.TrimSpace] *)
Definition TrimSpace (s : gostring) : gostring :=
  TrimRightSpace (TrimLeftSpace s).

(** [strings.HasPrefix] *)
Fixpoint HasPrefix (s prefix : gostring) {struct prefix} : bool :=
  match prefix, s with
  | [], _ => true
  | p :: prefix', c :: s' => N.eqb c p && HasPrefix s' prefix'
  | _ :: _, [] => false
  end.

(** [strings.Index], [None] standing for -1. *)
Fixpoint Index (s substr : gostring) : option nat :=
  match s with
  | [] => if HasPrefix [] substr then Some 0 else None
  | _ :: s' =>
      if HasPrefix s substr then Some 0 else option_map S (Index s' substr)
  end.

(** [strings.Contains] *)
Definition Contains (s substr : gostring) : bool :=
  match Index s substr with Some _ => true | None => false end.

(** The cutting loop of [strings.genSplit]: at most [n] cuts, each at the
    first occurrence of [sep] in what is left. *)
Fixpoint genSplit (n : nat) (s sep : gostring) : list gostring :=
  match n with
  | O => [s]
  | S n' =>
      match Index s sep with
      | None => [s]
      | Some m => firstn m s :: genSplit n' (skipn (m + length sep) s) sep
      end
  end.

(** [strings.Split]: an empty separator explodes the string into its runes;
    otherwise the string is cut at every occurrence ([length s] cuts are
    always enough, see [Split_cons]). *)
Definition Split (s sep : gostring) : list gostring :=
  match sep with
  | [] => map (fun c => [c]) s
  | _ :: _ => genSplit (length s) s sep
  end.

(** [strings.Fields]: the maximal runs of non-space runes. *)
Fixpoint fields_from (cur : gostring) (s : gostring) : list gostring :=
  match s with
  | [] => match cur with [] => [] | _ :: _ => [cur] end
  | c :: s' =>
      if isSpace c then
        match cur with
        | [] => fields_from [] s'
        | _ :: _ => cur :: fields_from [] s'
        end
      else fields_from (cur ++ [c]) s'
  end.

Definition Fields (s : gostring) : list gostring := fields_from [] s.

(** [strings.Join] *)
Fixpoint Join (elems : list gostring) (sep : gostring) : gostring :=
  match elems with
  | [] => []
  | [e] => e
  | e :: rest => e ++ sep ++ Join rest sep
  end.

End GoStrings.
Import GoStrings.

(** ** Errors and results *)

(** A Go [error]: one made by [errors.New] (or handed back by the process
    runner), or one made by [fmt.Errorf] around a cause ([%w]) with the text
    before and after it. *)
Inductive goerror : Type :=
| errors_New (msg : gostring)
| Errorf_w (before : gostring) (cause : goerror) (after : gostring).

(** [err.Error()] *)
Fixpoint Error (e : goerror) : gostring :=
  match e with
  | errors_New msg => msg
  | Errorf_w before cause after => before ++ Error cause ++ after
  end.

Inductive result (A : Type) : Type :=
| Ok (a : A)
| Err (e : goerror).
Arguments Ok {A} a.
Arguments Err {A} e.

(** ** What the Go library and the operating system supply

    The parts of the standard library whose tables or grammars are not part
    of this repository are taken as parameters of the model. *)
Record tag : Type := { Digest : gostring }.

Record golib : Type := {
  (** [unicode.To(unicode.LowerCase, r)], consulted for runes above ASCII *)
  To_LowerCase : rune -> rune;
  (** [strconv.Quote], the [%q] verb *)
  strconv_Quote : gostring -> gostring;
  (** [filepath.Join] of a directory and a file name *)
  filepath_Join : gostring -> gostring -> gostring;
  (** [json.Unmarshal] into a slice of [struct{ Digest string }] *)
  json_Unmarshal_tags : gostring -> result (list tag)
}.

(** The file system as [os.Stat] sees it: the paths for which it succeeds. *)
Definition filesystem := gostring -> bool.

(** [unicode.ToLower] *)
Definition unicode_ToLower (lib : golib) (r : rune) : rune :=
  if (r <=? 127)%N then
    if ((65 <=? r) && (r <=? 90))%N then (r + 32)%N else r
  else To_LowerCase lib r.

(** [strings.ToLower] *)
Definition ToLower (lib : golib) (s : gostring) : gostring :=
  map (unicode_ToLower lib) s.

(** ** Configuration (main.go) *)

Record flags : Type := {
  flag_image : gostring;
  flag_svc : gostring;
  flag_beta : bool;
  flag_keep_images : Z;
  flag_keep_revisions : Z;
  flag_project : gostring;
  flag_region : gostring;
  flag_registry_host : gostring
}.

Record config : Type := {
  image : gostring;
  beta : bool;
  services : list gostring;
  workdir : gostring;
  start : Z;
  keepImgs : Z;
  keepRevs : Z;
  project : gostring;
  region : gostring;
  registryHost : gostring
}.

(** The loop shared by [splitServices] and [listRevisions]: every part is
    trimmed and appended unless it is empty. *)
Fixpoint append_trimmed (parts result : list gostring) : list gostring :=
  match parts with
  | [] => result
  | part :: parts' =>
      let trimmed := TrimSpace part in
      if streq trimmed [] then append_trimmed parts' result
      else append_trimmed parts' (result ++ [trimmed])
  end.

Definition splitServices (raw : gostring) : list gostring :=
  let parts := Split raw (lit ";") in
  append_trimmed parts [].

Definition inferRegistryHost (lib : golib) (region0 : gostring) : gostring :=
  let region := ToLower lib (TrimSpace region0) in
  if HasPrefix region (lit "asia") then lit "asia.gcr.io"
  else if HasPrefix region (lit "europe") || HasPrefix region (lit "eu") then lit "eu.gcr.io"
  else if HasPrefix region (lit "us") then lit "us.gcr.io"
  else lit "gcr.io".

(** [parseConfig], from the parsed flags, the outcome of [os.Getwd] and the
    reading of the clock. *)
Definition parseConfig (lib : golib) (fl : flags) (getwd : result gostring)
  (now : Z) : result config :=
  if streq (flag_image fl) [] then Err (errors_New (lit "--image is required"))
  else if streq (flag_svc fl) [] then Err (errors_New (lit "--svc is required"))
  else
    let services := splitServices (flag_svc fl) in
    if (length services =? 0)%nat then
      Err (errors_New (lit "no services provided via --svc"))
    else if (flag_keep_images fl <? 1)%Z then
      Err (errors_New (lit "--keep-images must be >= 1"))
    else if (flag_keep_revisions fl <? 1)%Z then
      Err (errors_New (lit "--keep-revisions must be >= 1"))
    else if streq (flag_project fl) [] then
      Err (errors_New (lit "--project is required"))
    else if streq (flag_region fl) [] then
      Err (errors_New (lit "--region is required"))
    else
      match getwd with
      | Err err => Err (Errorf_w (lit "determine working directory: ") err [])
      | Ok wd =>
          let host := TrimSpace (flag_registry_host fl) in
          let host :=
            if streq host [] then inferRegistryHost lib (flag_region fl) else host in
          Ok {| image := flag_image fl;
                beta := flag_beta fl;
                services := services;
                workdir := wd;
                start := now;
                keepImgs := flag_keep_images fl;
                keepRevs := flag_keep_revisions fl;
                project := flag_project fl;
                region := flag_region fl;
                registryHost := host |}
      end.

(** ** Digest extraction (main.go) *)

Definition digest_marker : gostring := lit "digest:".
Definition newline : gostring := [10%N].

Fixpoint parseDigest_loop (lines : list gostring) : result gostring :=
  match lines with
  | [] => Err (errors_New (lit "digest not found in output"))
  | line0 :: lines' =>
      let line := TrimSpace line0 in
      if Contains line digest_marker then
        let parts := Split line digest_marker in
        if (length parts <? 2)%nat then parseDigest_loop lines'
        else
          let afterDigest := TrimSpace (nth 1 parts []) in
          let fields := Fields afterDigest in
          match fields with
          | [] => parseDigest_loop lines'
          | f :: _ => Ok f
          end
      else parseDigest_loop lines'
  end.

Definition parseDigest (output : gostring) : result gostring :=
  let lines := Split output newline in
  parseDigest_loop lines.

(** ** Build selector *)

Definition language := gostring.
Definition langPNPM : language := lit "pnpm".
Definition langNPM : language := lit "npm".
Definition langYarn : language := lit "yarn".
Definition langGo : language := lit "go".
Definition langRust : language := lit "rust".

Record indicator : Type := { ind_lang : language; ind_file : gostring }.

Definition orderedIndicators : list indicator :=
  [ {| ind_lang := langPNPM; ind_file := lit "pnpm-lock.yaml" |};
    {| ind_lang := langYarn; ind_file := lit "yarn.lock" |};
    {| ind_lang := langNPM; ind_file := lit "package-lock.json" |};
    {| ind_lang := langGo; ind_file := lit "go.mod" |};
    {| ind_lang := langRust; ind_file := lit "Cargo.toml" |} ].

Definition fileExists (fs : filesystem) (path : gostring) : bool :=
  if streq path [] then false else fs path.

Fixpoint detectLanguage_loop (lib : golib) (fs : filesystem) (wd : gostring)
  (inds : list indicator) : option language :=
  match inds with
  | [] => None
  | ind :: inds' =>
      if fileExists fs (filepath_Join lib wd (ind_file ind)) then Some (ind_lang ind)
      else detectLanguage_loop lib fs wd inds'
  end.

Definition detectLanguage (lib : golib) (fs : filesystem) (wd : gostring)
  : result language :=
  match detectLanguage_loop lib fs wd orderedIndicators with
  | Some l => Ok l
  | None =>
      if fileExists fs (filepath_Join lib wd (lit "package.json")) then Ok langPNPM
      else Ok langPNPM
  end.

Definition one_of (s : gostring) (cases : list gostring) : bool :=
  existsb (streq s) cases.

Definition determineLanguage (lib : golib) (fs : filesystem) (wd requested0 : gostring)
  : result language :=
  let requested := TrimSpace (ToLower lib requested0) in
  if streq requested [] then detectLanguage lib fs wd
  else if one_of requested
            [langNPM; lit "node"; lit "ts"; lit "typescript"; lit "javascript"; lit "nodejs"]
  then Ok langNPM
  else if one_of requested [langPNPM] then Ok langPNPM
  else if one_of requested [langYarn] then Ok langYarn
  else if one_of requested [langGo; lit "golang"] then Ok langGo
  else if one_of requested [langRust; lit "cargo"] then Ok langRust
  else Err (errors_New (lit "unsupported --lang value " ++ strconv_Quote lib requested)).

(** ** The process runner

    An external command is one atomic interaction.  The outside world is a
    function of the history of the run: given everything that has happened so
    far and the command, it gives the exit error (if any) and, for a captured
    command, the combined output. *)

Record command : Type := {
  cmd_dir : gostring;
  cmd_name : gostring;
  cmd_args : list gostring
}.

Inductive event : Type :=
| Streamed (c : command) (err : option goerror)
| Captured (c : command) (out : gostring) (err : option goerror)
| Printed (message : gostring).

Definition trace := list event.

Record env : Type := {
  streaming_result : trace -> command -> option goerror;
  capture_result : trace -> command -> gostring * option goerror
}.

(** A sequential piece of the program, as the tree of its interactions.
    [Panic] is a run-time panic (a slice bound out of range). *)
Inductive task (A : Type) : Type :=
| Return (a : A)
| Panic
| RunStreaming (c : command) (k : option goerror -> task A)
| RunCapture (c : command) (k : gostring * option goerror -> task A)
| LogStep (message : gostring) (k : task A).
Arguments Return {A} a.
Arguments Panic {A}.
Arguments RunStreaming {A} c k.
Arguments RunCapture {A} c k.
Arguments LogStep {A} message k.

Fixpoint bind {A B : Type} (t : task A) (f : A -> task B) : task B :=
  match t with
  | Return a => f a
  | Panic => Panic
  | RunStreaming c k => RunStreaming c (fun r => bind (k r) f)
  | RunCapture c k => RunCapture c (fun r => bind (k r) f)
  | LogStep m k => LogStep m (bind k f)
  end.

Notation "x <- t ;; k" := (bind t (fun x => k))
  (at level 61, t at next level, right associativity).
Notation "t ;; k" := (bind t (fun _ => k))
  (at level 61, right associativity).

(** How a piece of the program ends: it returns, it panics, or (for the
    fan-out only) it is still waiting when the schedule given to it ends. *)
Inductive outcome (A : Type) : Type :=
| Returned (a : A)
| Panicked
| Waiting.
Arguments Returned {A} a.
Arguments Panicked {A}.
Arguments Waiting {A}.

(** Running a task against the world, from history [h]. *)
Fixpoint exec {A : Type} (e : env) (t : task A) (h : trace) : outcome A * trace :=
  match t with
  | Return a => (Returned a, h)
  | Panic => (Panicked, h)
  | RunStreaming c k =>
      let r := streaming_result e h c in
      exec e (k r) (h ++ [Streamed c r])
  | RunCapture c k =>
      let r := capture_result e h c in
      exec e (k r) (h ++ [Captured c (fst r) (snd r)])
  | LogStep m k => exec e k (h ++ [Printed m])
  end.

(** [logStep]; the elapsed time it prints is left out. *)
Definition logStep (cfg : config) (message : gostring) : task unit :=
  LogStep message (Return tt).

Definition runCommandStreaming (dir name : gostring) (args : list gostring)
  : task (option goerror) :=
  RunStreaming {| cmd_dir := dir; cmd_name := name; cmd_args := args |}
    (fun err => Return err).

Definition runCommandCapture (dir name : gostring) (args : list gostring)
  : task (gostring * option goerror) :=
  RunCapture {| cmd_dir := dir; cmd_name := name; cmd_args := args |}
    (fun r => Return r).

(** [s[low:]], which panics when [low] is out of range. *)
Definition slice_from {A : Type} (s : list A) (low : Z) : option (list A) :=
  if ((low <? 0) || (Z.of_nat (length s) <? low))%Z then None
  else Some (skipn (Z.to_nat low) s).

(** ** Per-service deploy (main.go) *)

Definition listRevisions (cfg : config) (service : gostring)
  : task (result (list gostring)) :=
  r <- runCommandCapture (workdir cfg) (lit "gcloud")
         [lit "run"; lit "revisions"; lit "list";
          lit "--region=" ++ region cfg;
          lit "--service=" ++ service;
          lit "--format=value(metadata.name)"] ;;
  match snd r with
  | Some err => Return (Err err)
  | None =>
      let lines := Split (TrimSpace (fst r)) newline in
      Return (Ok (append_trimmed lines []))
  end.

(** The deletion loop of [deployService]. *)
Fixpoint deleteRevisions (cfg : config) (revisions : list gostring)
  : task (option goerror) :=
  match revisions with
  | [] => Return None
  | revision :: rest =>
      logStep cfg (lit "Deleting " ++ revision ++ lit "...") ;;
      err <- runCommandStreaming (workdir cfg) (lit "gcloud")
               [lit "run"; lit "revisions"; lit "delete"; revision;
                lit "--region=" ++ region cfg;
                lit "-q"] ;;
      match err with
      | Some err =>
          Return (Some (Errorf_w (lit "delete revision " ++ revision ++ lit ": ") err []))
      | None =>
          logStep cfg (lit "Deleted " ++ revision ++ lit ".") ;;
          deleteRevisions cfg rest
      end
  end.

Definition deployService (cfg : config) (service image : gostring)
  : task (option goerror) :=
  r <- listRevisions cfg service ;;
  match r with
  | Err err =>
      Return (Some (Errorf_w (lit "list revisions for " ++ service ++ lit ": ") err []))
  | Ok revisions =>
      err <- runCommandStreaming (workdir cfg) (lit "gcloud")
               [lit "run"; lit "deploy"; service;
                lit "--image=" ++ image;
                lit "--platform=managed";
                lit "--region=" ++ region cfg;
                lit "--project=" ++ project cfg] ;;
      match err with
      | Some err =>
          Return (Some (Errorf_w (lit "deploy service " ++ service ++ lit ": ") err []))
      | None =>
          logStep cfg (lit "Migrating " ++ service ++ lit "...") ;;
          err <- runCommandStreaming (workdir cfg) (lit "gcloud")
                   [lit "run"; lit "services"; lit "update-traffic"; service;
                    lit "--to-latest";
                    lit "--region=" ++ region cfg] ;;
          match err with
          | Some err =>
              Return (Some (Errorf_w (lit "update traffic for " ++ service ++ lit ": ") err []))
          | None =>
              logStep cfg (lit "Deployed " ++ service ++ lit ".") ;;
              if (Z.of_nat (length revisions) <=? keepRevs cfg)%Z then Return None
              else
                match slice_from revisions (keepRevs cfg) with
                | None => Panic
                | Some rest => deleteRevisions cfg rest
                end
          end
      end
  end.

(** ** Image cleanup (main.go) *)

(** The deletion loop of [cleanupOldImages]. *)
Fixpoint deleteImages (cfg : config) (repo : gostring) (tags : list tag)
  : task (option goerror) :=
  match tags with
  | [] => Return None
  | tg :: rest =>
      if streq (Digest tg) [] then deleteImages cfg repo rest
      else
        let imageWithDigest := repo ++ lit "@" ++ Digest tg in
        logStep cfg (lit "Deleting " ++ imageWithDigest ++ lit "...") ;;
        err <- runCommandStreaming (workdir cfg) (lit "gcloud")
                 [lit "container"; lit "images"; lit "delete";
                  imageWithDigest;
                  lit "--force-delete-tags";
                  lit "-q"] ;;
        match err with
        | Some err =>
            Return (Some (Errorf_w (lit "delete image " ++ imageWithDigest ++ lit ": ") err []))
        | None =>
            logStep cfg (lit "Deleted " ++ imageWithDigest ++ lit ".") ;;
            deleteImages cfg repo rest
        end
  end.

Definition cleanupOldImages (lib : golib) (cfg : config) (image0 : gostring)
  : task (option goerror) :=
  let repo := registryHost cfg ++ lit "/" ++ project cfg ++ lit "/" ++ image0 in
  r <- runCommandCapture (workdir cfg) (lit "gcloud")
         [lit "container"; lit "images"; lit "list-tags"; repo;
          lit "--format=json"] ;;
  match snd r with
  | Some err => Return (Some (Errorf_w (lit "list image tags: ") err (newline ++ fst r)))
  | None =>
      match json_Unmarshal_tags lib (fst r) with
      | Err err => Return (Some (Errorf_w (lit "parse image tags json: ") err []))
      | Ok tags =>
          if (Z.of_nat (length tags) <=? keepImgs cfg)%Z then Return None
          else
            match slice_from tags (keepImgs cfg) with
            | None => Panic
            | Some rest => deleteImages cfg repo rest
            end
      end
  end.

(** ** Fan-out and join (main.go, [deployServices])

    One goroutine per service.  A schedule is the list of the goroutines'
    turns: at its turn a goroutine performs its next interaction, or, when
    its body has returned, sends its error (if any) on the channel and is
    done.  A turn given to a goroutine that is done, or to none, does
    nothing. *)

Inductive goroutine : Type :=
| Running (body : task (option goerror))
| Finished (err : option goerror).

Record fanout : Type := {
  pool : list goroutine;
  errs : list goerror;
  hist : trace
}.

Fixpoint set_nth {A : Type} (i : nat) (x : A) (l : list A) : list A :=
  match l, i with
  | [], _ => []
  | _ :: l', O => x :: l'
  | y :: l', S i' => y :: set_nth i' x l'
  end.

(** One turn of goroutine [i]; [None] when it panics. *)
Definition turn (e : env) (i : nat) (st : fanout) : option fanout :=
  match nth_error (pool st) i with
  | None | Some (Finished _) => Some st
  | Some (Running body) =>
      match body with
      | Return r =>
          Some {| pool := set_nth i (Finished r) (pool st);
                  errs := match r with
                          | Some err => errs st ++ [err]
                          | None => errs st
                          end;
                  hist := hist st |}
      | Panic => None
      | RunStreaming c k =>
          let r := streaming_result e (hist st) c in
          Some {| pool := set_nth i (Running (k r)) (pool st);
                  errs := errs st;
                  hist := hist st ++ [Streamed c r] |}
      | RunCapture c k =>
          let r := capture_result e (hist st) c in
          Some {| pool := set_nth i (Running (k r)) (pool st);
                  errs := errs st;
                  hist := hist st ++ [Captured c (fst r) (snd r)] |}
      | LogStep m k =>
          Some {| pool := set_nth i (Running k) (pool st);
                  errs := errs st;
                  hist := hist st ++ [Printed m] |}
      end
  end.

(** A schedule's turns in order; [inr h] when a goroutine panics at
    history [h]. *)
Fixpoint turns (e : env) (sched : list nat) (st : fanout) : fanout + trace :=
  match sched with
  | [] => inl st
  | i :: sched' =>
      match turn e i st with
      | None => inr (hist st)
      | Some st' => turns e sched' st'
      end
  end.

Definition is_finished (g : goroutine) : bool :=
  match g with Finished _ => true | Running _ => false end.

(** The loop that drains the channel into the buffer. *)
Fixpoint drain (errors : list goerror) (buf : gostring) : gostring :=
  match errors with
  | [] => buf
  | err :: rest =>
      let buf := if (0 <? length buf)%nat then buf ++ newline else buf in
      drain rest (buf ++ Error err)
  end.

Definition deployServices (e : env) (sched : list nat) (cfg : config)
  (image0 : gostring) (h : trace) : outcome (option goerror) * trace :=
  let st0 := {| pool := map (fun service => Running (deployService cfg service image0))
                          (services cfg);
                errs := [];
                hist := h |} in
  match turns e sched st0 with
  | inr h' => (Panicked, h')
  | inl st =>
      if forallb is_finished (pool st) then
        let buf := drain (errs st) [] in
        if (0 <? length buf)%nat then (Returned (Some (errors_New buf)), hist st)
        else (Returned None, hist st)
      else (Waiting, hist st)
  end.

(** ** The main sequence (main.go, [run]) *)

Definition M (A : Type) : Type := trace -> outcome A * trace.

Definition ret {A : Type} (a : A) : M A := fun h => (Returned a, h).

Definition mbind {A B : Type} (m : M A) (f : A -> M B) : M B :=
  fun h =>
    match m h with
    | (Returned a, h') => f a h'
    | (Panicked, h') => (Panicked, h')
    | (Waiting, h') => (Waiting, h')
    end.

Notation "x <~ m ;; k" := (mbind m (fun x => k))
  (at level 61, m at next level, right associativity).

Definition run (lib : golib) (e : env) (sched : list nat) (cfg : config)
  : M (option goerror) :=
  _ <~ exec e (logStep cfg (lit "Building TS...")) ;;
  err <~ exec e (runCommandStreaming (workdir cfg) (lit "pnpm") [lit "run"; lit "build"]) ;;
  match err with
  | Some err => ret (Some (Errorf_w (lit "build project: ") err []))
  | None =>
      let imageRepo := registryHost cfg ++ lit "/" ++ project cfg ++ lit "/" ++ image cfg in
      let imageTag := if beta cfg then imageRepo ++ lit ":dev" else imageRepo in
      _ <~ exec e (logStep cfg (lit "Building Docker...")) ;;
      err <~ exec e (runCommandStreaming (workdir cfg) (lit "docker")
                       [lit "build"; lit "--platform"; lit "linux/amd64"; lit "-t";
                        imageTag; lit "."]) ;;
      match err with
      | Some err => ret (Some (Errorf_w (lit "docker build: ") err []))
      | None =>
          _ <~ exec e (logStep cfg (lit "Uploading image...")) ;;
          r <~ exec e (runCommandCapture (workdir cfg) (lit "docker")
                         [lit "push"; imageTag]) ;;
          let pushOutput := fst r in
          match snd r with
          | Some err =>
              ret (Some (Errorf_w (lit "docker push: ") err (newline ++ pushOutput)))
          | None =>
              match parseDigest pushOutput with
              | Err err =>
                  ret (Some (Errorf_w (lit "parse digest: ") err (newline ++ pushOutput)))
              | Ok digest =>
                  let fullImagePath := imageRepo ++ lit "@" ++ digest in
                  _ <~ exec e (logStep cfg (lit "Deploying...")) ;;
                  err <~ deployServices e sched cfg fullImagePath ;;
                  match err with
                  | Some err => ret (Some err)
                  | None =>
                      if negb (beta cfg) then
                        _ <~ exec e (logStep cfg (lit "Cleaning up image...")) ;;
                        err <~ exec e (cleanupOldImages lib cfg (image cfg)) ;;
                        match err with
                        | Some err => ret (Some err)
                        | None => ret None
                        end
                      else ret None
                  end
              end
          end
      end
  end.

(** ** The entry point (main.go, [main])

    [parseConfig] begins with [flag.Parse], which ends the process by
    itself in two cases: for [-h] or [-help] it prints the usage and exits
    with status 0, and for a command line it cannot parse (a flag that is
    not defined, a value that is not a number or a boolean) it prints a
    message and the usage and exits with status 2.  Otherwise it sets the
    flags, and the checks of [parseConfig] run on their values.
    [command_line] is what [flag.Parse] makes of the arguments of the
    process; the outcome of [os.Getwd] and the clock are what [parseConfig]
    is given beside the flags. *)

Inductive command_line : Type :=
| flags_parsed (fl : flags)
| help_requested
| not_parsed.

(** How the process ends when it does not panic: its exit status, and the
    line that [main] itself writes to the standard error stream before it
    exits with status 1 (empty when it writes none).  What else reaches
    that stream is not recorded: the usage text of the flag package, and
    the output of the streamed commands, which inherit the stream. *)
Record process_end : Type := { status : Z; error_line : gostring }.

(** What [main] prints when it is done, recorded like the prints of
    [logStep]; the elapsed time is left out. *)
Definition done_message : gostring := 9889%N :: lit " Done in".

(** [fmt.Fprintf(os.Stderr, "error: %v\n", err); os.Exit(1)] *)
Definition fatal (err : goerror) : process_end :=
  {| status := 1; error_line := lit "error: " ++ Error err ++ newline |}.

Definition main (lib : golib) (e : env) (sched : list nat) (args : command_line)
  (getwd : result gostring) (now : Z) : M process_end :=
  match args with
  | help_requested => ret {| status := 0; error_line := [] |}
  | not_parsed => ret {| status := 2; error_line := [] |}
  | flags_parsed fl =>
      match parseConfig lib fl getwd now with
      | Err err => ret (fatal err)
      | Ok cfg =>
          err <~ run lib e sched cfg ;;
          match err with
          | Some err => ret (fatal err)
          | None =>
              _ <~ exec e (LogStep done_message (Return tt)) ;;
              ret {| status := 0; error_line := [] |}
          end
      end
  end.

(** ** Building with the selected tool ([buildProject])

    [buildProject] reads the [lang] field of the configuration; it is passed
    here beside the record, which is the one of main.go. *)

Definition buildProject (lib : golib) (cfg : config) (lang : language)
  : task (option goerror) :=
  if streq lang langPNPM then
    err <- runCommandStreaming (workdir cfg) (lit "pnpm") [lit "run"; lit "build"] ;;
    match err with
    | Some err => Return (Some (Errorf_w (lit "build project with pnpm: ") err []))
    | None => Return None
    end
  else if streq lang langNPM then
    err <- runCommandStreaming (workdir cfg) (lit "npm") [lit "run"; lit "build"] ;;
    match err with
    | Some err => Return (Some (Errorf_w (lit "build project with npm: ") err []))
    | None => Return None
    end
  else if streq lang langYarn then
    err <- runCommandStreaming (workdir cfg) (lit "yarn") [lit "build"] ;;
    match err with
    | Some err => Return (Some (Errorf_w (lit "build project with yarn: ") err []))
    | None => Return None
    end
  else if streq lang langGo then
    err <- runCommandStreaming (workdir cfg) (lit "go") [lit "build"; lit "./..."] ;;
    match err with
    | Some err => Return (Some (Errorf_w (lit "build project with go: ") err []))
    | None => Return None
    end
  else if streq lang langRust then
    err <- runCommandStreaming (workdir cfg) (lit "cargo") [lit "build"; lit "--release"] ;;
    match err with
    | Some err => Return (Some (Errorf_w (lit "build project with cargo: ") err []))
    | None => Return None
    end
  else
    Return (Some (errors_New (lit "unsupported language " ++ strconv_Quote lib lang))).

(** ** The digest extractor of the earlier implementation (index.ts)

    A JavaScript string is taken, like a Go string, as its sequence of code
    points; the separators it is cut at are ASCII.  [String.prototype.split]
    with a non-empty separator cuts like [strings.Split]. *)

(** [Array.prototype.slice(-n)]: the last [n] elements, all of them when
    there are fewer. *)
Definition slice_last {A : Type} (n : nat) (l : list A) : list A :=
  skipn (length l - n) l.

(** [getDigest]; [None] stands for the TypeError thrown when [split] is
    called on [undefined]. *)
Definition getDigest (stdout : gostring) : option gostring :=
  match slice_last 2 (Split stdout newline) with
  | [] => None
  | line :: _ =>
      match Split line (lit "digest: ") with
      | _ :: after :: _ => Some (hd [] (Split after (lit " ")))
      | _ => None
      end
  end.

(** * Vocabulary of the specification *)

Definition all_space (s : gostring) : Prop := forallb isSpace s = true.
Definition no_space (s : gostring) : Prop := forallb (fun c => negb (isSpace c)) s = true.

Definition non_empty (s : gostring) : bool := negb (streq s []).

(** ** Digest extraction *)

(** What a line announces after the marker: the stretch that follows the
    first occurrence of the marker, up to the next occurrence or the end of
    the line. *)
Definition after_marker (line : gostring) : option gostring :=
  match Index line digest_marker with
  | None => None
  | Some m =>
      let rest := skipn (m + length digest_marker) line in
      match Index rest digest_marker with
      | None => Some rest
      | Some m' => Some (firstn m' rest)
      end
  end.

(** The first white-space-delimited token of a string, if it has one. *)
Definition first_token (s : gostring) : option gostring := hd_error (Fields s).

(** The digest a line announces, if any. *)
Definition line_digest (line : gostring) : option gostring :=
  match after_marker (TrimSpace line) with
  | None => None
  | Some stretch => first_token stretch
  end.

(** The token the specification names for a line: the first token of the
    trimmed remainder of the line after the marker. *)
Definition stated_token (line : gostring) : option gostring :=
  match Index line digest_marker with
  | None => None
  | Some m => first_token (TrimSpace (skipn (m + length digest_marker) line))
  end.

Definition digest_not_found : goerror := errors_New (lit "digest not found in output").

(** ** Build selector *)

(** The alias table of the explicit choice. *)
Definition alias_table : list (gostring * language) :=
  [ (lit "npm", langNPM); (lit "node", langNPM); (lit "ts", langNPM);
    (lit "typescript", langNPM); (lit "javascript", langNPM); (lit "nodejs", langNPM);
    (lit "pnpm", langPNPM);
    (lit "yarn", langYarn);
    (lit "go", langGo); (lit "golang", langGo);
    (lit "rust", langRust); (lit "cargo", langRust) ].

Fixpoint lookup_alias (table : list (gostring * language)) (s : gostring)
  : option language :=
  match table with
  | [] => None
  | (name, l) :: table' => if streq s name then Some l else lookup_alias table' s
  end.

(** The normal form of an explicit choice: lower case, no surrounding
    white space. *)
Definition normalize (lib : golib) (requested : gostring) : gostring :=
  TrimSpace (ToLower lib requested).

Definition unsupported (lib : golib) (requested : gostring) : goerror :=
  errors_New (lit "unsupported --lang value " ++ strconv_Quote lib requested).

(** A marker file is present in the workspace. *)
Definition present (lib : golib) (fs : filesystem) (wd file : gostring) : Prop :=
  fileExists fs (filepath_Join lib wd file) = true.

(** ** Tasks and traces *)

(** Every interaction a task may perform satisfies [P] and every value it
    may return satisfies [Q], whatever the world answers. *)
Fixpoint task_sat {A : Type} (P : event -> Prop) (Q : A -> Prop) (t : task A) : Prop :=
  match t with
  | Return a => Q a
  | Panic => True
  | RunStreaming c k => forall r, P (Streamed c r) /\ task_sat P Q (k r)
  | RunCapture c k => forall r, P (Captured c (fst r) (snd r)) /\ task_sat P Q (k r)
  | LogStep m k => P (Printed m) /\ task_sat P Q k
  end.

(** A task that cannot panic. *)
Fixpoint no_panic {A : Type} (t : task A) : Prop :=
  match t with
  | Return _ => True
  | Panic => False
  | RunStreaming _ k => forall r, no_panic (k r)
  | RunCapture _ k => forall r, no_panic (k r)
  | LogStep _ k => no_panic k
  end.

Definition goroutine_sat (P : event -> Prop) (Q : option goerror -> Prop)
  (g : goroutine) : Prop :=
  match g with
  | Running body => task_sat P Q body
  | Finished r => Q r
  end.

Definition goroutine_no_panic (g : goroutine) : Prop :=
  match g with
  | Running body => no_panic body
  | Finished _ => True
  end.

(** The errors of the goroutines that have finished with one. *)
Definition failure_of (g : goroutine) : list goerror :=
  match g with
  | Finished (Some err) => [err]
  | _ => []
  end.

Definition failures (results : list (option goerror)) : list goerror :=
  flat_map (fun r => match r with Some err => [err] | None => [] end) results.

(** ** The commands of the pipeline *)

Definition imageRepo (cfg : config) : gostring :=
  registryHost cfg ++ lit "/" ++ project cfg ++ lit "/" ++ image cfg.

Definition imageTag (cfg : config) : gostring :=
  if beta cfg then imageRepo cfg ++ lit ":dev" else imageRepo cfg.

Definition gcloud (cfg : config) (args : list gostring) : command :=
  {| cmd_dir := workdir cfg; cmd_name := lit "gcloud"; cmd_args := args |}.

Definition docker (cfg : config) (args : list gostring) : command :=
  {| cmd_dir := workdir cfg; cmd_name := lit "docker"; cmd_args := args |}.

Definition build_command (cfg : config) : command :=
  {| cmd_dir := workdir cfg; cmd_name := lit "pnpm"; cmd_args := [lit "run"; lit "build"] |}.

Definition docker_build_command (cfg : config) (tag0 : gostring) : command :=
  docker cfg [lit "build"; lit "--platform"; lit "linux/amd64"; lit "-t"; tag0; lit "."].

Definition docker_push_command (cfg : config) (tag0 : gostring) : command :=
  docker cfg [lit "push"; tag0].

Definition list_revisions_command (cfg : config) (service : gostring) : command :=
  gcloud cfg [lit "run"; lit "revisions"; lit "list";
              lit "--region=" ++ region cfg;
              lit "--service=" ++ service;
              lit "--format=value(metadata.name)"].

Definition deploy_command (cfg : config) (service image0 : gostring) : command :=
  gcloud cfg [lit "run"; lit "deploy"; service;
              lit "--image=" ++ image0;
              lit "--platform=managed";
              lit "--region=" ++ region cfg;
              lit "--project=" ++ project cfg].

Definition update_traffic_command (cfg : config) (service : gostring) : command :=
  gcloud cfg [lit "run"; lit "services"; lit "update-traffic"; service;
              lit "--to-latest";
              lit "--region=" ++ region cfg].

Definition delete_revision_command (cfg : config) (revision : gostring) : command :=
  gcloud cfg [lit "run"; lit "revisions"; lit "delete"; revision;
              lit "--region=" ++ region cfg; lit "-q"].

Definition list_tags_command (cfg : config) : command :=
  gcloud cfg [lit "container"; lit "images"; lit "list-tags"; imageRepo cfg;
              lit "--format=json"].

Definition delete_image_command (cfg : config) (imageWithDigest : gostring) : command :=
  gcloud cfg [lit "container"; lit "images"; lit "delete"; imageWithDigest;
              lit "--force-delete-tags"; lit "-q"].

(** The revision list that [listRevisions] reads off a listing. *)
Definition parse_revisions (output : gostring) : list gostring :=
  append_trimmed (Split (TrimSpace output) newline) [].

(** ** Reading a trace *)

(** A revision deletion: the revision and how the command ended. *)
Definition revision_deletion (ev : event) : option (gostring * option goerror) :=
  match ev with
  | Streamed c err =>
      match cmd_args c with
      | a1 :: a2 :: a3 :: revision :: _ =>
          if streq (cmd_name c) (lit "gcloud") && streq a1 (lit "run")
             && streq a2 (lit "revisions") && streq a3 (lit "delete")
          then Some (revision, err) else None
      | _ => None
      end
  | _ => None
  end.

(** An image deletion: the image reference and how the command ended. *)
Definition image_deletion (ev : event) : option (gostring * option goerror) :=
  match ev with
  | Streamed c err =>
      match cmd_args c with
      | a1 :: a2 :: a3 :: ref :: _ =>
          if streq (cmd_name c) (lit "gcloud") && streq a1 (lit "container")
             && streq a2 (lit "images") && streq a3 (lit "delete")
          then Some (ref, err) else None
      | _ => None
      end
  | _ => None
  end.

Fixpoint collect {A : Type} (f : event -> option A) (tr : trace) : list A :=
  match tr with
  | [] => []
  | ev :: tr' =>
      match f ev with
      | Some a => a :: collect f tr'
      | None => collect f tr'
      end
  end.

Definition revision_deletions (tr : trace) : list (gostring * option goerror) :=
  collect revision_deletion tr.

Definition image_deletions (tr : trace) : list (gostring * option goerror) :=
  collect image_deletion tr.

Definition command_of (ev : event) : option command :=
  match ev with
  | Streamed c _ => Some c
  | Captured c _ _ => Some c
  | Printed _ => None
  end.

(** The external commands of a trace, in order. *)
Definition commands (tr : trace) : list command := collect command_of tr.

(** The command of an event, if it is one, is not a docker command and
    satisfies [Pc]. *)
Definition not_docker_and (Pc : command -> Prop) (ev : event) : Prop :=
  forall c, command_of ev = Some c -> cmd_name c <> lit "docker" /\ Pc c.

(** A command of the image-cleanup pass ([gcloud container images ...]). *)
Definition is_image_command (c : command) : bool :=
  streq (cmd_name c) (lit "gcloud") &&
  match cmd_args c with
  | a1 :: a2 :: _ => streq a1 (lit "container") && streq a2 (lit "images")
  | _ => false
  end.

(** A service deploy ([gcloud run deploy ...]). *)
Definition is_deploy_command (c : command) : bool :=
  streq (cmd_name c) (lit "gcloud") &&
  match cmd_args c with
  | a1 :: a2 :: _ => streq a1 (lit "run") && streq a2 (lit "deploy")
  | _ => false
  end.

(** ** Retention *)

(** The entries of a list whose position, counted from [pos] on, is
    strictly after [keep]. *)
Fixpoint after_position {A : Type} (pos keep : Z) (l : list A) : list A :=
  match l with
  | [] => []
  | x :: l' =>
      if (keep <? pos)%Z then x :: after_position (pos + 1) keep l'
      else after_position (pos + 1) keep l'
  end.

(** The retention pruner in the words of the specification: nothing when
    the list is no longer than [keep], otherwise the entries strictly after
    position [keep] (positions counted from 1), in their order. *)
Definition prune {A : Type} (orderedList : list A) (keep : Z) : list A :=
  if (Z.of_nat (length orderedList) <=? keep)%Z then []
  else after_position 1 keep orderedList.

(** ** Fan-out *)

(** The invariant of the fan-out: goroutine [i] is the task of service [i]
    (what it may still do satisfies [P], what it returns or has returned
    satisfies [Q]), and the channel holds the errors of the goroutines that
    have finished with one. *)
Definition fanout_inv (P : event -> Prop) (Q : gostring -> option goerror -> Prop)
  (ss : list gostring) (st : fanout) : Prop :=
  Forall2 (fun s g => goroutine_sat P (Q s) g) ss (pool st) /\
  Permutation (errs st) (flat_map failure_of (pool st)).

(** ** The main sequence up to the join *)

(** [run] without its last stage: the build, the container build, the
    push, the digest, the fan-out and the join.  It returns the error of the
    stage that failed, or nothing when the join succeeded
    ([run_through_join] relates it to [run]). *)
Definition through_join (e : env) (sched : list nat) (cfg : config)
  : M (option goerror) :=
  _ <~ exec e (logStep cfg (lit "Building TS...")) ;;
  err <~ exec e (runCommandStreaming (workdir cfg) (lit "pnpm") [lit "run"; lit "build"]) ;;
  match err with
  | Some err => ret (Some (Errorf_w (lit "build project: ") err []))
  | None =>
      let imageRepo := registryHost cfg ++ lit "/" ++ project cfg ++ lit "/" ++ image cfg in
      let imageTag := if beta cfg then imageRepo ++ lit ":dev" else imageRepo in
      _ <~ exec e (logStep cfg (lit "Building Docker...")) ;;
      err <~ exec e (runCommandStreaming (workdir cfg) (lit "docker")
                       [lit "build"; lit "--platform"; lit "linux/amd64"; lit "-t";
                        imageTag; lit "."]) ;;
      match err with
      | Some err => ret (Some (Errorf_w (lit "docker build: ") err []))
      | None =>
          _ <~ exec e (logStep cfg (lit "Uploading image...")) ;;
          r <~ exec e (runCommandCapture (workdir cfg) (lit "docker")
                         [lit "push"; imageTag]) ;;
          let pushOutput := fst r in
          match snd r with
          | Some err =>
              ret (Some (Errorf_w (lit "docker push: ") err (newline ++ pushOutput)))
          | None =>
              match parseDigest pushOutput with
              | Err err =>
                  ret (Some (Errorf_w (lit "parse digest: ") err (newline ++ pushOutput)))
              | Ok digest =>
                  let fullImagePath := imageRepo ++ lit "@" ++ digest in
                  _ <~ exec e (logStep cfg (lit "Deploying...")) ;;
                  deployServices e sched cfg fullImagePath
              end
          end
      end
  end.

(** What the stages before the fan-out leave in the trace when they all
    succeed. *)
Definition published (cfg : config) (pushOutput : gostring) : trace :=
  [ Printed (lit "Building TS...");
    Streamed (build_command cfg) None;
    Printed (lit "Building Docker...");
    Streamed (docker_build_command cfg (imageTag cfg)) None;
    Printed (lit "Uploading image...");
    Captured (docker_push_command cfg (imageTag cfg)) pushOutput None;
    Printed (lit "Deploying...") ].

(** The last stage of [run], entered when the join has succeeded. *)
Definition cleanup_stage (lib : golib) (e : env) (cfg : config) : M (option goerror) :=
  if negb (beta cfg) then
    _ <~ exec e (logStep cfg (lit "Cleaning up image...")) ;;
    exec e (cleanupOldImages lib cfg (image cfg))
  else ret None.

(** ** Per-service failures *)

(** The errors a service's task may return. *)
Inductive service_failure (service : gostring) : goerror -> Prop :=
| list_failed cause :
    service_failure service
      (Errorf_w (lit "list revisions for " ++ service ++ lit ": ") cause [])
| deploy_failed cause :
    service_failure service
      (Errorf_w (lit "deploy service " ++ service ++ lit ": ") cause [])
| traffic_failed cause :
    service_failure service
      (Errorf_w (lit "update traffic for " ++ service ++ lit ": ") cause [])
| revision_delete_failed revision cause :
    service_failure service
      (Errorf_w (lit "delete revision " ++ revision ++ lit ": ") cause []).

(** The references the cleanup pass deletes from a list of tag records:
    [repo@digest] for the records whose digest is not empty, in order. *)
Definition image_refs (repo : gostring) (tags : list tag) : list gostring :=
  map (fun tg => repo ++ lit "@" ++ Digest tg)
      (filter (fun tg => non_empty (Digest tg)) tags).

(** What a service's task returns: nothing, or one of its failures. *)
Definition fails_as (service : gostring) (r : option goerror) : Prop :=
  forall err, r = Some err -> service_failure service err.

(** The number of goroutines still running. *)
Fixpoint count_running (gs : list goroutine) : nat :=
  match gs with
  | [] => 0
  | Running _ :: gs' => S (count_running gs')
  | Finished _ :: gs' => count_running gs'
  end.

(** The state of the fan-out when the goroutines have just been started. *)
Definition started (cfg : config) (image0 : gostring) (h : trace) : fanout :=
  {| pool := map (fun service => Running (deployService cfg service image0)) (services cfg);
     errs := [];
     hist := h |}.

(** An error whose message names the service. *)
Definition names_service (service : gostring) (err : goerror) : Prop :=
  Contains (Error err) service = true.

(** ** What the trace shows of a task's result *)

(** Whatever the world answers, what the task returns satisfies [Q] with
    respect to the events [before] it and its own. *)
Fixpoint returns_after {A : Type} (Q : trace -> A -> Prop) (t : task A) (before : trace)
  : Prop :=
  match t with
  | Return a => Q before a
  | Panic => True
  | RunStreaming c k => forall r, returns_after Q (k r) (before ++ [Streamed c r])
  | RunCapture c k =>
      forall r, returns_after Q (k r) (before ++ [Captured c (fst r) (snd r)])
  | LogStep m k => returns_after Q k (before ++ [Printed m])
  end.

Definition goroutine_returns_after (Q : trace -> option goerror -> Prop) (before : trace)
  (g : goroutine) : Prop :=
  match g with
  | Running body => returns_after Q body before
  | Finished r => Q before r
  end.

(** [Q] keeps holding when more has happened. *)
Definition grows {A : Type} (Q : trace -> A -> Prop) : Prop :=
  forall b b' a, incl b b' -> Q b a -> Q b' a.

(** The events of the fan-out so far account for the results of the
    goroutines that have finished, and will account for the results of the
    others. *)
Definition fanout_accounted (Q : gostring -> trace -> option goerror -> Prop)
  (h0 : trace) (ss : list gostring) (st : fanout) : Prop :=
  exists evs, hist st = h0 ++ evs /\
    Forall2 (fun s g => goroutine_returns_after (Q s) evs g) ss (pool st).

(** The command whose failure the error [err] of the task of [service]
    reports is in [evs]: a listing, a deploy or a traffic migration of the
    service, or the deletion of a revision. *)
Definition reported_failure (cfg : config) (service image0 : gostring) (evs : trace)
  (err : goerror) : Prop :=
  (exists out cause,
     In (Captured (list_revisions_command cfg service) out (Some cause)) evs /\
     err = Errorf_w (lit "list revisions for " ++ service ++ lit ": ") cause []) \/
  (exists cause,
     In (Streamed (deploy_command cfg service image0) (Some cause)) evs /\
     err = Errorf_w (lit "deploy service " ++ service ++ lit ": ") cause []) \/
  (exists cause,
     In (Streamed (update_traffic_command cfg service) (Some cause)) evs /\
     err = Errorf_w (lit "update traffic for " ++ service ++ lit ": ") cause []) \/
  (exists revision cause,
     In (Streamed (delete_revision_command cfg revision) (Some cause)) evs /\
     err = Errorf_w (lit "delete revision " ++ revision ++ lit ": ") cause []).

(** What [evs] shows of a task of [service] that has ended with [r]: its
    listing failed or its deploy was issued, and the error it returns, if
    any, is the failure of a command. *)
Definition task_account (cfg : config) (service image0 : gostring) (evs : trace)
  (r : option goerror) : Prop :=
  ((exists out cause,
      In (Captured (list_revisions_command cfg service) out (Some cause)) evs) \/
   (exists derr, In (Streamed (deploy_command cfg service image0) derr) evs)) /\
  (forall err, r = Some err -> reported_failure cfg service image0 evs err).

(** ** Names, runes and markers *)

Definition semicolon : rune := 59%N.
Definition line_feed : rune := 10%N.
Definition space : rune := 32%N.

(** The marker the earlier implementation cuts at. *)
Definition js_marker : gostring := lit "digest: ".

(** A name as the two list parsers give it: not empty, with no white space
    at either end. *)
Definition trimmed_name (s : gostring) : Prop := s <> [] /\ TrimSpace s = s.

(** A revision name as [listRevisions] gives it. *)
Definition revision_name (n : gostring) : Prop := trimmed_name n /\ ~ In line_feed n.

(** The languages the build step knows. *)
Definition supported (l : language) : Prop :=
  In l [langPNPM; langNPM; langYarn; langGo; langRust].

(** ** Tasks that stop at the first failure *)

(** The event is not a failed command. *)
Definition succeeded (ev : event) : Prop :=
  match ev with
  | Streamed _ err => err = None
  | Captured _ _ err => err = None
  | Printed _ => True
  end.

(** The event is a command that failed with [cause]. *)
Definition failed_with (ev : event) (cause : goerror) : Prop :=
  match ev with
  | Streamed _ err => err = Some cause
  | Captured _ _ err => err = Some cause
  | Printed _ => False
  end.

(** The task returns as soon as one of its commands fails, with an error
    that wraps the command's, and returns no error otherwise (unless it
    panics). *)
Fixpoint fail_fast (t : task (option goerror)) : Prop :=
  match t with
  | Return r => r = None
  | Panic => True
  | RunStreaming c k =>
      (forall cause, exists before after,
         k (Some cause) = Return (Some (Errorf_w before cause after))) /\
      fail_fast (k None)
  | RunCapture c k =>
      (forall out cause, exists before after,
         k (out, Some cause) = Return (Some (Errorf_w before cause after))) /\
      (forall out, fail_fast (k (out, None)))
  | LogStep _ k => fail_fast k
  end.

(** A goroutine that is about to report, or has reported, an error. *)
Definition doomed (g : goroutine) : Prop :=
  exists err, g = Running (Return (Some err)) \/ g = Finished (Some err).

(** A goroutine whose body stops at its first failing command. *)
Definition goroutine_fail_fast (g : goroutine) : Prop :=
  match g with
  | Running body => fail_fast body \/ exists err, body = Return (Some err)
  | Finished _ => True
  end.

(** Every command of the fan-out so far has succeeded, unless a goroutine
    is doomed. *)
Definition fanout_clean (h0 : trace) (st : fanout) : Prop :=
  Forall goroutine_fail_fast (pool st) /\
  exists evs, hist st = h0 ++ evs /\ (Forall succeeded evs \/ Exists doomed (pool st)).

(** ** What a task has done when it succeeds *)

(** On every path of the task an event that satisfies [X] occurs before it
    returns a value that satisfies [good]. *)
Fixpoint passes_through {A : Type} (X : event -> Prop) (good : A -> Prop) (t : task A) : Prop :=
  match t with
  | Return a => ~ good a
  | Panic => True
  | RunStreaming c k => forall r, X (Streamed c r) \/ passes_through X good (k r)
  | RunCapture c k => forall r, X (Captured c (fst r) (snd r)) \/ passes_through X good (k r)
  | LogStep m k => X (Printed m) \/ passes_through X good k
  end.

(** A goroutine that has not yet done what it has to do before it may
    finish without error. *)
Definition goroutine_owes (X : event -> Prop) (g : goroutine) : Prop :=
  match g with
  | Running body => passes_through X (fun r => r = None) body
  | Finished r => r <> None
  end.

(** Every goroutine has done its [X] since history [h0], or still owes
    it. *)
Definition fanout_done (X : gostring -> event -> Prop) (h0 : trace) (ss : list gostring)
  (st : fanout) : Prop :=
  exists evs, hist st = h0 ++ evs /\
    Forall2 (fun s g => Exists (X s) evs \/ goroutine_owes (X s) g) ss (pool st).

(** ** What the progress lines say *)

(** What an event claims is borne out by the events [before] it: a line
    "Deployed s." comes after a successful deploy and a successful traffic
    migration of [s], a line "Deleted x." after the successful deletion of
    the revision or of the image [x]. *)
Definition justified (cfg : config) (ev : event) (before : trace) : Prop :=
  match ev with
  | Printed m =>
      (forall s, m = lit "Deployed " ++ s ++ lit "." ->
         In (Streamed (update_traffic_command cfg s) None) before /\
         exists ref, In (Streamed (deploy_command cfg s ref) None) before) /\
      (forall x, m = lit "Deleted " ++ x ++ lit "." ->
         In (Streamed (delete_revision_command cfg x) None) before \/
         In (Streamed (delete_image_command cfg x) None) before)
  | _ => True
  end.

(** Every event of the trace satisfies [J] with respect to the events before
    it. *)
Inductive truthful (J : event -> trace -> Prop) : trace -> Prop :=
| truthful_nil : truthful J []
| truthful_snoc evs ev : truthful J evs -> J ev evs -> truthful J (evs ++ [ev]).

(** Whatever the world answers, every event the task produces satisfies [J]
    with respect to [before] and the task's earlier events. *)
Fixpoint honest {A : Type} (J : event -> trace -> Prop) (t : task A) (before : trace) : Prop :=
  match t with
  | Return _ => True
  | Panic => True
  | RunStreaming c k =>
      forall r, J (Streamed c r) before /\ honest J (k r) (before ++ [Streamed c r])
  | RunCapture c k =>
      forall r, J (Captured c (fst r) (snd r)) before /\
                honest J (k r) (before ++ [Captured c (fst r) (snd r)])
  | LogStep m k => J (Printed m) before /\ honest J k (before ++ [Printed m])
  end.

Definition goroutine_honest (J : event -> trace -> Prop) (before : trace) (g : goroutine)
  : Prop :=
  match g with
  | Running body => honest J body before
  | Finished _ => True
  end.

(** The fan-out so far is truthful, and so is what its goroutines may still
    do. *)
Definition fanout_honest (J : event -> trace -> Prop) (h0 : trace) (st : fanout) : Prop :=
  exists evs, hist st = h0 ++ evs /\ truthful J evs /\
    Forall (goroutine_honest J evs) (pool st).

(** [J] keeps holding when more has happened before. *)
Definition monotone (J : event -> trace -> Prop) : Prop :=
  forall ev b b', incl b b' -> J ev b -> J ev b'.

(** ** Instances for evaluating the model *)

(** A library instance: no case table beyond ASCII, quoting by bare double
    quotes, paths joined with a slash, and a tag listing read as one digest
    per comma-separated item. *)
Definition sample_lib : golib :=
  {| To_LowerCase := fun r => r;
     strconv_Quote := fun s => [34%N] ++ s ++ [34%N];
     filepath_Join := fun d f => d ++ lit "/" ++ f;
     json_Unmarshal_tags := fun out =>
       Ok (map (fun d => {| Digest := d |}) (Split out (lit ","))) |}.

(** A file system given by the list of its paths. *)
Definition files (paths : list gostring) : filesystem :=
  fun path => existsb (streq path) paths.

Definition exit_status_1 : goerror := errors_New (lit "exit status 1").

(** A world given by a script: a captured command prints [outputs c] and
    succeeds; a streamed command ends with "exit status 1" when [fails c]
    holds and succeeds otherwise. *)
Definition scripted (outputs : command -> gostring) (fails : command -> bool) : env :=
  {| streaming_result := fun _ c => if fails c then Some exit_status_1 else None;
     capture_result := fun _ c => (outputs c, None) |}.

Definition is_revision_delete (c : command) : bool :=
  match revision_deletion (Streamed c None) with
  | Some _ => true
  | None => false
  end.

Definition is_image_delete (c : command) : bool :=
  match image_deletion (Streamed c None) with
  | Some _ => true
  | None => false
  end.

Definition nobody (c : command) : bool := false.

(** The push prints a digest line, the tag listing four records (the third
    without a digest), and the revision listing four revisions. *)
Definition sample_outputs (c : command) : gostring :=
  if streq (cmd_name c) (lit "docker") then lit "latest: digest: sha256:abc size: 1"
  else if is_image_command c then lit "d1,d2,,d3"
  else lit "r3" ++ newline ++ lit "r2" ++ newline ++ lit "r1" ++ newline ++ lit "r0"
       ++ newline.

Definition sample_config (svcs : list gostring) (is_beta : bool) (keep : Z) : config :=
  {| image := lit "web";
     beta := is_beta;
     services := svcs;
     workdir := lit "/w";
     start := 0;
     keepImgs := keep;
     keepRevs := keep;
     project := lit "proj";
     region := lit "asia-northeast3";
     registryHost := lit "asia.gcr.io" |}.

Definition sample_flags (svc : gostring) : flags :=
  {| flag_image := lit "web";
     flag_svc := svc;
     flag_beta := false;
     flag_keep_images := 10;
     flag_keep_revisions := 10;
     flag_project := lit "proj";
     flag_region := lit "asia-northeast3";
     flag_registry_host := [] |}.

(** * Properties *)

(** ** Go strings *)

Lemma streq_eq (a b : gostring) : streq a b = true <-> a = b.
Proof.
  revert b; induction a as [|x a IH]; intros [|y b]; simpl; split; intro H;
    try reflexivity; try discriminate.
  - apply andb_true_iff in H as [Hx Ha]. apply N.eqb_eq in Hx.
    apply IH in Ha. congruence.
  - inversion H; subst. rewrite N.eqb_refl. simpl. now apply IH.
Qed.

Lemma streq_nil (a : gostring) : streq a [] = true <-> a = [].
Proof. apply streq_eq. Qed.

Lemma streq_refl (a : gostring) : streq a a = true.
Proof. now apply streq_eq. Qed.

Lemma HasPrefix_app (s prefix : gostring) :
  HasPrefix s prefix = true <-> exists rest, s = prefix ++ rest.
Proof.
  revert s; induction prefix as [|p prefix IH]; intros s; simpl.
  - split; [intros _; now exists s | reflexivity].
  - destruct s as [|c s].
    + split; [discriminate | intros [rest H]; discriminate].
    + rewrite andb_true_iff, N.eqb_eq, IH. split.
      * intros [-> [rest ->]]. now exists rest.
      * intros [rest H]. inversion H; subst. split; [reflexivity | now exists rest].
Qed.

(** [Index] finds an occurrence ... *)
Lemma Index_Some (s substr : gostring) (m : nat) :
  Index s substr = Some m ->
  s = firstn m s ++ substr ++ skipn (m + length substr) s /\ m + length substr <= length s.
Proof.
  revert m; induction s as [|c s IH]; intros m; cbn [Index].
  - destruct substr as [|p substr]; simpl; [|discriminate].
    intros [= <-]. simpl. split; [reflexivity | lia].
  - destruct (HasPrefix (c :: s) substr) eqn:Hp.
    + intros [= <-]. apply HasPrefix_app in Hp as [rest Hs].
      rewrite Hs. cbn [firstn Nat.add app].
      rewrite skipn_app, skipn_all, Nat.sub_diag, length_app. simpl.
      split; [reflexivity | lia].
    + destruct (Index s substr) as [m'|] eqn:Hi; simpl; [|discriminate].
      intros [= <-]. destruct (IH m' eq_refl) as [Hs Hlen]. simpl.
      split; [now rewrite <- Hs | lia].
Qed.

(** ... and the first one. *)
Lemma Index_first (s substr : gostring) (m j : nat) :
  Index s substr = Some m -> j < m -> HasPrefix (skipn j s) substr = false.
Proof.
  revert m j; induction s as [|c s IH]; intros m j; simpl.
  - destruct (HasPrefix [] substr); [intros [= <-]; lia | discriminate].
  - destruct (HasPrefix (c :: s) substr) eqn:Hp; [intros [= <-]; lia|].
    destruct (Index s substr) as [m'|] eqn:Hi; simpl; [|discriminate].
    intros [= <-] Hj. destruct j as [|j]; simpl; [exact Hp|].
    apply (IH m' j eq_refl). lia.
Qed.

Lemma Index_None (s substr : gostring) (j : nat) :
  Index s substr = None -> HasPrefix (skipn j s) substr = false.
Proof.
  revert j; induction s as [|c s IH]; intros j; simpl.
  - destruct (HasPrefix [] substr) eqn:Hp; [discriminate|]. intros _.
    now destruct j.
  - destruct (HasPrefix (c :: s) substr) eqn:Hp; [discriminate|].
    destruct (Index s substr) eqn:Hi; simpl; [discriminate|]. intros _.
    destruct j as [|j]; simpl; [exact Hp | now apply IH].
Qed.

Lemma Contains_false_no_occurrence (s substr a b : gostring) :
  Contains s substr = false -> s <> a ++ substr ++ b.
Proof.
  unfold Contains. destruct (Index s substr) eqn:Hi; [discriminate|]. intros _ Hs.
  pose proof (Index_None s substr (length a) Hi) as Hp.
  rewrite Hs, skipn_app, skipn_all, Nat.sub_diag in Hp. simpl in Hp.
  assert (HasPrefix (substr ++ b) substr = true) by (apply HasPrefix_app; now exists b).
  congruence.
Qed.

Lemma Contains_true_occurrence (s substr : gostring) :
  Contains s substr = true -> exists a b, s = a ++ substr ++ b.
Proof.
  unfold Contains. destruct (Index s substr) as [m|] eqn:Hi; [|discriminate]. intros _.
  apply Index_Some in Hi as [Hs _]. eauto.
Qed.

Lemma Index_nil_cons (p : rune) (sep : gostring) : Index [] (p :: sep) = None.
Proof. reflexivity. Qed.

Lemma Index_shrinks (s sep : gostring) (m : nat) :
  sep <> [] -> Index s sep = Some m ->
  length (skipn (m + length sep) s) < length s.
Proof.
  intros Hsep Hi. apply Index_Some in Hi as [_ Hlen]. rewrite length_skipn.
  destruct sep; [congruence|]. simpl in *. lia.
Qed.

(** Any fuel of at least the length of the string gives the same cut. *)
Lemma genSplit_fuel (sep : gostring) (n1 n2 : nat) (s : gostring) :
  sep <> [] -> length s <= n1 -> length s <= n2 ->
  genSplit n1 s sep = genSplit n2 s sep.
Proof.
  intros Hsep. revert n2 s. induction n1 as [|n1 IH]; intros n2 s H1 H2.
  - destruct s; [|simpl in H1; lia]. destruct sep; [congruence|].
    destruct n2; reflexivity.
  - destruct n2 as [|n2].
    + destruct s; [|simpl in H2; lia]. destruct sep; [congruence|]. reflexivity.
    + simpl. destruct (Index s sep) as [m|] eqn:Hi; [|reflexivity].
      pose proof (Index_shrinks s sep m Hsep Hi). f_equal. apply IH; lia.
Qed.

(** [Split] cuts at the first occurrence and goes on with what follows. *)
Lemma Split_cons (s sep : gostring) :
  sep <> [] ->
  Split s sep =
    match Index s sep with
    | None => [s]
    | Some m => firstn m s :: Split (skipn (m + length sep) s) sep
    end.
Proof.
  intros Hsep. unfold Split. destruct sep as [|p sep]; [congruence|].
  destruct s as [|c s]; [reflexivity|].
  cbn [length genSplit]. destruct (Index (c :: s) (p :: sep)) as [m|] eqn:Hi; [|reflexivity].
  f_equal. pose proof (Index_shrinks _ _ m Hsep Hi) as Hlt. cbn [length] in Hlt.
  apply genSplit_fuel; [exact Hsep | lia | lia].
Qed.

Lemma genSplit_not_nil (n : nat) (s sep : gostring) : genSplit n s sep <> [].
Proof. destruct n; simpl; [discriminate|]. destruct (Index s sep); discriminate. Qed.

Lemma Join_cons (e : gostring) (rest : list gostring) (sep : gostring) :
  rest <> [] -> Join (e :: rest) sep = e ++ sep ++ Join rest sep.
Proof. destruct rest; [congruence | reflexivity]. Qed.

(** Joining the pieces with the separator gives the string back. *)
Lemma Join_genSplit (n : nat) (s sep : gostring) : Join (genSplit n s sep) sep = s.
Proof.
  revert s; induction n as [|n IH]; intros s; simpl; [reflexivity|].
  destruct (Index s sep) as [m|] eqn:Hi; [|reflexivity].
  rewrite Join_cons by apply genSplit_not_nil. rewrite IH.
  symmetry. now apply Index_Some.
Qed.

Lemma Join_Split (s sep : gostring) : sep <> [] -> Join (Split s sep) sep = s.
Proof.
  intros Hsep. unfold Split. destruct sep; [congruence|]. apply Join_genSplit.
Qed.

Lemma HasPrefix_at_occurrence (a sep b : gostring) :
  HasPrefix (skipn (length a) (a ++ sep ++ b)) sep = true.
Proof.
  rewrite skipn_app, skipn_all, Nat.sub_diag. simpl.
  apply HasPrefix_app. now exists b.
Qed.

(** The piece before the first occurrence holds no occurrence. *)
Lemma Index_firstn_None (s sep : gostring) (m : nat) :
  sep <> [] -> Index s sep = Some m -> Index (firstn m s) sep = None.
Proof.
  intros Hsep Hi. destruct (Index (firstn m s) sep) as [j|] eqn:Hj; [|reflexivity].
  exfalso. apply Index_Some in Hj as [Hd Hl].
  assert (Hlen : length (firstn m s) <= m) by (rewrite length_firstn; lia).
  assert (Hsl : 0 < length sep) by (destruct sep; [congruence | simpl; lia]).
  assert (Hjm : j < m) by lia.
  pose proof (Index_first s sep m j Hi Hjm) as Hf.
  set (F := firstn m s) in *.
  assert (Hs : s = firstn j F ++ sep ++ (skipn (j + length sep) F ++ skipn m s)).
  { rewrite <- (firstn_skipn m s) at 1. fold F. rewrite Hd at 1.
    now rewrite <- !app_assoc. }
  assert (Hfj : length (firstn j F) = j) by (rewrite length_firstn; lia).
  assert (Ht : HasPrefix (skipn j s) sep = true).
  { rewrite Hs.
    pose proof (HasPrefix_at_occurrence (firstn j F) sep
                  (skipn (j + length sep) F ++ skipn m s)) as H.
    now rewrite Hfj in H. }
  congruence.
Qed.

(** No piece of a split holds the separator. *)
Lemma genSplit_no_sep (sep : gostring) (n : nat) (s : gostring) :
  sep <> [] -> length s <= n ->
  Forall (fun piece => Contains piece sep = false) (genSplit n s sep).
Proof.
  intros Hsep. revert s; induction n as [|n IH]; intros s Hn.
  - destruct s; [|simpl in Hn; lia]. destruct sep; [congruence|].
    constructor; [reflexivity | constructor].
  - simpl. destruct (Index s sep) as [m|] eqn:Hi.
    + constructor.
      * unfold Contains. now rewrite (Index_firstn_None s sep m Hsep Hi).
      * apply IH. pose proof (Index_shrinks s sep m Hsep Hi). lia.
    + constructor; [|constructor]. unfold Contains. now rewrite Hi.
Qed.

Lemma Split_no_sep (s sep : gostring) :
  sep <> [] -> Forall (fun piece => Contains piece sep = false) (Split s sep).
Proof.
  intros Hsep. unfold Split. destruct sep; [congruence|].
  now apply genSplit_no_sep.
Qed.

(** *** Trimming *)

Lemma TrimLeftSpace_spec (s : gostring) :
  exists ws, s = ws ++ TrimLeftSpace s /\ all_space ws /\
    (TrimLeftSpace s = [] \/ exists c t, TrimLeftSpace s = c :: t /\ isSpace c = false).
Proof.
  induction s as [|c s (ws & Hs & Hws & Hhd)]; simpl.
  - exists []. repeat split. now left.
  - destruct (isSpace c) eqn:Hc.
    + exists (c :: ws). repeat split; [simpl; now f_equal | | exact Hhd].
      unfold all_space. simpl. now rewrite Hc.
    + exists []. repeat split. right. now exists c, s.
Qed.

Lemma all_space_rev (ws : gostring) : all_space ws -> all_space (rev ws).
Proof.
  unfold all_space. rewrite !forallb_forall. intros H c Hc.
  apply H. now apply in_rev.
Qed.

Lemma TrimRightSpace_spec (s : gostring) :
  exists ws, s = TrimRightSpace s ++ ws /\ all_space ws /\
    (TrimRightSpace s = [] \/ exists t c, TrimRightSpace s = t ++ [c] /\ isSpace c = false).
Proof.
  unfold TrimRightSpace.
  destruct (TrimLeftSpace_spec (rev s)) as (ws & Hs & Hws & Hhd).
  exists (rev ws). repeat split.
  - rewrite <- rev_app_distr, <- Hs. now rewrite rev_involutive.
  - now apply all_space_rev.
  - destruct Hhd as [-> | (c & t & -> & Hc)]; [now left|].
    right. exists (rev t), c. now split.
Qed.

Lemma TrimLeftSpace_hd (c : rune) (t : gostring) :
  isSpace c = false -> TrimLeftSpace (c :: t) = c :: t.
Proof. intros H. simpl. now rewrite H. Qed.

Lemma TrimLeftSpace_spaces (ws s : gostring) :
  all_space ws -> TrimLeftSpace (ws ++ s) = TrimLeftSpace s.
Proof.
  unfold all_space. induction ws as [|c ws IH]; simpl; [reflexivity|].
  intros H. apply andb_true_iff in H as [Hc Hws]. rewrite Hc. now apply IH.
Qed.

(** What [TrimSpace] gives is the string between two runs of white space,
    and it neither starts nor ends with a white-space rune. *)
Lemma TrimSpace_spec (s : gostring) :
  exists ws1 ws2, s = ws1 ++ TrimSpace s ++ ws2 /\ all_space ws1 /\ all_space ws2 /\
    (TrimSpace s = [] \/
     (exists c t, TrimSpace s = c :: t /\ isSpace c = false) /\
     (exists t c, TrimSpace s = t ++ [c] /\ isSpace c = false)).
Proof.
  unfold TrimSpace.
  destruct (TrimLeftSpace_spec s) as (ws1 & Hs1 & Hws1 & Hhd).
  destruct (TrimRightSpace_spec (TrimLeftSpace s)) as (ws2 & Hs2 & Hws2 & Htl).
  exists ws1, ws2. repeat split; try assumption.
  - now rewrite <- Hs2.
  - destruct Htl as [Hnil | (t & c & Ht & Hc)]; [now left|]. right. split.
    + remember (TrimRightSpace (TrimLeftSpace s)) as R eqn:HR.
      destruct Hhd as [Hnil | (c0 & t0 & Hl & Hc0)].
      * rewrite Hnil in Hs2. symmetry in Hs2. apply app_eq_nil in Hs2 as [H _].
        rewrite H in Ht. now destruct t.
      * rewrite Hl in Hs2. destruct R as [|c1 R].
        -- now destruct t.
        -- inversion Hs2; subst c1. now exists c0, R.
    + eauto.
Qed.

Lemma TrimSpace_fixed (s : gostring) :
  (s = [] \/ (exists c t, s = c :: t /\ isSpace c = false) /\
             (exists t c, s = t ++ [c] /\ isSpace c = false)) ->
  TrimSpace s = s.
Proof.
  intros [-> | [(c & t & Hs & Hc) (t' & c' & Hs' & Hc')]]; [reflexivity|].
  unfold TrimSpace, TrimRightSpace.
  assert (Hl : TrimLeftSpace s = s) by (rewrite Hs; now apply TrimLeftSpace_hd).
  rewrite Hl, Hs', rev_app_distr. simpl. rewrite Hc'. simpl.
  now rewrite rev_involutive.
Qed.

Lemma TrimSpace_idem (s : gostring) : TrimSpace (TrimSpace s) = TrimSpace s.
Proof.
  apply TrimSpace_fixed.
  destruct (TrimSpace_spec s) as (_ & _ & _ & _ & _ & H). exact H.
Qed.

(** *** Fields *)

Lemma fields_from_spaces_end (ws cur : gostring) :
  all_space ws ->
  fields_from cur ws = match cur with [] => [] | _ :: _ => [cur] end.
Proof.
  unfold all_space. revert cur; induction ws as [|c ws IH]; intros cur H; simpl.
  - reflexivity.
  - simpl in H. apply andb_true_iff in H as [Hc Hws]. rewrite Hc.
    destruct cur; rewrite IH by assumption; reflexivity.
Qed.

Lemma fields_from_app_spaces (s ws cur : gostring) :
  all_space ws -> fields_from cur (s ++ ws) = fields_from cur s.
Proof.
  intros Hws. revert cur; induction s as [|c s IH]; intros cur; simpl.
  - now apply fields_from_spaces_end.
  - destruct (isSpace c); [destruct cur|]; now rewrite IH.
Qed.

Lemma Fields_spaces_app (ws s : gostring) :
  all_space ws -> Fields (ws ++ s) = Fields s.
Proof.
  unfold all_space, Fields. induction ws as [|c ws IH]; simpl; [reflexivity|].
  intros H. apply andb_true_iff in H as [Hc Hws]. rewrite Hc. now apply IH.
Qed.

(** Trimming first does not change the fields. *)
Lemma Fields_TrimSpace (s : gostring) : Fields (TrimSpace s) = Fields s.
Proof.
  destruct (TrimSpace_spec s) as (ws1 & ws2 & Hs & Hws1 & Hws2 & _).
  rewrite Hs at 2. rewrite Fields_spaces_app by assumption.
  unfold Fields. now rewrite fields_from_app_spaces.
Qed.

Lemma no_space_app (a b : gostring) : no_space a -> no_space b -> no_space (a ++ b).
Proof. unfold no_space. rewrite forallb_app. intros -> ->. reflexivity. Qed.

(** The first field is the first maximal run of non-space runes. *)
Lemma fields_from_hd (s cur d : gostring) (fs : list gostring) :
  no_space cur -> fields_from cur s = d :: fs ->
  exists ws tail, cur ++ s = ws ++ d ++ tail /\ all_space ws /\ d <> [] /\ no_space d /\
    (tail = [] \/ exists c t, tail = c :: t /\ isSpace c = true) /\
    (cur <> [] -> ws = []).
Proof.
  revert cur; induction s as [|c s IH]; intros cur Hcur; simpl.
  - destruct cur as [|c0 cur]; [discriminate|]. intros [= <- <-].
    exists [], []. rewrite !app_nil_r. repeat split; auto; discriminate.
  - destruct (isSpace c) eqn:Hc.
    + destruct cur as [|c0 cur].
      * intros H. destruct (IH [] eq_refl H) as (ws & tail & Hs & Hws & Hd & Hnd & Ht & _).
        exists (c :: ws), tail. simpl in *. rewrite Hs. repeat split; auto.
        -- unfold all_space. simpl. now rewrite Hc.
        -- congruence.
      * intros [= <- <-]. exists [], (c :: s). repeat split; auto; try discriminate.
        right. now exists c, s.
    + intros H.
      assert (Hcur' : no_space (cur ++ [c])).
      { apply no_space_app; [assumption|]. unfold no_space. simpl. now rewrite Hc. }
      destruct (IH (cur ++ [c]) Hcur' H) as (ws & tail & Hs & Hws & Hd & Hnd & Ht & Hne).
      assert (ws = []) as -> by (apply Hne; now destruct cur).
      exists [], tail. rewrite <- app_assoc in Hs. simpl in *. repeat split; auto.
Qed.

Lemma Fields_hd (s d : gostring) (fs : list gostring) :
  Fields s = d :: fs ->
  exists ws tail, s = ws ++ d ++ tail /\ all_space ws /\ d <> [] /\ no_space d /\
    (tail = [] \/ exists c t, tail = c :: t /\ isSpace c = true).
Proof.
  intros H. destruct (fields_from_hd s [] d fs eq_refl H) as (ws & tail & Hs & H1 & H2 & H3 & H4 & _).
  exists ws, tail. auto.
Qed.

Lemma Fields_nil (s : gostring) : Fields s = [] -> all_space s.
Proof.
  unfold Fields, all_space. induction s as [|c s IH]; simpl; [reflexivity|].
  destruct (isSpace c) eqn:Hc; [exact IH|]. intros H. exfalso.
  assert (Hg : forall t cur, cur <> [] -> fields_from cur t <> []).
  { clear. induction t as [|c t IH]; intros cur Hcur; simpl.
    - destruct cur; [congruence | discriminate].
    - destruct (isSpace c); [destruct cur; [congruence | discriminate]|].
      apply IH. now destruct cur. }
  apply (Hg s [c]); [discriminate | exact H].
Qed.

(** ** Service-list parsing *)

Lemma append_trimmed_filter (parts result : list gostring) :
  append_trimmed parts result = result ++ filter non_empty (map TrimSpace parts).
Proof.
  revert result; induction parts as [|part parts IH]; intros result; simpl.
  - now rewrite app_nil_r.
  - unfold non_empty at 1. destruct (streq (TrimSpace part) []); simpl.
    + apply IH.
    + rewrite IH, <- app_assoc. reflexivity.
Qed.

Lemma splitServices_filter (raw : gostring) :
  splitServices raw = filter non_empty (map TrimSpace (Split raw (lit ";"))).
Proof. unfold splitServices. now rewrite append_trimmed_filter. Qed.

Lemma filter_non_empty_no_nil (l : list gostring) : ~ In [] (filter non_empty l).
Proof. intros H. apply filter_In in H as [_ H]. discriminate. Qed.

(** C10. The parsed service list is the list of the semicolon-separated
    segments of the raw [--svc] string (joined by semicolons they give the
    string back, and none holds a semicolon), each trimmed, the empty ones
    dropped, in their order; it never holds the empty string; and
    [parseConfig] rejects the run when the list is empty, while a
    configuration it accepts carries exactly this list. *)
Theorem splitServices_segments (lib : golib) (fl : flags) (getwd : result gostring)
  (now : Z) :
  let raw := flag_svc fl in
  let segments := Split raw (lit ";") in
  Join segments (lit ";") = raw /\
  Forall (fun seg => Contains seg (lit ";") = false) segments /\
  splitServices raw = filter non_empty (map TrimSpace segments) /\
  ~ In [] (splitServices raw) /\
  (splitServices raw = [] -> exists err, parseConfig lib fl getwd now = Err err) /\
  (forall cfg, parseConfig lib fl getwd now = Ok cfg ->
     services cfg = splitServices raw /\ services cfg <> []).
Proof.
  intros raw segments. split; [|split; [|split; [|split; [|split]]]].
  - apply Join_Split. discriminate.
  - apply Split_no_sep. discriminate.
  - apply splitServices_filter.
  - rewrite splitServices_filter. apply filter_non_empty_no_nil.
  - intros Hnil. unfold parseConfig. fold raw. rewrite Hnil. simpl.
    destruct (streq (flag_image fl) []); [eauto|].
    destruct (streq raw []); eauto.
  - intros cfg. unfold parseConfig. fold raw.
    destruct (streq (flag_image fl) []); [discriminate|].
    destruct (streq raw []); [discriminate|].
    destruct (splitServices raw) as [|s0 ss] eqn:Hs; [discriminate|]. simpl.
    destruct (flag_keep_images fl <? 1)%Z; [discriminate|].
    destruct (flag_keep_revisions fl <? 1)%Z; [discriminate|].
    destruct (streq (flag_project fl) []); [discriminate|].
    destruct (streq (flag_region fl) []); [discriminate|].
    destruct getwd; [|discriminate]. intros [= <-]. simpl. split; [reflexivity | discriminate].
Qed.

Lemma splitServices_segments_witness :
  exists err, parseConfig sample_lib (sample_flags (lit " ; ;")) (Ok (lit "/w")) 0 = Err err.
Proof.
  destruct (splitServices_segments sample_lib (sample_flags (lit " ; ;")) (Ok (lit "/w")) 0)
    as (_ & _ & _ & _ & H & _).
  apply H. reflexivity.
Defined.

Example splitServices_ex :
  splitServices (lit " a ; ;b;") = [lit "a"; lit "b"].
Proof. vm_compute. reflexivity. Qed.

(** ** Digest extraction *)

Lemma digest_marker_not_nil : digest_marker <> [].
Proof. discriminate. Qed.

(** The second part of the split is the stretch after the marker. *)
Lemma Split_second_part (line : gostring) :
  Contains line digest_marker = true ->
  exists stretch, after_marker line = Some stretch /\
    (length (Split line digest_marker) <? 2) = false /\
    nth 1 (Split line digest_marker) [] = stretch.
Proof.
  unfold Contains, after_marker. intros Hc.
  rewrite (Split_cons line digest_marker digest_marker_not_nil).
  destruct (Index line digest_marker) as [m|]; [|discriminate].
  cbv zeta.
  rewrite (Split_cons (skipn _ line) digest_marker digest_marker_not_nil).
  destruct (Index (skipn (m + length digest_marker) line) digest_marker) as [m'|].
  - eexists. split; [reflexivity|]. split; reflexivity.
  - eexists. split; [reflexivity|]. split; reflexivity.
Qed.

Lemma after_marker_None (line : gostring) :
  Contains line digest_marker = false -> after_marker line = None.
Proof.
  unfold Contains, after_marker. now destruct (Index line digest_marker).
Qed.

(** One round of the loop of [parseDigest] returns the digest the line
    announces, or goes on to the next line when it announces none. *)
Lemma parseDigest_loop_step (line : gostring) (lines : list gostring) :
  parseDigest_loop (line :: lines) =
    match line_digest line with
    | Some d => Ok d
    | None => parseDigest_loop lines
    end.
Proof.
  cbn [parseDigest_loop]. cbv zeta. unfold line_digest.
  destruct (Contains (TrimSpace line) digest_marker) eqn:Hc.
  - destruct (Split_second_part _ Hc) as (stretch & -> & -> & ->).
    rewrite Fields_TrimSpace. unfold first_token.
    now destruct (Fields stretch).
  - now rewrite after_marker_None.
Qed.

Lemma parseDigest_loop_first (pre post : list gostring) (line d : gostring) :
  Forall (fun l => line_digest l = None) pre ->
  line_digest line = Some d ->
  parseDigest_loop (pre ++ line :: post) = Ok d.
Proof.
  intros Hpre Hline. induction Hpre as [|l pre Hl _ IH]; simpl app.
  - now rewrite parseDigest_loop_step, Hline.
  - now rewrite parseDigest_loop_step, Hl.
Qed.

Lemma parseDigest_loop_none (lines : list gostring) :
  Forall (fun l => line_digest l = None) lines ->
  parseDigest_loop lines = Err digest_not_found.
Proof.
  intros H. induction H as [|l lines Hl _ IH]; [reflexivity|].
  now rewrite parseDigest_loop_step, Hl.
Qed.

(** Trimming a line neither adds nor removes an occurrence of a string that
    is already there. *)
Lemma Contains_TrimSpace_false (line substr : gostring) :
  Contains line substr = false -> Contains (TrimSpace line) substr = false.
Proof.
  intros Hc. destruct (Contains (TrimSpace line) substr) eqn:Ht; [|reflexivity].
  exfalso. apply Contains_true_occurrence in Ht as (a & b & Ht).
  destruct (TrimSpace_spec line) as (ws1 & ws2 & Hs & _).
  apply (Contains_false_no_occurrence line substr (ws1 ++ a) (b ++ ws2) Hc).
  rewrite Hs at 1. rewrite Ht. now rewrite <- !app_assoc.
Qed.

Lemma line_digest_no_marker (line : gostring) :
  Contains line digest_marker = false -> line_digest line = None.
Proof.
  intros Hc. unfold line_digest.
  now rewrite after_marker_None by now apply Contains_TrimSpace_false.
Qed.

(** What [line_digest] gives, said without the library functions: the
    trimmed line is [a ++ marker ++ stretch ++ c], the marker first occurs
    right after [a], the stretch holds no marker and is followed by the end
    of the line or by the next marker, and the digest is the first maximal
    run of non-space runes of the stretch. *)
Lemma line_digest_sound (line d : gostring) :
  line_digest line = Some d ->
  exists a stretch c ws tail,
    TrimSpace line = a ++ digest_marker ++ stretch ++ c /\
    Contains a digest_marker = false /\
    Contains stretch digest_marker = false /\
    (c = [] \/ HasPrefix c digest_marker = true) /\
    stretch = ws ++ d ++ tail /\ all_space ws /\ d <> [] /\ no_space d /\
    (tail = [] \/ exists s t, tail = s :: t /\ isSpace s = true).
Proof.
  unfold line_digest, after_marker, first_token.
  set (l := TrimSpace line).
  destruct (Index l digest_marker) as [m|] eqn:Hm; [|discriminate].
  cbv zeta. set (rest := skipn (m + length digest_marker) l).
  pose proof (Index_Some _ _ _ Hm) as [Hl _]. fold rest in Hl.
  pose proof (Index_firstn_None _ _ _ digest_marker_not_nil Hm) as Ha.
  assert (Hdone : forall stretch c,
    rest = stretch ++ c -> Contains stretch digest_marker = false ->
    (c = [] \/ HasPrefix c digest_marker = true) ->
    hd_error (Fields stretch) = Some d ->
    exists a stretch c ws tail,
      l = a ++ digest_marker ++ stretch ++ c /\
      Contains a digest_marker = false /\
      Contains stretch digest_marker = false /\
      (c = [] \/ HasPrefix c digest_marker = true) /\
      stretch = ws ++ d ++ tail /\ all_space ws /\ d <> [] /\ no_space d /\
      (tail = [] \/ exists s t, tail = s :: t /\ isSpace s = true)).
  { intros stretch c Hr Hs Hc Hf.
    destruct (Fields stretch) as [|f fs] eqn:HF; [discriminate|].
    injection Hf as ->.
    destruct (Fields_hd _ _ _ HF) as (ws & tail & H1 & H2 & H3 & H4 & H5).
    exists (firstn m l), stretch, c, ws, tail. repeat split; auto.
    - rewrite Hl at 1. now rewrite Hr.
    - unfold Contains. now rewrite Ha. }
  destruct (Index rest digest_marker) as [m'|] eqn:Hm'.
  - intros Hf. apply (Hdone (firstn m' rest) (skipn m' rest)); auto.
    + now rewrite firstn_skipn.
    + unfold Contains.
      now rewrite (Index_firstn_None _ _ _ digest_marker_not_nil Hm').
    + right. apply Index_Some in Hm' as [Hr _]. apply HasPrefix_app.
      exists (skipn (m' + length digest_marker) rest).
      rewrite Hr at 1. rewrite skipn_app, skipn_all2 by (rewrite length_firstn; lia).
      rewrite length_firstn.
      assert (Hle : m' <= length rest).
      { destruct (Nat.le_gt_cases m' (length rest)); [assumption|].
        rewrite firstn_all2 in Hr by lia.
        apply (f_equal (@length rune)) in Hr. rewrite !length_app in Hr.
        simpl in Hr. lia. }
      replace (m' - Nat.min m' (length rest)) with 0 by lia. reflexivity.
  - intros Hf. apply (Hdone rest []); auto.
    + now rewrite app_nil_r.
    + unfold Contains. now rewrite Hm'.
Qed.

(** C1 (as amended).  The lines are scanned in order; the first line that
    announces a digest - the marker followed, before any further marker, by
    a token - is authoritative, and the result is the first
    white-space-delimited token after its first marker; when no line
    announces a digest, in particular when no line contains the marker,
    extraction fails with the digest-not-found error; a line
    "... digest: sha256:abc123 size: 528" announces "sha256:abc123". *)
Theorem parseDigest_first_announcement (output : gostring) :
  let lines := Split output newline in
  Join lines newline = output /\
  (forall pre line post d,
     lines = pre ++ line :: post ->
     Forall (fun l => line_digest l = None) pre ->
     line_digest line = Some d ->
     parseDigest output = Ok d) /\
  (Forall (fun l => line_digest l = None) lines ->
   parseDigest output = Err digest_not_found) /\
  (Forall (fun l => Contains l digest_marker = false) lines ->
   parseDigest output = Err digest_not_found) /\
  (forall pre post,
     lines = pre ++ lit "... digest: sha256:abc123 size: 528" :: post ->
     Forall (fun l => line_digest l = None) pre ->
     parseDigest output = Ok (lit "sha256:abc123")).
Proof.
  intros lines. unfold parseDigest. fold lines.
  split; [|split; [|split; [|split]]].
  - apply Join_Split. discriminate.
  - intros pre line post d -> Hpre Hline. now apply parseDigest_loop_first.
  - apply parseDigest_loop_none.
  - intros H. apply parseDigest_loop_none.
    eapply Forall_impl; [|exact H]. intros l. apply line_digest_no_marker.
  - intros pre post -> Hpre. apply parseDigest_loop_first; [assumption|].
    vm_compute. reflexivity.
Qed.

Lemma parseDigest_first_announcement_witness :
  parseDigest (lit "digest:" ++ newline ++ lit "latest: digest: sha256:abc123 size: 528" ++ newline)
  = Ok (lit "sha256:abc123").
Proof.
  destruct (parseDigest_first_announcement
              (lit "digest:" ++ newline ++ lit "latest: digest: sha256:abc123 size: 528" ++ newline))
    as (_ & H & _).
  apply (H [lit "digest:"] (lit "latest: digest: sha256:abc123 size: 528") [[]]).
  - vm_compute. reflexivity.
  - repeat constructor.
  - vm_compute. reflexivity.
Defined.

(** C1 as stated fails: a first marker line with nothing after the marker
    is passed over, and the digest comes from a later line. *)
Lemma parseDigest_first_marker_line_not_authoritative :
  ~ (forall output pre line post d,
       Split output newline = pre ++ line :: post ->
       Forall (fun l => Contains l digest_marker = false) pre ->
       Contains line digest_marker = true ->
       parseDigest output = Ok d ->
       stated_token line = Some d).
Proof.
  intros H.
  specialize (H (lit "digest:" ++ newline ++ lit "latest: digest: sha256:abc size: 1")
                [] (lit "digest:") [lit "latest: digest: sha256:abc size: 1"]
                (lit "sha256:abc")).
  assert (Hf : stated_token (lit "digest:") = Some (lit "sha256:abc")).
  { apply H; try (vm_compute; reflexivity). constructor. }
  vm_compute in Hf. discriminate.
Qed.

Example parseDigest_ex :
  parseDigest (lit "latest: digest: sha256:abc123 size: 528") = Ok (lit "sha256:abc123").
Proof. vm_compute. reflexivity. Qed.

(** ** Build selector *)

Section BuildSelector.

Variable lib : golib.
Variable fs : filesystem.
Variable wd : gostring.

Lemma detectLanguage_loop_first (inds : list indicator) (i : nat) (ind : indicator) :
  nth_error inds i = Some ind ->
  present lib fs wd (ind_file ind) ->
  (forall j ind', j < i -> nth_error inds j = Some ind' ->
                  ~ present lib fs wd (ind_file ind')) ->
  detectLanguage_loop lib fs wd inds = Some (ind_lang ind).
Proof.
  unfold present. revert i; induction inds as [|ind0 inds IH]; intros i Hi Hp Hbefore.
  - now destruct i.
  - destruct i as [|i]; simpl in *.
    + injection Hi as ->. now rewrite Hp.
    + destruct (fileExists fs (filepath_Join lib wd (ind_file ind0))) eqn:H0.
      * exfalso. apply (Hbefore 0 ind0); [lia | reflexivity | exact H0].
      * apply (IH i Hi Hp). intros j ind' Hj Hn. apply (Hbefore (S j) ind'); [lia | exact Hn].
Qed.

Lemma detectLanguage_loop_none (inds : list indicator) :
  (forall ind, In ind inds -> ~ present lib fs wd (ind_file ind)) ->
  detectLanguage_loop lib fs wd inds = None.
Proof.
  unfold present. induction inds as [|ind0 inds IH]; intros H; simpl; [reflexivity|].
  destruct (fileExists fs (filepath_Join lib wd (ind_file ind0))) eqn:H0.
  - exfalso. apply (H ind0); [now left | exact H0].
  - apply IH. intros ind Hin. apply H. now right.
Qed.

(** C8. Without an explicit choice the selector detects; detection never
    fails; it returns the tool of the first marker file present, in the
    order pnpm-lock.yaml, yarn.lock, package-lock.json, go.mod, Cargo.toml;
    when none of them is present it resolves to pnpm, with or without a
    package.json; and a pnpm lockfile wins whatever else is present. *)
Theorem detectLanguage_total_priority :
  determineLanguage lib fs wd [] = detectLanguage lib fs wd /\
  (exists l, detectLanguage lib fs wd = Ok l) /\
  map ind_file orderedIndicators =
    [lit "pnpm-lock.yaml"; lit "yarn.lock"; lit "package-lock.json"; lit "go.mod";
     lit "Cargo.toml"] /\
  (forall i ind,
     nth_error orderedIndicators i = Some ind ->
     present lib fs wd (ind_file ind) ->
     (forall j ind', j < i -> nth_error orderedIndicators j = Some ind' ->
                     ~ present lib fs wd (ind_file ind')) ->
     detectLanguage lib fs wd = Ok (ind_lang ind)) /\
  ((forall ind, In ind orderedIndicators -> ~ present lib fs wd (ind_file ind)) ->
   detectLanguage lib fs wd = Ok langPNPM) /\
  (present lib fs wd (lit "pnpm-lock.yaml") ->
   detectLanguage lib fs wd = Ok langPNPM).
Proof.
  split; [reflexivity|]. split; [|split; [reflexivity|split; [|split]]].
  - unfold detectLanguage.
    destruct (detectLanguage_loop lib fs wd orderedIndicators); [eauto|].
    destruct (fileExists fs _); eauto.
  - intros i ind Hi Hp Hb. unfold detectLanguage.
    now rewrite (detectLanguage_loop_first orderedIndicators i ind Hi Hp Hb).
  - intros Hnone. unfold detectLanguage.
    rewrite (detectLanguage_loop_none orderedIndicators Hnone).
    now destruct (fileExists fs _).
  - intros Hp. unfold detectLanguage.
    rewrite (detectLanguage_loop_first orderedIndicators 0
               {| ind_lang := langPNPM; ind_file := lit "pnpm-lock.yaml" |}
               eq_refl Hp); [reflexivity|].
    intros j ind' Hj. lia.
Qed.

Lemma one_of_lookup (s : gostring) (cases : list gostring) (l : language)
  (table : list (gostring * language)) :
  lookup_alias (map (fun c => (c, l)) cases ++ table) s =
    if one_of s cases then Some l else lookup_alias table s.
Proof.
  unfold one_of. induction cases as [|c cases IH]; simpl; [reflexivity|].
  destruct (streq s c); [reflexivity | exact IH].
Qed.

(** The cascade of cases of [determineLanguage] is a lookup in the alias
    table. *)
Lemma determineLanguage_lookup (requested : gostring) :
  normalize lib requested <> [] ->
  determineLanguage lib fs wd requested =
    match lookup_alias alias_table (normalize lib requested) with
    | Some l => Ok l
    | None => Err (unsupported lib (normalize lib requested))
    end.
Proof.
  intros Hne. unfold determineLanguage. fold (normalize lib requested).
  set (r := normalize lib requested) in *.
  destruct (streq r []) eqn:He; [apply streq_eq in He; congruence|].
  change alias_table with
    (map (fun c => (c, langNPM))
       [langNPM; lit "node"; lit "ts"; lit "typescript"; lit "javascript"; lit "nodejs"]
     ++ map (fun c => (c, langPNPM)) [langPNPM]
     ++ map (fun c => (c, langYarn)) [langYarn]
     ++ map (fun c => (c, langGo)) [langGo; lit "golang"]
     ++ map (fun c => (c, langRust)) [langRust; lit "cargo"] ++ []).
  rewrite !one_of_lookup.
  repeat match goal with |- context [one_of r ?cs] => destruct (one_of r cs) end;
    reflexivity.
Qed.

End BuildSelector.

Lemma normalize_spaces (lib : golib) (n : nat) : normalize lib (repeat space n) = [].
Proof.
  unfold normalize, ToLower. rewrite map_repeat.
  change (unicode_ToLower lib space) with space.
  assert (Hl : TrimLeftSpace (repeat space n) = []).
  { induction n as [|n IH]; [reflexivity | exact IH]. }
  unfold TrimSpace. now rewrite Hl.
Qed.

(** C9 (as amended).  For every explicit choice that is not empty once
    normalized (lower-cased, then trimmed of surrounding white space), the
    resolver looks the normal form up in the fixed alias table: the
    node-style aliases resolve to the tool of "npm", and a normal form
    outside the table fails with the unsupported-build-tool error.  A choice
    that is empty once normalized, as one made of spaces only, is treated
    as no choice: the resolver answers as it does for the empty choice, by
    detection, and does not fail. *)
Theorem determineLanguage_alias_table (lib : golib) (fs : filesystem)
  (wd requested : gostring) :
  (normalize lib requested <> [] ->
   (forall l, lookup_alias alias_table (normalize lib requested) = Some l ->
              determineLanguage lib fs wd requested = Ok l) /\
   (lookup_alias alias_table (normalize lib requested) = None ->
    determineLanguage lib fs wd requested = Err (unsupported lib (normalize lib requested))) /\
   (In (normalize lib requested)
       [lit "node"; lit "nodejs"; lit "ts"; lit "typescript"; lit "javascript"] ->
    determineLanguage lib fs wd requested = determineLanguage lib fs wd (lit "npm") /\
    determineLanguage lib fs wd requested = Ok langNPM)) /\
  (normalize lib requested = [] ->
   determineLanguage lib fs wd requested = determineLanguage lib fs wd [] /\
   determineLanguage lib fs wd requested = detectLanguage lib fs wd /\
   exists l, determineLanguage lib fs wd requested = Ok l) /\
  (forall n, normalize lib (repeat space n) = [] /\
             determineLanguage lib fs wd (repeat space n) = detectLanguage lib fs wd).
Proof.
  assert (Hblank : forall req, normalize lib req = [] ->
                     determineLanguage lib fs wd req = detectLanguage lib fs wd).
  { intros req Hn. unfold determineLanguage. fold (normalize lib req). now rewrite Hn. }
  split; [|split].
  - intros Hne. rewrite (determineLanguage_lookup lib fs wd requested Hne).
    split; [|split].
    + now intros l ->.
    + now intros ->.
    + intros Hin.
      assert (Hl : lookup_alias alias_table (normalize lib requested) = Some langNPM).
      { simpl in Hin. repeat destruct Hin as [<- | Hin]; try reflexivity. contradiction. }
      now rewrite Hl.
  - intros Hn. rewrite (Hblank requested Hn). split; [reflexivity|]. split; [reflexivity|].
    unfold detectLanguage.
    destruct (detectLanguage_loop lib fs wd orderedIndicators); [eauto|].
    destruct (fileExists fs _); eauto.
  - intros n. split; [apply normalize_spaces|]. apply Hblank, normalize_spaces.
Qed.

Lemma determineLanguage_alias_table_witness :
  determineLanguage sample_lib (files []) (lit "/w") (lit "  NodeJS ") = Ok langNPM /\
  determineLanguage sample_lib (files [lit "/w/go.mod"]) (lit "/w") (lit "   ")
    = detectLanguage sample_lib (files [lit "/w/go.mod"]) (lit "/w").
Proof.
  split.
  - assert (Hne : normalize sample_lib (lit "  NodeJS ") <> []) by (vm_compute; discriminate).
    destruct (determineLanguage_alias_table sample_lib (files []) (lit "/w") (lit "  NodeJS "))
      as (H & _).
    destruct (H Hne) as (H1 & _). apply H1. vm_compute. reflexivity.
  - assert (Hn : normalize sample_lib (lit "   ") = []) by (vm_compute; reflexivity).
    destruct (determineLanguage_alias_table sample_lib (files [lit "/w/go.mod"]) (lit "/w")
                (lit "   ")) as (_ & H & _).
    destruct (H Hn) as (_ & H2 & _). exact H2.
Defined.

(** C9 as stated fails: a non-empty choice made of white space only is
    normalized to the empty string, and the resolver detects instead of
    failing although the empty string is outside the table. *)
Lemma determineLanguage_blank_choice_detects :
  ~ (forall lib fs wd requested,
       requested <> [] ->
       lookup_alias alias_table (normalize lib requested) = None ->
       exists err, determineLanguage lib fs wd requested = Err err).
Proof.
  intros H.
  destruct (H sample_lib (files []) (lit "/w") (lit " ")) as [err Herr].
  - discriminate.
  - vm_compute. reflexivity.
  - vm_compute in Herr. discriminate.
Qed.

Lemma detectLanguage_total_priority_witness :
  detectLanguage sample_lib (files [lit "/w/package.json"; lit "/w/pnpm-lock.yaml"; lit "/w/go.mod"])
    (lit "/w") = Ok langPNPM.
Proof.
  destruct (detectLanguage_total_priority sample_lib
              (files [lit "/w/package.json"; lit "/w/pnpm-lock.yaml"; lit "/w/go.mod"])
              (lit "/w")) as (_ & _ & _ & _ & _ & H).
  apply H. vm_compute. reflexivity.
Defined.

(** ** Running tasks *)

Arguments lit : simpl never.
Arguments Split : simpl never.
Arguments TrimSpace : simpl never.

Section Running.

Variable e : env.

Lemma exec_bind {A B : Type} (t : task A) (f : A -> task B) (h : trace) :
  exec e (bind t f) h =
    match exec e t h with
    | (Returned a, h') => exec e (f a) h'
    | (Panicked, h') => (Panicked, h')
    | (Waiting, h') => (Waiting, h')
    end.
Proof.
  revert h; induction t as [a| |c k IH|c k IH|m k IH]; intros h; simpl; auto.
Qed.

(** A task run alone extends the history and never waits. *)
Lemma exec_extends {A : Type} (t : task A) (h : trace) :
  exists evs, snd (exec e t h) = h ++ evs /\ fst (exec e t h) <> Waiting.
Proof.
  revert h; induction t as [a| |c k IH|c k IH|m k IH]; intros h; simpl.
  - exists []. rewrite app_nil_r. split; [reflexivity | discriminate].
  - exists []. rewrite app_nil_r. split; [reflexivity | discriminate].
  - destruct (IH (streaming_result e h c) (h ++ [Streamed c (streaming_result e h c)]))
      as (evs & -> & Hw).
    eexists. rewrite <- app_assoc. split; [reflexivity | exact Hw].
  - destruct (IH (capture_result e h c)
                (h ++ [Captured c (fst (capture_result e h c)) (snd (capture_result e h c))]))
      as (evs & -> & Hw).
    eexists. rewrite <- app_assoc. split; [reflexivity | exact Hw].
  - destruct (IH (h ++ [Printed m])) as (evs & -> & Hw).
    eexists. rewrite <- app_assoc. split; [reflexivity | exact Hw].
Qed.

Lemma exec_no_panic {A : Type} (t : task A) (h : trace) :
  no_panic t -> exists a, fst (exec e t h) = Returned a.
Proof.
  revert h; induction t as [a| |c k IH|c k IH|m k IH]; intros h Hn; simpl in *.
  - now exists a.
  - contradiction.
  - apply IH, Hn.
  - apply IH, Hn.
  - apply IH, Hn.
Qed.

Lemma exec_sat {A : Type} (P : event -> Prop) (Q : A -> Prop) (t : task A) (h : trace) :
  task_sat P Q t ->
  exists evs, snd (exec e t h) = h ++ evs /\ Forall P evs /\
    (forall a, fst (exec e t h) = Returned a -> Q a).
Proof.
  revert h; induction t as [a| |c k IH|c k IH|m k IH]; intros h Hs; simpl in *.
  - exists []. rewrite app_nil_r. repeat split; [constructor|]. now intros a' [= <-].
  - exists []. rewrite app_nil_r. repeat split; [constructor | discriminate].
  - destruct (Hs (streaming_result e h c)) as [Hp Hk].
    destruct (IH _ (h ++ [Streamed c (streaming_result e h c)]) Hk) as (evs & -> & Hf & Hq).
    eexists. rewrite <- app_assoc. repeat split; [|exact Hq]. now constructor.
  - destruct (Hs (capture_result e h c)) as [Hp Hk].
    destruct (IH _ (h ++ [Captured c (fst (capture_result e h c)) (snd (capture_result e h c))]) Hk)
      as (evs & -> & Hf & Hq).
    eexists. rewrite <- app_assoc. repeat split; [|exact Hq]. now constructor.
  - destruct Hs as [Hp Hk].
    destruct (IH (h ++ [Printed m]) Hk) as (evs & -> & Hf & Hq).
    eexists. rewrite <- app_assoc. repeat split; [|exact Hq]. now constructor.
Qed.

Lemma task_sat_bind {A B : Type} (P : event -> Prop) (Q : A -> Prop) (R : B -> Prop)
  (t : task A) (f : A -> task B) :
  task_sat P Q t -> (forall a, Q a -> task_sat P R (f a)) -> task_sat P R (bind t f).
Proof.
  intros Ht Hf. induction t as [a| |c k IH|c k IH|m k IH]; simpl in *.
  - now apply Hf.
  - exact I.
  - intros r. destruct (Ht r). split; [assumption | now apply IH].
  - intros r. destruct (Ht r). split; [assumption | now apply IH].
  - destruct Ht. split; [assumption | now apply IH].
Qed.

Lemma no_panic_bind {A B : Type} (t : task A) (f : A -> task B) :
  no_panic t -> (forall a, no_panic (f a)) -> no_panic (bind t f).
Proof.
  intros Ht Hf. induction t as [a| |c k IH|c k IH|m k IH]; simpl in *; auto.
Qed.

End Running.

(** ** Retention *)

Lemma after_position_skipn {A : Type} (l : list A) (pos keep : Z) :
  after_position pos keep l = skipn (Z.to_nat (keep + 1 - pos)) l.
Proof.
  revert pos; induction l as [|x l IH]; intros pos; simpl.
  - now rewrite skipn_nil.
  - destruct (keep <? pos)%Z eqn:Hk.
    + apply Z.ltb_lt in Hk. rewrite IH.
      replace (Z.to_nat (keep + 1 - pos)) with 0 by lia.
      replace (Z.to_nat (keep + 1 - (pos + 1))) with 0 by lia. reflexivity.
    + apply Z.ltb_ge in Hk. rewrite IH.
      replace (Z.to_nat (keep + 1 - pos)) with (S (Z.to_nat (keep + 1 - (pos + 1)))) by lia.
      reflexivity.
Qed.

Lemma prune_skipn {A : Type} (l : list A) (keep : Z) :
  (0 <= keep)%Z ->
  prune l keep = skipn (Z.to_nat (Z.min keep (Z.of_nat (length l)))) l.
Proof.
  intros Hk. unfold prune. destruct (Z.of_nat (length l) <=? keep)%Z eqn:Hl.
  - apply Z.leb_le in Hl. rewrite Z.min_r by lia. rewrite Nat2Z.id.
    now rewrite skipn_all.
  - apply Z.leb_gt in Hl. rewrite Z.min_l by lia. rewrite after_position_skipn.
    f_equal. lia.
Qed.

Lemma prune_length {A : Type} (l : list A) (keep : Z) :
  (0 <= keep)%Z ->
  Z.of_nat (length (prune l keep)) = Z.max 0 (Z.of_nat (length l) - keep).
Proof.
  intros Hk. rewrite prune_skipn by assumption. rewrite length_skipn. lia.
Qed.

(** What the guard and the slice of the two deletion sites select. *)
Lemma slice_from_prune {A : Type} (l : list A) (keep : Z) :
  (0 <= keep)%Z ->
  (Z.of_nat (length l) <=? keep)%Z = false ->
  slice_from l keep = Some (prune l keep).
Proof.
  intros Hk Hl. unfold slice_from, prune. rewrite Hl. apply Z.leb_gt in Hl.
  destruct (keep <? 0)%Z eqn:H0; [apply Z.ltb_lt in H0; lia|].
  destruct (Z.of_nat (length l) <? keep)%Z eqn:H1; [apply Z.ltb_lt in H1; lia|].
  simpl. rewrite after_position_skipn. do 2 f_equal. lia.
Qed.

Lemma prune_short {A : Type} (l : list A) (keep : Z) :
  (Z.of_nat (length l) <=? keep)%Z = true -> prune l keep = [].
Proof. intros H. unfold prune. now rewrite H. Qed.

(** ** The deletion loops *)

Lemma revision_deletions_deleted (cfg : config) (rev : gostring) (err : option goerror)
  (m1 : gostring) (evs : trace) :
  revision_deletions (Printed m1 :: Streamed (delete_revision_command cfg rev) err :: evs)
  = (rev, err) :: revision_deletions evs.
Proof. reflexivity. Qed.

Lemma revision_deletions_printed (m : gostring) (evs : trace) :
  revision_deletions (Printed m :: evs) = revision_deletions evs.
Proof. reflexivity. Qed.

Lemma commands_deleted (cfg : config) (rev : gostring) (err : option goerror)
  (m1 : gostring) (evs : trace) :
  commands (Printed m1 :: Streamed (delete_revision_command cfg rev) err :: evs)
  = delete_revision_command cfg rev :: commands evs.
Proof. reflexivity. Qed.

Lemma exec_deleteRevisions (e : env) (cfg : config) (revs : list gostring) (h : trace) :
  exists r evs ok failure,
    exec e (deleteRevisions cfg revs) h = (Returned r, h ++ evs) /\
    revision_deletions evs = map (fun rev => (rev, None)) ok ++ failure /\
    commands evs = map (delete_revision_command cfg) (ok ++ map fst failure) /\
    ((failure = [] /\ r = None /\ revs = ok) \/
     (exists rev cause remaining,
        failure = [(rev, Some cause)] /\
        r = Some (Errorf_w (lit "delete revision " ++ rev ++ lit ": ") cause []) /\
        revs = ok ++ rev :: remaining)).
Proof.
  revert h; induction revs as [|rev rest IH]; intros h.
  - exists None, [], [], []. simpl. rewrite app_nil_r. repeat split. now left.
  - cbn. 
    change {| cmd_dir := workdir cfg; cmd_name := lit "gcloud";
              cmd_args := [lit "run"; lit "revisions"; lit "delete"; rev;
                           lit "--region=" ++ region cfg; lit "-q"] |}
      with (delete_revision_command cfg rev).
    set (m1 := lit "Deleting " ++ rev ++ lit "...").
    destruct (streaming_result e (h ++ [Printed m1]) (delete_revision_command cfg rev))
      as [err|] eqn:Herr.
    + exists (Some (Errorf_w (lit "delete revision " ++ rev ++ lit ": ") err [])),
        [Printed m1; Streamed (delete_revision_command cfg rev) (Some err)],
        [], [(rev, Some err)].
      split; [cbn; now rewrite <- app_assoc|]. split; [reflexivity|]. split; [reflexivity|].
      right. now exists rev, err, rest.
    + cbn. set (m2 := lit "Deleted " ++ rev ++ lit ".").
      destruct (IH (((h ++ [Printed m1]) ++ [Streamed (delete_revision_command cfg rev) None])
                    ++ [Printed m2]))
        as (r & evs & ok & failure & Hex & Hdel & Hcmd & Hcase).
      exists r,
        (Printed m1 :: Streamed (delete_revision_command cfg rev) None :: Printed m2 :: evs),
        (rev :: ok), failure.
      split; [rewrite Hex; now rewrite <- !app_assoc|].
      split; [rewrite revision_deletions_deleted, revision_deletions_printed, Hdel; reflexivity|].
      split; [rewrite commands_deleted; cbn [commands collect command_of]; fold (commands evs);
              rewrite Hcmd; reflexivity|].
      destruct Hcase as [(-> & -> & ->) | (rev' & cause & remaining & -> & -> & ->)].
      * now left.
      * right. now exists rev', cause, remaining.
Qed.

Lemma image_deletions_deleted (cfg : config) (ref : gostring) (err : option goerror)
  (m1 : gostring) (evs : trace) :
  image_deletions (Printed m1 :: Streamed (delete_image_command cfg ref) err :: evs)
  = (ref, err) :: image_deletions evs.
Proof. reflexivity. Qed.

Lemma image_deletions_printed (m : gostring) (evs : trace) :
  image_deletions (Printed m :: evs) = image_deletions evs.
Proof. reflexivity. Qed.

Lemma commands_image_deleted (cfg : config) (ref : gostring) (err : option goerror)
  (m1 : gostring) (evs : trace) :
  commands (Printed m1 :: Streamed (delete_image_command cfg ref) err :: evs)
  = delete_image_command cfg ref :: commands evs.
Proof. reflexivity. Qed.

(** The image references the cleanup loop deletes from a list of records:
    those of the records whose digest is not empty. *)
Lemma exec_deleteImages (e : env) (cfg : config) (repo : gostring) (tags : list tag)
  (h : trace) :
  exists r evs ok failure,
    exec e (deleteImages cfg repo tags) h = (Returned r, h ++ evs) /\
    image_deletions evs = map (fun ref => (ref, None)) ok ++ failure /\
    commands evs = map (delete_image_command cfg) (ok ++ map fst failure) /\
    ((failure = [] /\ r = None /\ image_refs repo tags = ok) \/
     (exists ref cause remaining,
        failure = [(ref, Some cause)] /\
        r = Some (Errorf_w (lit "delete image " ++ ref ++ lit ": ") cause []) /\
        image_refs repo tags = ok ++ ref :: remaining)).
Proof.
  revert h; induction tags as [|tg rest IH]; intros h.
  - exists None, [], [], []. simpl. rewrite app_nil_r. repeat split. now left.
  - unfold image_refs in *. cbn [deleteImages filter].
    destruct (streq (Digest tg) []) eqn:Hd.
    { assert (Hn : non_empty (Digest tg) = false) by (unfold non_empty; now rewrite Hd).
      rewrite Hn. apply IH. }
    assert (Hn : non_empty (Digest tg) = true) by (unfold non_empty; now rewrite Hd).
    rewrite Hn. cbn.
    set (ref := repo ++ lit "@" ++ Digest tg).
    change {| cmd_dir := workdir cfg; cmd_name := lit "gcloud";
              cmd_args := [lit "container"; lit "images"; lit "delete"; ref;
                           lit "--force-delete-tags"; lit "-q"] |}
      with (delete_image_command cfg ref).
    set (m1 := lit "Deleting " ++ ref ++ lit "...").
    destruct (streaming_result e (h ++ [Printed m1]) (delete_image_command cfg ref))
      as [err|] eqn:Herr.
    + exists (Some (Errorf_w (lit "delete image " ++ ref ++ lit ": ") err [])),
        [Printed m1; Streamed (delete_image_command cfg ref) (Some err)],
        [], [(ref, Some err)].
      split; [cbn; now rewrite <- app_assoc|]. split; [reflexivity|]. split; [reflexivity|].
      right. now exists ref, err, (image_refs repo rest).
    + cbn. set (m2 := lit "Deleted " ++ ref ++ lit ".").
      destruct (IH (((h ++ [Printed m1]) ++ [Streamed (delete_image_command cfg ref) None])
                    ++ [Printed m2]))
        as (r & evs & ok & failure & Hex & Hdel & Hcmd & Hcase).
      exists r,
        (Printed m1 :: Streamed (delete_image_command cfg ref) None :: Printed m2 :: evs),
        (ref :: ok), failure.
      split; [rewrite Hex; now rewrite <- !app_assoc|].
      split; [rewrite image_deletions_deleted, image_deletions_printed, Hdel; reflexivity|].
      split; [rewrite commands_image_deleted; cbn [commands collect command_of];
              fold (commands evs); rewrite Hcmd; reflexivity|].
      destruct Hcase as [(-> & -> & <-) | (ref' & cause & remaining & -> & -> & Hr)].
      * now left.
      * right. exists ref', cause, remaining. repeat split. fold ref. now rewrite Hr.
Qed.

(** ** What a service's task can do *)

Section TaskFacts.

Variable P : event -> Prop.
Variable cfg : config.
Hypothesis P_printed : forall m, P (Printed m).

Lemma deleteRevisions_sat (service : gostring) (revs : list gostring) :
  (forall rev err, P (Streamed (delete_revision_command cfg rev) err)) ->
  task_sat P (fails_as service) (deleteRevisions cfg revs).
Proof.
  intros Hdel. induction revs as [|rev rest IH]; cbn.
  - intros err [=].
  - split; [apply P_printed|]. intros r. split; [apply Hdel|].
    destruct r as [err|]; cbn.
    + intros err' [= <-]. constructor.
    + split; [apply P_printed | exact IH].
Qed.

Lemma deployService_sat (service image0 : gostring) :
  (forall out err, P (Captured (list_revisions_command cfg service) out err)) ->
  (forall err, P (Streamed (deploy_command cfg service image0) err)) ->
  (forall err, P (Streamed (update_traffic_command cfg service) err)) ->
  (forall rev err, P (Streamed (delete_revision_command cfg rev) err)) ->
  task_sat P (fails_as service) (deployService cfg service image0).
Proof.
  intros Hlist Hdeploy Htraffic Hdel. cbn.
  intros r. split; [apply Hlist|].
  destruct (snd r) as [err|]; cbn.
  - intros err' [= <-]. constructor.
  - intros r1. split; [apply Hdeploy|]. destruct r1 as [err|]; cbn.
    + intros err' [= <-]. constructor.
    + split; [apply P_printed|]. intros r2. split; [apply Htraffic|].
      destruct r2 as [err|]; cbn.
      * intros err' [= <-]. constructor.
      * split; [apply P_printed|].
        destruct (Z.of_nat (length (append_trimmed (Split (TrimSpace (fst r)) newline) []))
                  <=? keepRevs cfg)%Z.
        -- cbn. intros err [=].
        -- destruct (slice_from _ _); [|exact I]. now apply deleteRevisions_sat.
Qed.

Lemma deleteImages_sat (repo : gostring) (tags : list tag) :
  (forall ref err, P (Streamed (delete_image_command cfg ref) err)) ->
  task_sat P (fun _ => True) (deleteImages cfg repo tags).
Proof.
  intros Hdel. induction tags as [|tg rest IH]; cbn; [exact I|].
  destruct (streq (Digest tg) []); [exact IH|]. cbn.
  split; [apply P_printed|]. intros r. split; [apply Hdel|].
  destruct r as [err|]; cbn; [exact I|]. split; [apply P_printed | exact IH].
Qed.

Lemma cleanupOldImages_sat (lib : golib) :
  (forall out err, P (Captured (list_tags_command cfg) out err)) ->
  (forall ref err, P (Streamed (delete_image_command cfg ref) err)) ->
  task_sat P (fun _ => True) (cleanupOldImages lib cfg (image cfg)).
Proof.
  intros Hlist Hdel. cbn. intros r. split; [apply Hlist|].
  destruct (snd r) as [err|]; cbn; [exact I|].
  destruct (json_Unmarshal_tags lib (fst r)) as [tags|err]; cbn; [|exact I].
  destruct (Z.of_nat (length tags) <=? keepImgs cfg)%Z; [exact I|].
  destruct (slice_from tags (keepImgs cfg)); [|exact I]. now apply deleteImages_sat.
Qed.

End TaskFacts.

Lemma deleteRevisions_no_panic (cfg : config) (revs : list gostring) :
  no_panic (deleteRevisions cfg revs).
Proof.
  induction revs as [|rev rest IH]; cbn; [exact I|].
  intros [err|]; cbn; [exact I | exact IH].
Qed.

(** With a retention count that is not negative the task never panics. *)
Lemma deployService_no_panic (cfg : config) (service image0 : gostring) :
  (0 <= keepRevs cfg)%Z -> no_panic (deployService cfg service image0).
Proof.
  intros Hk. cbn. intros r. destruct (snd r); cbn; [exact I|].
  intros [err|]; cbn; [exact I|]. intros [err|]; cbn; [exact I|].
  destruct (Z.of_nat (length (append_trimmed (Split (TrimSpace (fst r)) newline) []))
            <=? keepRevs cfg)%Z eqn:Hl; [exact I|].
  rewrite (slice_from_prune _ _ Hk Hl). apply deleteRevisions_no_panic.
Qed.

(** ** Fan-out and join *)

Lemma set_nth_split {A : Type} (l : list A) (i : nat) (x : A) :
  nth_error l i = Some x ->
  exists l1 l2, l = l1 ++ x :: l2 /\ length l1 = i /\
    forall y, set_nth i y l = l1 ++ y :: l2.
Proof.
  revert i; induction l as [|z l IH]; intros i Hi.
  - now destruct i.
  - destruct i as [|i]; simpl in *.
    + injection Hi as ->. now exists [], l.
    + destruct (IH i Hi) as (l1 & l2 & -> & Hlen & Hset).
      exists (z :: l1), l2. simpl. rewrite Hlen. repeat split.
      intros y. now rewrite Hset.
Qed.

Lemma set_nth_length {A : Type} (l : list A) (i : nat) (y : A) :
  length (set_nth i y l) = length l.
Proof.
  revert i; induction l as [|z l IH]; intros [|i]; simpl; auto.
Qed.

Lemma nth_error_set_nth {A : Type} (l : list A) (i : nat) (x y : A) :
  nth_error l i = Some x -> nth_error (set_nth i y l) i = Some y.
Proof.
  revert i; induction l as [|z l IH]; intros [|i]; simpl; try discriminate; auto.
Qed.

Lemma set_nth_twice {A : Type} (l : list A) (i : nat) (y z : A) :
  set_nth i z (set_nth i y l) = set_nth i z l.
Proof.
  revert i; induction l as [|x l IH]; intros [|i]; simpl; auto. now rewrite IH.
Qed.

Lemma Forall2_set_nth {A B : Type} (R : A -> B -> Prop) (la : list A) (lb : list B)
  (i : nat) (a : A) (y : B) :
  Forall2 R la lb -> nth_error la i = Some a -> R a y -> Forall2 R la (set_nth i y lb).
Proof.
  intros H. revert i. induction H as [|a0 b0 la lb Hab H IH]; intros i Hi Hy.
  - now destruct i.
  - destruct i as [|i]; simpl in *.
    + injection Hi as ->. now constructor.
    + constructor; [assumption | now apply IH].
Qed.

Lemma Forall2_nth_error {A B : Type} (R : A -> B -> Prop) (la : list A) (lb : list B)
  (i : nat) (b : B) :
  Forall2 R la lb -> nth_error lb i = Some b ->
  exists a, nth_error la i = Some a /\ R a b.
Proof.
  intros H. revert i. induction H as [|a0 b0 la lb Hab H IH]; intros i Hi.
  - now destruct i.
  - destruct i as [|i]; simpl in *.
    + injection Hi as ->. now exists a0.
    + now apply IH.
Qed.

Lemma Forall_set_nth {A : Type} (R : A -> Prop) (l : list A) (i : nat) (y : A) :
  Forall R l -> R y -> Forall R (set_nth i y l).
Proof.
  intros H Hy. revert i. induction H as [|x l Hx H IH]; intros [|i]; simpl; auto.
Qed.

Section FanOut.

Variable e : env.
Variable P : event -> Prop.
Variable Q : gostring -> option goerror -> Prop.

Lemma turn_inv (ss : list gostring) (i : nat) (st st' : fanout) :
  fanout_inv P Q ss st -> turn e i st = Some st' ->
  fanout_inv P Q ss st' /\ exists evs, hist st' = hist st ++ evs /\ Forall P evs.
Proof.
  intros [Hsat Hperm]. unfold turn.
  destruct (nth_error (pool st) i) as [g|] eqn:Hi.
  2:{ intros [= <-]. split; [now split|]. exists []. now rewrite app_nil_r. }
  destruct g as [body|r].
  2:{ intros [= <-]. split; [now split|]. exists []. now rewrite app_nil_r. }
  destruct (Forall2_nth_error _ _ _ _ _ Hsat Hi) as (s & Hs & Hg). simpl in Hg.
  destruct (set_nth_split (pool st) i (Running body) Hi) as (l1 & l2 & Hl & _ & Hset).
  assert (Hrun : forall body', flat_map failure_of (set_nth i (Running body') (pool st))
                               = flat_map failure_of (pool st)).
  { intros body'. rewrite Hset, Hl, !flat_map_app. reflexivity. }
  destruct body as [r| |c k|c k|m k]; [| discriminate | | |]; intros [= <-];
    unfold fanout_inv; cbn [pool errs hist].
  - split; [split|].
    + eapply Forall2_set_nth; eauto.
    + rewrite Hset, flat_map_app. rewrite Hl, flat_map_app in Hperm. cbn in *.
      destruct r as [err|]; cbn; [|exact Hperm].
      etransitivity; [apply Permutation_app_comm|]. cbn.
      etransitivity; [|apply Permutation_middle]. now constructor.
    + exists []. now rewrite app_nil_r.
  - cbn in Hg. destruct (Hg (streaming_result e (hist st) c)) as [Hp Hk].
    split; [split|].
    + eapply Forall2_set_nth; eauto.
    + now rewrite Hrun.
    + eexists. split; [reflexivity|]. now constructor.
  - cbn in Hg. destruct (Hg (capture_result e (hist st) c)) as [Hp Hk].
    split; [split|].
    + eapply Forall2_set_nth; eauto.
    + now rewrite Hrun.
    + eexists. split; [reflexivity|]. now constructor.
  - cbn in Hg. destruct Hg as [Hp Hk].
    split; [split|].
    + eapply Forall2_set_nth; eauto.
    + now rewrite Hrun.
    + eexists. split; [reflexivity|]. now constructor.
Qed.

Lemma turns_inv (ss : list gostring) (sched : list nat) (st : fanout) :
  fanout_inv P Q ss st ->
  match turns e sched st with
  | inl st' => fanout_inv P Q ss st' /\ exists evs, hist st' = hist st ++ evs /\ Forall P evs
  | inr h' => exists evs, h' = hist st ++ evs /\ Forall P evs
  end.
Proof.
  revert st; induction sched as [|i sched IH]; intros st Hinv; cbn.
  - split; [assumption|]. exists []. now rewrite app_nil_r.
  - destruct (turn e i st) as [st1|] eqn:Ht.
    + destruct (turn_inv ss i st st1 Hinv Ht) as (Hinv1 & evs1 & Hh1 & Hp1).
      specialize (IH st1 Hinv1). destruct (turns e sched st1) as [st'|h'].
      * destruct IH as (Hinv' & evs & Hh & Hp). split; [assumption|].
        exists (evs1 ++ evs). rewrite Hh, Hh1, app_assoc. split; [reflexivity|].
        now apply Forall_app.
      * destruct IH as (evs & Hh & Hp).
        exists (evs1 ++ evs). rewrite Hh, Hh1, app_assoc. split; [reflexivity|].
        now apply Forall_app.
    + exists []. now rewrite app_nil_r.
Qed.

End FanOut.

Lemma turns_app (e : env) (s1 s2 : list nat) (st : fanout) :
  turns e (s1 ++ s2) st =
    match turns e s1 st with
    | inl st1 => turns e s2 st1
    | inr h => inr h
    end.
Proof.
  revert st; induction s1 as [|i s1 IH]; intros st; cbn; [reflexivity|].
  destruct (turn e i st); [apply IH | reflexivity].
Qed.

(** A goroutine that cannot panic takes its turn. *)
Lemma turn_no_panic (e : env) (i : nat) (st : fanout) :
  Forall goroutine_no_panic (pool st) ->
  exists st', turn e i st = Some st' /\ Forall goroutine_no_panic (pool st').
Proof.
  intros Hn. unfold turn. destruct (nth_error (pool st) i) as [g|] eqn:Hi; [|eauto].
  destruct g as [body|r]; [|eauto].
  assert (Hb : no_panic body).
  { apply nth_error_In in Hi. rewrite Forall_forall in Hn. apply (Hn _ Hi). }
  destruct body as [r| |c k|c k|m k]; cbn in Hb; [|contradiction| | |];
    eexists; (split; [reflexivity|]); cbn [pool]; apply Forall_set_nth; cbn; auto.
Qed.

Lemma turns_no_panic (e : env) (sched : list nat) (st : fanout) :
  Forall goroutine_no_panic (pool st) ->
  exists st', turns e sched st = inl st' /\ Forall goroutine_no_panic (pool st').
Proof.
  revert st; induction sched as [|i sched IH]; intros st Hn; cbn; [eauto|].
  destruct (turn_no_panic e i st Hn) as (st1 & -> & Hn1). now apply IH.
Qed.

(** Given enough turns, a goroutine that cannot panic finishes, and the
    others are left as they are. *)
Lemma goroutine_finishes (e : env) (i : nat) (body : task (option goerror)) (st : fanout) :
  nth_error (pool st) i = Some (Running body) -> no_panic body ->
  exists n st' r, turns e (repeat i n) st = inl st' /\
    pool st' = set_nth i (Finished r) (pool st).
Proof.
  revert st; induction body as [r| |c k IH|c k IH|m k IH]; intros st Hi Hn; cbn in Hn.
  - exists 1, {| pool := set_nth i (Finished r) (pool st);
                errs := match r with Some err => errs st ++ [err] | None => errs st end;
                hist := hist st |}, r.
    cbn. unfold turn. rewrite Hi. split; reflexivity.
  - contradiction.
  - set (r := streaming_result e (hist st) c).
    set (st1 := {| pool := set_nth i (Running (k r)) (pool st); errs := errs st;
                   hist := hist st ++ [Streamed c r] |}).
    destruct (IH r st1) as (n & st' & r' & Ht & Hp).
    { cbn. eapply nth_error_set_nth; eauto. }
    { apply Hn. }
    exists (S n), st', r'. cbn. unfold turn at 1. rewrite Hi. fold r. fold st1.
    split; [exact Ht|]. rewrite Hp. cbn. apply set_nth_twice.
  - set (r := capture_result e (hist st) c).
    set (st1 := {| pool := set_nth i (Running (k r)) (pool st); errs := errs st;
                   hist := hist st ++ [Captured c (fst r) (snd r)] |}).
    destruct (IH r st1) as (n & st' & r' & Ht & Hp).
    { cbn. eapply nth_error_set_nth; eauto. }
    { apply Hn. }
    exists (S n), st', r'. cbn. unfold turn at 1. rewrite Hi. fold r. fold st1.
    split; [exact Ht|]. rewrite Hp. cbn. apply set_nth_twice.
  - set (st1 := {| pool := set_nth i (Running k) (pool st); errs := errs st;
                   hist := hist st ++ [Printed m] |}).
    destruct (IH st1) as (n & st' & r' & Ht & Hp).
    { cbn. eapply nth_error_set_nth; eauto. }
    { apply Hn. }
    exists (S n), st', r'. cbn. unfold turn at 1. rewrite Hi. fold st1.
    split; [exact Ht|]. rewrite Hp. cbn. apply set_nth_twice.
Qed.

Lemma count_running_zero (gs : list goroutine) :
  count_running gs = 0 -> forallb is_finished gs = true.
Proof.
  induction gs as [|[body|r] gs IH]; cbn; [reflexivity | discriminate | exact IH].
Qed.

Lemma count_running_succ (gs : list goroutine) (n : nat) :
  count_running gs = S n ->
  exists i body, nth_error gs i = Some (Running body) /\
    forall r, count_running (set_nth i (Finished r) gs) = n.
Proof.
  induction gs as [|[body|r] gs IH]; cbn; [discriminate | |].
  - intros [= Hn]. exists 0, body. split; [reflexivity|]. intros r. exact Hn.
  - intros Hn. destruct (IH Hn) as (i & body & Hi & Hc).
    exists (S i), body. split; [exact Hi|]. intros r'. cbn. apply Hc.
Qed.

(** The wait ends: from any state whose goroutines cannot panic there is a
    schedule that lets all of them finish. *)
Lemma fanout_completes (e : env) (st : fanout) :
  Forall goroutine_no_panic (pool st) ->
  exists sched st', turns e sched st = inl st' /\ forallb is_finished (pool st') = true.
Proof.
  remember (count_running (pool st)) as n eqn:Hn. revert st Hn.
  induction n as [|n IH]; intros st Hn Hnp.
  - exists [], st. split; [reflexivity|]. now apply count_running_zero.
  - symmetry in Hn. destruct (count_running_succ _ _ Hn) as (i & body & Hi & Hc).
    assert (Hb : no_panic body).
    { apply nth_error_In in Hi. rewrite Forall_forall in Hnp. apply (Hnp _ Hi). }
    destruct (goroutine_finishes e i body st Hi Hb) as (k & st1 & r & Ht & Hp).
    destruct (IH st1) as (sched & st' & Ht' & Hf).
    { rewrite Hp. symmetry. apply Hc. }
    { rewrite Hp. apply Forall_set_nth; [assumption | exact I]. }
    exists (repeat i k ++ sched), st'. rewrite turns_app, Ht. now split.
Qed.

(** *** Draining the channel *)

Lemma Join_flat_map (m : gostring) (ms : list gostring) (sep : gostring) :
  Join (m :: ms) sep = m ++ flat_map (fun x => sep ++ x) ms.
Proof.
  revert m; induction ms as [|m' ms IH]; intros m.
  - cbn. now rewrite app_nil_r.
  - rewrite Join_cons by discriminate. rewrite IH. cbn. now rewrite <- app_assoc.
Qed.

Lemma drain_started (errors : list goerror) (buf : gostring) :
  buf <> [] ->
  drain errors buf = buf ++ flat_map (fun x => newline ++ x) (map Error errors).
Proof.
  revert buf; induction errors as [|err rest IH]; intros buf Hbuf; cbn [drain map flat_map].
  - now rewrite app_nil_r.
  - destruct buf as [|c buf]; [congruence|]. cbn [length Nat.ltb Nat.leb].
    rewrite IH by (destruct buf; discriminate).
    now rewrite <- !app_assoc.
Qed.

(** When no message is empty, the buffer ends up as the messages joined by
    newlines, and it is empty only when there was no error. *)
Lemma drain_join (errors : list goerror) :
  Forall (fun err => Error err <> []) errors ->
  drain errors [] = Join (map Error errors) newline /\
  (drain errors [] = [] <-> errors = []).
Proof.
  intros H. destruct H as [|err rest Herr Hrest]; [now split|].
  cbn [drain length Nat.ltb Nat.leb app map].
  rewrite drain_started by assumption. rewrite Join_flat_map. split; [reflexivity|].
  split; [|discriminate]. intros Hnil. apply app_eq_nil in Hnil as [Hnil _]. congruence.
Qed.

Lemma service_failure_message (service : gostring) (err : goerror) :
  service_failure service err -> Error err <> [].
Proof. intros []; discriminate. Qed.

Lemma Contains_occurrence (a s b : gostring) : Contains (a ++ s ++ b) s = true.
Proof.
  destruct (Contains (a ++ s ++ b) s) eqn:Hc; [reflexivity|].
  exfalso. now apply (Contains_false_no_occurrence _ _ a b Hc).
Qed.

Lemma finished_results (gs : list goroutine) :
  forallb is_finished gs = true ->
  exists results, gs = map Finished results /\ flat_map failure_of gs = failures results.
Proof.
  induction gs as [|[body|r] gs IH]; cbn; [now exists [] | discriminate |].
  intros H. destruct (IH H) as (results & -> & Hf). exists (r :: results).
  split; [reflexivity|]. unfold failures. cbn. fold (failures results).
  rewrite Hf. now destruct r.
Qed.

Lemma started_inv (P : event -> Prop) (cfg : config) (image0 : gostring) (h : trace) :
  (forall service, In service (services cfg) ->
                   task_sat P (fails_as service) (deployService cfg service image0)) ->
  fanout_inv P fails_as (services cfg) (started cfg image0 h).
Proof.
  intros H. split; cbn [started pool errs].
  - revert H. generalize (services cfg) as ss.
    induction ss as [|s ss IH]; intros Hsat; cbn [map]; constructor.
    + apply Hsat. now left.
    + apply IH. intros service Hin. apply Hsat. now right.
  - clear H. induction (services cfg) as [|s ss IH]; cbn [map flat_map failure_of app];
      [apply perm_nil | exact IH].
Qed.

Lemma started_no_panic (cfg : config) (image0 : gostring) (h : trace) :
  (0 <= keepRevs cfg)%Z -> Forall goroutine_no_panic (pool (started cfg image0 h)).
Proof.
  intros Hk. cbn. induction (services cfg) as [|s ss IH]; cbn; constructor; [|exact IH].
  now apply deployService_no_panic.
Qed.

Lemma deployServices_started (e : env) (sched : list nat) (cfg : config)
  (image0 : gostring) (h : trace) :
  deployServices e sched cfg image0 h =
    match turns e sched (started cfg image0 h) with
    | inr h' => (Panicked, h')
    | inl st =>
        if forallb is_finished (pool st) then
          if (0 <? length (drain (errs st) []))%nat
          then (Returned (Some (errors_New (drain (errs st) []))), hist st)
          else (Returned None, hist st)
        else (Waiting, hist st)
    end.
Proof. reflexivity. Qed.

(** The events of the fan-out satisfy whatever every task's events satisfy. *)
Lemma deployServices_sat (e : env) (P : event -> Prop) (sched : list nat) (cfg : config)
  (image0 : gostring) (h : trace) :
  (forall service, In service (services cfg) ->
                   task_sat P (fails_as service) (deployService cfg service image0)) ->
  exists evs, snd (deployServices e sched cfg image0 h) = h ++ evs /\ Forall P evs.
Proof.
  intros Hsat. rewrite deployServices_started.
  pose proof (turns_inv e P fails_as (services cfg) sched _ (started_inv P cfg image0 h Hsat)) as H.
  destruct (turns e sched (started cfg image0 h)) as [st|h'].
  - destruct H as (_ & evs & Hh & Hp). exists evs. split; [|exact Hp].
    destruct (forallb is_finished (pool st)); [|exact Hh].
    destruct (0 <? length (drain (errs st) []))%nat; exact Hh.
  - exact H.
Qed.

Lemma Forall2_finished (R : gostring -> option goerror -> Prop) (ss : list gostring)
  (results : list (option goerror)) :
  Forall2 (fun s g => goroutine_sat (fun _ => True) (R s) g) ss (map Finished results) ->
  Forall2 R ss results.
Proof.
  revert ss; induction results as [|r results IH]; intros ss H; inversion H; subst;
    constructor; auto.
Qed.

Lemma failures_service_failure (ss : list gostring) (results : list (option goerror)) :
  Forall2 fails_as ss results ->
  Forall (fun err => exists s, In s ss /\ service_failure s err) (failures results).
Proof.
  intros H. induction H as [|s r ss results Hr H IH]; [constructor|].
  unfold failures. cbn. fold (failures results). apply Forall_app. split.
  - destruct r as [err|]; constructor; [|constructor].
    exists s. split; [now left | now apply Hr].
  - eapply Forall_impl; [|exact IH]. intros err (s' & Hin & Hf). exists s'. split; [now right | exact Hf].
Qed.

Lemma length_zero_ltb (buf : gostring) : (0 <? length buf)%nat = false <-> buf = [].
Proof. destruct buf; cbn; split; congruence. Qed.

Lemma all_true_sat (cfg : config) (service image0 : gostring) :
  task_sat (fun _ => True) (fails_as service) (deployService cfg service image0).
Proof. apply deployService_sat; auto. Qed.

(** The join is reached: with a retention count that is not negative no
    goroutine panics, so every schedule can be continued into one under
    which every goroutine has finished and [deployServices] returns. *)
Lemma deployServices_returns (e : env) (cfg : config) (image0 : gostring) (h : trace) :
  (0 <= keepRevs cfg)%Z ->
  forall sched0, exists sched1 r tr,
    deployServices e (sched0 ++ sched1) cfg image0 h = (Returned r, tr).
Proof.
  intros Hk sched0.
  destruct (turns_no_panic e sched0 _ (started_no_panic cfg image0 h Hk)) as (st0 & Ht0 & Hn0).
  destruct (fanout_completes e st0 Hn0) as (sched1 & st & Ht & Hf).
  exists sched1. rewrite deployServices_started, turns_app, Ht0, Ht, Hf.
  destruct (0 <? length (drain (errs st) []))%nat; eauto.
Qed.

(** *** What the trace shows of each task's result *)

Lemma returns_after_mono {A : Type} (Q : trace -> A -> Prop) (t : task A) (b b' : trace) :
  grows Q -> incl b b' -> returns_after Q t b -> returns_after Q t b'.
Proof.
  intros Hg. revert b b'; induction t as [a| |c k IH|c k IH|m k IH]; intros b b' Hi Hr;
    cbn in *; auto.
  - now apply (Hg b).
  - intros r. apply (IH r (b ++ [Streamed c r])); [|apply Hr].
    now apply incl_app_app; [|apply incl_refl].
  - intros r. apply (IH r (b ++ [Captured c (fst r) (snd r)])); [|apply Hr].
    now apply incl_app_app; [|apply incl_refl].
  - apply (IH (b ++ [Printed m])); [|exact Hr]. now apply incl_app_app; [|apply incl_refl].
Qed.

Lemma turn_accounted (e : env) (Q : gostring -> trace -> option goerror -> Prop)
  (h0 : trace) (ss : list gostring) (i : nat) (st st' : fanout) :
  (forall s, grows (Q s)) ->
  fanout_accounted Q h0 ss st -> turn e i st = Some st' -> fanout_accounted Q h0 ss st'.
Proof.
  intros Hg (evs & Hh & Hf). unfold turn.
  destruct (nth_error (pool st) i) as [g|] eqn:Hi; [|intros [= <-]; now exists evs].
  destruct g as [body|r]; [|intros [= <-]; now exists evs].
  destruct (Forall2_nth_error _ _ _ _ _ Hf Hi) as (s & Hs & Hb). cbn in Hb.
  assert (Hstep : forall ev g',
            goroutine_returns_after (Q s) (evs ++ [ev]) g' ->
            fanout_accounted Q h0 ss {| pool := set_nth i g' (pool st); errs := errs st;
                                        hist := hist st ++ [ev] |}).
  { intros ev g' Hg'. exists (evs ++ [ev]). cbn [hist pool].
    split; [now rewrite Hh, app_assoc|].
    eapply Forall2_set_nth; [|exact Hs|exact Hg'].
    eapply Forall2_impl; [|exact Hf]. intros s0 [b|r0]; cbn.
    - apply returns_after_mono; [apply Hg | apply incl_appl, incl_refl].
    - apply Hg, incl_appl, incl_refl. }
  destruct body as [r| |c k|c k|m k]; [| discriminate | | |]; intros [= <-]; cbn in Hb.
  - exists evs. cbn [hist pool]. split; [exact Hh|].
    eapply Forall2_set_nth; [exact Hf | exact Hs | exact Hb].
  - apply Hstep, Hb.
  - apply Hstep, Hb.
  - apply Hstep, Hb.
Qed.

Lemma turns_accounted (e : env) (Q : gostring -> trace -> option goerror -> Prop)
  (h0 : trace) (ss : list gostring) (sched : list nat) (st st' : fanout) :
  (forall s, grows (Q s)) ->
  fanout_accounted Q h0 ss st -> turns e sched st = inl st' -> fanout_accounted Q h0 ss st'.
Proof.
  intros Hg. revert st; induction sched as [|i sched IH]; intros st Hinv; cbn.
  - now intros [= <-].
  - destruct (turn e i st) as [st1|] eqn:Ht; [|discriminate].
    apply IH. eapply turn_accounted; eauto.
Qed.

Lemma started_accounted (Q : gostring -> trace -> option goerror -> Prop) (cfg : config)
  (image0 : gostring) (h : trace) :
  (forall s, returns_after (Q s) (deployService cfg s image0) []) ->
  fanout_accounted Q h (services cfg) (started cfg image0 h).
Proof.
  intros H. exists []. cbn [started hist pool]. split; [now rewrite app_nil_r|].
  induction (services cfg) as [|s ss IH]; cbn [map]; constructor; [apply H | exact IH].
Qed.

Lemma grows_task_account (cfg : config) (service image0 : gostring) :
  grows (task_account cfg service image0).
Proof.
  intros b b' r Hi [Hdone Hfail]. split.
  - destruct Hdone as [(out & cause & Hin) | (derr & Hin)]; [left | right]; eauto.
  - intros err Hr.
    destruct (Hfail err Hr)
      as [(out & cause & Hin & ->) | [(cause & Hin & ->) | [(cause & Hin & ->) |
          (revision & cause & Hin & ->)]]].
    + left. eauto.
    + right; left. eauto.
    + right; right; left. eauto.
    + right; right; right. eauto.
Qed.

Lemma deleteRevisions_account (cfg : config) (service image0 : gostring)
  (revs : list gostring) (before : trace) :
  (exists derr, In (Streamed (deploy_command cfg service image0) derr) before) ->
  returns_after (task_account cfg service image0) (deleteRevisions cfg revs) before.
Proof.
  revert before; induction revs as [|rev rest IH]; intros before Hdep.
  - cbn. split; [now right | discriminate].
  - cbn. intros [err|]; cbn.
    + split.
      * right. destruct Hdep as (derr & Hin). exists derr. apply in_or_app. left.
        apply in_or_app. now left.
      * intros err0 [= <-]. right; right; right. exists rev, err. split; [|reflexivity].
        apply in_or_app. right. now left.
    + apply IH. destruct Hdep as (derr & Hin). exists derr.
      apply in_or_app. left. apply in_or_app. left. apply in_or_app. now left.
Qed.

Lemma deployService_account (cfg : config) (service image0 : gostring) :
  returns_after (task_account cfg service image0) (deployService cfg service image0) [].
Proof.
  unfold deployService, listRevisions, runCommandCapture, runCommandStreaming, logStep.
  cbn [bind returns_after app].
  intros [out [lerr|]]; cbn [fst snd bind returns_after].
  { split.
    - left. exists out, lerr. now left.
    - intros err [= <-]. left. exists out, lerr. split; [now left | reflexivity]. }
  intros [derr|]; cbn [bind returns_after app].
  { split.
    - right. exists (Some derr). right. now left.
    - intros err [= <-]. right; left. exists derr. split; [right; now left | reflexivity]. }
  intros [terr|]; cbn [bind returns_after app].
  { split.
    - right. exists None. right. now left.
    - intros err [= <-]. right; right; left. exists terr.
      split; [do 3 right; now left | reflexivity]. }
  assert (Hdep : exists derr,
            In (Streamed (deploy_command cfg service image0) derr)
               [Captured (list_revisions_command cfg service) out None;
                Streamed (deploy_command cfg service image0) None;
                Printed (lit "Migrating " ++ service ++ lit "...");
                Streamed (update_traffic_command cfg service) None;
                Printed (lit "Deployed " ++ service ++ lit ".")]).
  { exists None. right. now left. }
  destruct (Z.of_nat (length _) <=? keepRevs cfg)%Z eqn:Hlen.
  - cbn. split; [now right | discriminate].
  - destruct (slice_from _ _); [now apply deleteRevisions_account | exact I].
Qed.

Lemma Forall2_accounted (Q : gostring -> trace -> option goerror -> Prop) (evs : trace)
  (ss : list gostring) (results : list (option goerror)) :
  Forall2 (fun s g => goroutine_returns_after (Q s) evs g) ss (map Finished results) ->
  Forall2 (fun s r => Q s evs r) ss results.
Proof.
  revert ss; induction results as [|r results IH]; intros ss H; inversion H; subst;
    constructor; auto.
Qed.

Lemma Contains_message (before s after cause : gostring) :
  Contains ((before ++ s ++ after) ++ cause ++ []) s = true.
Proof. rewrite <- !app_assoc. apply Contains_occurrence. Qed.

(** C3 (as amended).  The deploy step returns only when every goroutine
    has finished, whatever the others did, and a schedule that lets it
    return always exists; when it returns, each service's task has its
    result, the channel holds exactly the errors of the tasks that failed,
    the step succeeds if and only if no task failed, and otherwise it fails
    with the failing tasks' messages joined by newlines, one per failing
    task.  The error of a failing task is the failure of a command of the
    fan-out: of the listing, the deploy or the traffic migration of its
    service, and then its message contains the service's name, or of the
    deletion of a revision, and then its message names the revision
    instead. *)
Theorem deployServices_join (e : env) (cfg : config) (image0 : gostring) (h : trace) :
  ((0 <= keepRevs cfg)%Z ->
   forall sched0, exists sched1 r tr,
     deployServices e (sched0 ++ sched1) cfg image0 h = (Returned r, tr)) /\
  (forall sched r tr,
     deployServices e sched cfg image0 h = (Returned r, tr) ->
     exists st results evs,
       turns e sched (started cfg image0 h) = inl st /\
       pool st = map Finished results /\
       hist st = tr /\
       tr = h ++ evs /\
       length results = length (services cfg) /\
       Forall2 fails_as (services cfg) results /\
       Permutation (errs st) (failures results) /\
       (r = None <-> failures results = []) /\
       (failures results <> [] ->
        r = Some (errors_New (Join (map Error (errs st)) newline))) /\
       Forall2 (fun s res => forall err, res = Some err ->
                  (exists out cause,
                     In (Captured (list_revisions_command cfg s) out (Some cause)) evs /\
                     err = Errorf_w (lit "list revisions for " ++ s ++ lit ": ") cause [] /\
                     names_service s err) \/
                  (exists cause,
                     In (Streamed (deploy_command cfg s image0) (Some cause)) evs /\
                     err = Errorf_w (lit "deploy service " ++ s ++ lit ": ") cause [] /\
                     names_service s err) \/
                  (exists cause,
                     In (Streamed (update_traffic_command cfg s) (Some cause)) evs /\
                     err = Errorf_w (lit "update traffic for " ++ s ++ lit ": ") cause [] /\
                     names_service s err) \/
                  (exists revision cause,
                     In (Streamed (delete_revision_command cfg revision) (Some cause)) evs /\
                     err = Errorf_w (lit "delete revision " ++ revision ++ lit ": ") cause [] /\
                     Contains (Error err) revision = true))
               (services cfg) results).
Proof.
  split.
  - apply deployServices_returns.
  - intros sched r tr. rewrite deployServices_started.
    pose proof (turns_inv e (fun _ => True) fails_as (services cfg) sched _
                  (started_inv _ cfg image0 h (fun s _ => all_true_sat cfg s image0))) as Hinv.
    pose proof (turns_accounted e (fun s => task_account cfg s image0) h (services cfg) sched
                  (started cfg image0 h)) as Hacc.
    destruct (turns e sched (started cfg image0 h)) as [st|h'] eqn:Hturns; [|discriminate].
    destruct (Hacc st (fun s => grows_task_account cfg s image0)
                (started_accounted _ cfg image0 h
                   (fun s => deployService_account cfg s image0)) eq_refl)
      as (evs & Hevs & Hq).
    clear Hacc.
    destruct Hinv as ((Hsat & Hperm) & _).
    destruct (forallb is_finished (pool st)) eqn:Hfin; [|discriminate].
    destruct (finished_results _ Hfin) as (results & Hpool & Hfail).
    rewrite Hpool in Hsat, Hq. apply Forall2_finished in Hsat. apply Forall2_accounted in Hq.
    rewrite Hfail in Hperm.
    pose proof (failures_service_failure _ _ Hsat) as Hsf.
    assert (Hmsg : Forall (fun err => Error err <> []) (errs st)).
    { rewrite Forall_forall in *. intros err Hin.
      destruct (Hsf err) as (s & _ & Hs); [eapply Permutation_in; eauto|].
      eapply service_failure_message; eauto. }
    destruct (drain_join _ Hmsg) as [Hjoin Hnil].
    intros Hres. exists st, results, evs.
    assert (Hret : hist st = tr /\ (r = None <-> failures results = []) /\
                   (failures results <> [] ->
                    r = Some (errors_New (Join (map Error (errs st)) newline)))).
    { destruct (0 <? length (drain (errs st) []))%nat eqn:Hlen.
      - injection Hres as <- <-. split; [reflexivity|].
        assert (Hne : errs st <> []).
        { intros Hn. apply Hnil in Hn. rewrite Hn in Hlen. discriminate. }
        split; [split; [discriminate|]|].
        + intros Hn. rewrite Hn in Hperm. apply Permutation_sym, Permutation_nil in Hperm.
          contradiction.
        + intros _. now rewrite Hjoin.
      - injection Hres as <- <-. split; [reflexivity|].
        apply length_zero_ltb, Hnil in Hlen. rewrite Hlen in Hperm.
        apply Permutation_nil in Hperm.
        split; [now split | congruence]. }
    destruct Hret as (Hh & Hiff & Hsome).
    split; [reflexivity|]. split; [exact Hpool|]. split; [exact Hh|].
    split; [now rewrite <- Hh|].
    split; [symmetry; eapply Forall2_length; eauto|].
    split; [exact Hsat|]. split; [exact Hperm|]. split; [exact Hiff|]. split; [exact Hsome|].
    eapply Forall2_impl; [|exact Hq]. intros s res [_ Hf] err Hr.
    unfold names_service.
    destruct (Hf err Hr)
      as [(out & cause & Hin & ->) | [(cause & Hin & ->) | [(cause & Hin & ->) |
          (revision & cause & Hin & ->)]]].
    + left. exists out, cause. repeat split; [exact Hin|]. apply Contains_message.
    + right; left. exists cause. repeat split; [exact Hin|]. apply Contains_message.
    + right; right; left. exists cause. repeat split; [exact Hin|]. apply Contains_message.
    + right; right; right. exists revision, cause. repeat split; [exact Hin|].
      apply Contains_message.
Qed.

(** The cleanup pass: the listing, then the deletions of the references of
    the records beyond the first [keepImgs], stopped by the first failure. *)
Lemma cleanupOldImages_exec (e : env) (lib : golib) (cfg : config) (h : trace) :
  (0 <= keepImgs cfg)%Z ->
  let c_list := list_tags_command cfg in
  let listing := capture_result e h c_list in
  exists r evs,
    exec e (cleanupOldImages lib cfg (image cfg)) h =
      (Returned r, h ++ Captured c_list (fst listing) (snd listing) :: evs) /\
    (forall err, snd listing = Some err ->
       evs = [] /\ r = Some (Errorf_w (lit "list image tags: ") err (newline ++ fst listing))) /\
    (forall err, snd listing = None -> json_Unmarshal_tags lib (fst listing) = Err err ->
       evs = [] /\ r = Some (Errorf_w (lit "parse image tags json: ") err [])) /\
    (forall tags, snd listing = None -> json_Unmarshal_tags lib (fst listing) = Ok tags ->
       let refs := image_refs (imageRepo cfg) (prune tags (keepImgs cfg)) in
       exists ok failure,
         image_deletions evs = map (fun ref => (ref, None)) ok ++ failure /\
         commands evs = map (delete_image_command cfg) (ok ++ map fst failure) /\
         ((failure = [] /\ r = None /\ refs = ok) \/
          (exists ref cause remaining,
             failure = [(ref, Some cause)] /\
             r = Some (Errorf_w (lit "delete image " ++ ref ++ lit ": ") cause []) /\
             refs = ok ++ ref :: remaining))).
Proof.
  intros Hk c_list listing. cbn.
  change (registryHost cfg ++ lit "/" ++ project cfg ++ lit "/" ++ image cfg)
    with (imageRepo cfg).
  change {| cmd_dir := workdir cfg; cmd_name := lit "gcloud";
            cmd_args := [lit "container"; lit "images"; lit "list-tags"; imageRepo cfg;
                         lit "--format=json"] |} with c_list.
  fold listing.
  set (h1 := h ++ [Captured c_list (fst listing) (snd listing)]).
  assert (Hh1 : forall evs, h1 ++ evs = h ++ Captured c_list (fst listing) (snd listing) :: evs).
  { intros evs. unfold h1. now rewrite <- app_assoc. }
  destruct (snd listing) as [lerr|] eqn:Hl; cbn.
  { do 2 eexists. rewrite <- Hh1, app_nil_r. split; [reflexivity|].
    split; [|split]; try discriminate. intros err [= <-]. now split. }
  destruct (json_Unmarshal_tags lib (fst listing)) as [tags|jerr] eqn:Hj; cbn.
  2:{ do 2 eexists. rewrite <- Hh1, app_nil_r. split; [reflexivity|].
      split; [|split]; try discriminate. intros err _ [= <-]. now split. }
  destruct (Z.of_nat (length tags) <=? keepImgs cfg)%Z eqn:Hlen.
  { exists None, []. cbn [exec]. rewrite <- Hh1, app_nil_r. split; [reflexivity|].
    split; [|split]; try discriminate. intros tags' _ [= <-]. cbv zeta.
    rewrite (prune_short _ _ Hlen). exists [], []. repeat split. now left. }
  rewrite (slice_from_prune _ _ Hk Hlen).
  destruct (exec_deleteImages e cfg (imageRepo cfg) (prune tags (keepImgs cfg)) h1)
    as (r & evs & ok & failure & Hex & Hdel & Hcmd & Hcase).
  exists r, evs. rewrite Hex, Hh1. split; [reflexivity|].
  split; [|split]; try discriminate. intros tags' _ [= <-]. cbv zeta.
  exists ok, failure. auto.
Qed.

(** ** Retention at the two deletion sites *)

Lemma prune_skipn_keep {A : Type} (l : list A) (keep : Z) :
  (0 <= keep)%Z -> prune l keep = skipn (Z.to_nat keep) l.
Proof.
  intros Hk. rewrite prune_skipn by assumption.
  destruct (Z.le_gt_cases keep (Z.of_nat (length l))) as [Hle|Hgt].
  - now rewrite Z.min_l by lia.
  - rewrite Z.min_r by lia. rewrite Nat2Z.id, skipn_all. symmetry. apply skipn_all2. lia.
Qed.

(** The stages of a service's task: it returns at the first command that
    fails; when the listing, the deploy and the traffic migration succeed
    it goes on with the deletion loop over the snapshot without its first
    [keepRevs] entries. *)
Lemma deployService_stages (e : env) (cfg : config) (service image0 : gostring) (h : trace) :
  (0 <= keepRevs cfg)%Z ->
  let c_list := list_revisions_command cfg service in
  let c_dep := deploy_command cfg service image0 in
  let c_tra := update_traffic_command cfg service in
  let listing := capture_result e h c_list in
  let snapshot := parse_revisions (fst listing) in
  let h1 := h ++ [Captured c_list (fst listing) (snd listing)] in
  let dep := streaming_result e h1 c_dep in
  let h3 := h1 ++ [Streamed c_dep dep; Printed (lit "Migrating " ++ service ++ lit "...")] in
  let tra := streaming_result e h3 c_tra in
  let h5 := h3 ++ [Streamed c_tra tra; Printed (lit "Deployed " ++ service ++ lit ".")] in
  exec e (deployService cfg service image0) h =
    match snd listing with
    | Some err =>
        (Returned (Some (Errorf_w (lit "list revisions for " ++ service ++ lit ": ") err [])), h1)
    | None =>
        match dep with
        | Some err =>
            (Returned (Some (Errorf_w (lit "deploy service " ++ service ++ lit ": ") err [])),
             h1 ++ [Streamed c_dep dep])
        | None =>
            match tra with
            | Some err =>
                (Returned (Some (Errorf_w (lit "update traffic for " ++ service ++ lit ": ")
                                   err [])),
                 h3 ++ [Streamed c_tra tra])
            | None =>
                exec e (deleteRevisions cfg (skipn (Z.to_nat (keepRevs cfg)) snapshot)) h5
            end
        end
    end.
Proof.
  intros Hk c_list c_dep c_tra listing snapshot h1 dep h3 tra h5.
  unfold deployService, listRevisions, runCommandCapture, runCommandStreaming, logStep.
  cbn [bind exec].
  change {| cmd_dir := workdir cfg; cmd_name := lit "gcloud";
            cmd_args := [lit "run"; lit "revisions"; lit "list";
                         lit "--region=" ++ region cfg; lit "--service=" ++ service;
                         lit "--format=value(metadata.name)"] |} with c_list.
  fold listing. fold h1.
  destruct (snd listing) as [lerr|] eqn:Hl; cbn [bind exec]; [reflexivity|].
  change (append_trimmed (Split (TrimSpace (fst listing)) newline) []) with snapshot.
  change {| cmd_dir := workdir cfg; cmd_name := lit "gcloud";
            cmd_args := [lit "run"; lit "deploy"; service; lit "--image=" ++ image0;
                         lit "--platform=managed"; lit "--region=" ++ region cfg;
                         lit "--project=" ++ project cfg] |} with c_dep.
  change {| cmd_dir := workdir cfg; cmd_name := lit "gcloud";
            cmd_args := [lit "run"; lit "services"; lit "update-traffic"; service;
                         lit "--to-latest"; lit "--region=" ++ region cfg] |} with c_tra.
  fold dep.
  destruct dep as [derr|] eqn:Hd; cbn [bind exec]; [reflexivity|].
  replace ((h1 ++ [Streamed c_dep None]) ++ [Printed (lit "Migrating " ++ service ++ lit "...")])
    with h3 by (unfold h3; now rewrite <- app_assoc).
  fold tra.
  destruct tra as [terr|] eqn:Ht; cbn [bind exec]; [reflexivity|].
  replace ((h3 ++ [Streamed c_tra None]) ++ [Printed (lit "Deployed " ++ service ++ lit ".")])
    with h5 by (unfold h5; now rewrite <- app_assoc).
  destruct (Z.of_nat (length snapshot) <=? keepRevs cfg)%Z eqn:Hlen.
  - rewrite skipn_all2 by (apply Z.leb_le in Hlen; lia). reflexivity.
  - rewrite (slice_from_prune _ _ Hk Hlen), (prune_skipn_keep _ _ Hk). reflexivity.
Qed.

(** The stages of the cleanup pass. *)
Lemma cleanupOldImages_stages (e : env) (lib : golib) (cfg : config) (h : trace) :
  (0 <= keepImgs cfg)%Z ->
  let c_list := list_tags_command cfg in
  let listing := capture_result e h c_list in
  let h1 := h ++ [Captured c_list (fst listing) (snd listing)] in
  exec e (cleanupOldImages lib cfg (image cfg)) h =
    match snd listing with
    | Some err =>
        (Returned (Some (Errorf_w (lit "list image tags: ") err (newline ++ fst listing))), h1)
    | None =>
        match json_Unmarshal_tags lib (fst listing) with
        | Err err => (Returned (Some (Errorf_w (lit "parse image tags json: ") err [])), h1)
        | Ok tags =>
            exec e (deleteImages cfg (imageRepo cfg) (skipn (Z.to_nat (keepImgs cfg)) tags)) h1
        end
    end.
Proof.
  intros Hk c_list listing h1.
  unfold cleanupOldImages, runCommandCapture. cbn [bind exec].
  change (registryHost cfg ++ lit "/" ++ project cfg ++ lit "/" ++ image cfg)
    with (imageRepo cfg).
  change {| cmd_dir := workdir cfg; cmd_name := lit "gcloud";
            cmd_args := [lit "container"; lit "images"; lit "list-tags"; imageRepo cfg;
                         lit "--format=json"] |} with c_list.
  fold listing. fold h1.
  destruct (snd listing) as [lerr|] eqn:Hl; cbn [bind exec]; [reflexivity|].
  destruct (json_Unmarshal_tags lib (fst listing)) as [tags|jerr] eqn:Hj; cbn [bind exec];
    [|reflexivity].
  destruct (Z.of_nat (length tags) <=? keepImgs cfg)%Z eqn:Hlen.
  - rewrite skipn_all2 by (apply Z.leb_le in Hlen; lia). reflexivity.
  - rewrite (slice_from_prune _ _ Hk Hlen), (prune_skipn_keep _ _ Hk). reflexivity.
Qed.

(** The selection of the retention pruner, as the guard and the slice of
    the two deletion sites compute it. *)
Lemma skipn_min_keep {A : Type} (l : list A) (keep : Z) :
  (0 <= keep)%Z ->
  skipn (Z.to_nat (Z.min keep (Z.of_nat (length l)))) l = skipn (Z.to_nat keep) l /\
  Z.of_nat (length (skipn (Z.to_nat keep) l)) = Z.max 0 (Z.of_nat (length l) - keep) /\
  ((Z.of_nat (length l) <= keep)%Z -> skipn (Z.to_nat keep) l = []).
Proof.
  intros Hk. rewrite <- (prune_skipn l keep Hk), <- (prune_skipn_keep l keep Hk).
  split; [reflexivity|]. split; [now apply prune_length|].
  intros Hle. apply prune_short. now apply Z.leb_le.
Qed.

(** C2. The retention pruner selects, from an ordered list [L] and a
    threshold [k >= 0], [max(0, len(L) - k)] entries: [L] without its first
    [min(k, len(L))] entries, in order, and nothing when [len(L) <= k].
    Both deletion sites delete this selection.  A service's task whose
    listing, deploy and traffic migration succeed then deletes the selected
    revisions one by one in order, and either deletes them all and returns
    no error, or stops at the first deletion that fails and returns its
    error.  The cleanup pass whose listing succeeds and parses does the same
    with the images of the selected tag records that have a digest.  When
    nothing is selected neither site does anything more. *)
Theorem retention_prune (e : env) (lib : golib) (cfg : config)
  (service image0 : gostring) (h : trace) :
  (0 <= keepRevs cfg)%Z -> (0 <= keepImgs cfg)%Z ->
  (let c_list := list_revisions_command cfg service in
   let c_dep := deploy_command cfg service image0 in
   let c_tra := update_traffic_command cfg service in
   let listing := capture_result e h c_list in
   let L := parse_revisions (fst listing) in
   let k := keepRevs cfg in
   let selected := skipn (Z.to_nat (Z.min k (Z.of_nat (length L)))) L in
   let h1 := h ++ [Captured c_list (fst listing) None] in
   let h3 := h1 ++ [Streamed c_dep None; Printed (lit "Migrating " ++ service ++ lit "...")] in
   let h5 := h3 ++ [Streamed c_tra None; Printed (lit "Deployed " ++ service ++ lit ".")] in
   snd listing = None ->
   streaming_result e h1 c_dep = None ->
   streaming_result e h3 c_tra = None ->
   Z.of_nat (length selected) = Z.max 0 (Z.of_nat (length L) - k) /\
   ((Z.of_nat (length L) <= k)%Z -> selected = []) /\
   selected = prune L k /\
   exists r evs ok failure,
     exec e (deployService cfg service image0) h = (Returned r, h5 ++ evs) /\
     commands evs = map (delete_revision_command cfg) (ok ++ map fst failure) /\
     revision_deletions evs = map (fun rev => (rev, None)) ok ++ failure /\
     ((failure = [] /\ r = None /\ selected = ok) \/
      (exists rev cause remaining,
         failure = [(rev, Some cause)] /\
         r = Some (Errorf_w (lit "delete revision " ++ rev ++ lit ": ") cause []) /\
         selected = ok ++ rev :: remaining)) /\
     (selected = [] -> evs = [] /\ r = None)) /\
  (let c_list := list_tags_command cfg in
   let listing := capture_result e h c_list in
   forall tags,
     let k := keepImgs cfg in
     let selected := skipn (Z.to_nat (Z.min k (Z.of_nat (length tags)))) tags in
     let refs := image_refs (imageRepo cfg) selected in
     snd listing = None -> json_Unmarshal_tags lib (fst listing) = Ok tags ->
     Z.of_nat (length selected) = Z.max 0 (Z.of_nat (length tags) - k) /\
     ((Z.of_nat (length tags) <= k)%Z -> selected = []) /\
     selected = prune tags k /\
     exists r evs ok failure,
       exec e (cleanupOldImages lib cfg (image cfg)) h =
         (Returned r, h ++ Captured c_list (fst listing) None :: evs) /\
       commands evs = map (delete_image_command cfg) (ok ++ map fst failure) /\
       image_deletions evs = map (fun ref => (ref, None)) ok ++ failure /\
       ((failure = [] /\ r = None /\ refs = ok) \/
        (exists ref cause remaining,
           failure = [(ref, Some cause)] /\
           r = Some (Errorf_w (lit "delete image " ++ ref ++ lit ": ") cause []) /\
           refs = ok ++ ref :: remaining)) /\
       (selected = [] -> evs = [] /\ r = None)) /\
  (forall (A : Type) (L : list A) (k : Z),
     (0 <= k)%Z ->
     Z.of_nat (length (prune L k)) = Z.max 0 (Z.of_nat (length L) - k) /\
     prune L k = skipn (Z.to_nat (Z.min k (Z.of_nat (length L)))) L /\
     ((Z.of_nat (length L) <= k)%Z -> prune L k = [])).
Proof.
  intros Hkr Hki. split; [|split].
  - cbv zeta. intros Hl Hd Ht.
    set (L := parse_revisions (fst (capture_result e h (list_revisions_command cfg service)))).
    destruct (skipn_min_keep L (keepRevs cfg) Hkr) as (Hsel & Hlen & Hshort).
    rewrite Hsel. split; [exact Hlen|]. split; [exact Hshort|].
    split; [symmetry; now apply prune_skipn_keep|].
    pose proof (deployService_stages e cfg service image0 h Hkr) as Heq. cbv zeta in Heq.
    rewrite Hl in Heq. rewrite Hd in Heq. rewrite Ht in Heq. fold L in Heq.
    rewrite Heq.
    match goal with
    | |- context [exec e (deleteRevisions cfg ?revs) ?h5] =>
        remember h5 as H5 eqn:HH5;
        destruct (exec_deleteRevisions e cfg revs H5)
          as (r & evs & ok & failure & Hex & Hdel & Hcmd & Hcase)
    end.
    exists r, evs, ok, failure.
    split; [exact Hex|]. split; [exact Hcmd|]. split; [exact Hdel|]. split; [exact Hcase|].
    intros Hnil. rewrite Hnil in Hex. cbn [deleteRevisions exec] in Hex.
    rewrite <- (app_nil_r H5) in Hex at 1.
    injection Hex as <- Hevs. apply app_inv_head in Hevs. now split.
  - cbv zeta. intros tags Hl Hj.
    destruct (skipn_min_keep tags (keepImgs cfg) Hki) as (Hsel & Hlen & Hshort).
    rewrite Hsel. split; [exact Hlen|]. split; [exact Hshort|].
    split; [symmetry; now apply prune_skipn_keep|].
    pose proof (cleanupOldImages_stages e lib cfg h Hki) as Heq. cbv zeta in Heq.
    rewrite Hl, Hj in Heq. rewrite Heq.
    match goal with
    | |- context [exec e (deleteImages cfg ?repo ?tgs) ?h1] =>
        remember h1 as H1 eqn:HH1;
        destruct (exec_deleteImages e cfg repo tgs H1)
          as (r & evs & ok & failure & Hex & Hdel & Hcmd & Hcase)
    end.
    exists r, evs, ok, failure.
    assert (Hh : forall l, H1 ++ l = h ++ Captured (list_tags_command cfg)
                   (fst (capture_result e h (list_tags_command cfg))) None :: l).
    { intros l. subst H1. now rewrite <- app_assoc. }
    split; [rewrite <- Hh; exact Hex|].
    split; [exact Hcmd|]. split; [exact Hdel|]. split; [exact Hcase|].
    intros Hnil. rewrite Hnil in Hex. cbn [deleteImages exec] in Hex.
    rewrite <- (app_nil_r H1) in Hex at 1.
    injection Hex as <- Hevs. apply app_inv_head in Hevs. now split.
  - intros A L k Hk. split; [now apply prune_length|]. split; [now apply prune_skipn|].
    intros Hle. apply prune_short. now apply Z.leb_le.
Qed.

Lemma retention_prune_witness :
  (0 <= keepRevs (sample_config [lit "api"] false 3))%Z /\
  (0 <= keepImgs (sample_config [lit "api"] false 3))%Z /\
  exists evs,
    exec (scripted sample_outputs nobody)
         (deployService (sample_config [lit "api"] false 3) (lit "api") (lit "img")) []
    = (Returned None, evs) /\
    revision_deletions evs = [(lit "r0", None)].
Proof.
  assert (H0 : (0 <= keepRevs (sample_config [lit "api"] false 3))%Z) by (cbn; lia).
  assert (H1 : (0 <= keepImgs (sample_config [lit "api"] false 3))%Z) by (cbn; lia).
  split; [exact H0|]. split; [exact H1|].
  destruct (retention_prune (scripted sample_outputs nobody) sample_lib
              (sample_config [lit "api"] false 3) (lit "api") (lit "img") [] H0 H1)
    as (Hrev & _).
  cbv zeta in Hrev.
  destruct (Hrev eq_refl eq_refl eq_refl)
    as (_ & _ & _ & r & evs & ok & failure & Hex & _ & Hdel & Hcase & _).
  clear Hrev.
  destruct Hcase as [(-> & -> & Hok) | (rev & cause & remaining & _ & -> & _)].
  - eexists. split; [exact Hex|].
    rewrite app_nil_r in Hdel. rewrite <- Hok in Hdel.
    etransitivity; [|etransitivity; [exact Hdel|]]; [reflexivity | vm_compute; reflexivity].
  - exfalso. vm_compute in Hex. discriminate Hex.
Defined.

Lemma NoDup_app_disjoint {A : Type} (l1 l2 : list A) (a : A) :
  NoDup (l1 ++ l2) -> In a l1 -> ~ In a l2.
Proof.
  induction l1 as [|x l1 IH]; cbn; [contradiction|].
  intros Hnd [->|Hin] H2.
  - apply NoDup_cons_iff in Hnd as [Hx _]. apply Hx, in_or_app. now right.
  - apply NoDup_cons_iff in Hnd as [_ Hnd]. now apply (IH Hnd Hin).
Qed.

(** C4. A service's task captures the revision list first: the listing is
    its first command, the deploy follows it as soon as the listing has
    succeeded, and nothing is listed again.  When the listing, the deploy
    or the traffic migration fails the task returns that failure and
    deletes nothing.  When the three succeed, the revisions it deletes are
    the entries of the snapshot after the first [keepRevs] (positions
    counted from 1), in the snapshot's order: all of them, each deleted
    successfully, and then the task returns no error; or, when a deletion
    fails, those before it and the failing one, whose error the task
    returns.  So the first [keepRevs] entries of the snapshot (all of them
    when it is shorter) are kept - no deletion names one of them when the
    names of the snapshot are distinct - and so is any revision that is not
    in the snapshot, as the one the deploy creates. *)
Theorem deployService_snapshot_retention (e : env) (cfg : config)
  (service image0 : gostring) (h : trace) :
  (0 <= keepRevs cfg)%Z ->
  let c_list := list_revisions_command cfg service in
  let c_dep := deploy_command cfg service image0 in
  let c_tra := update_traffic_command cfg service in
  let listing := capture_result e h c_list in
  let snapshot := parse_revisions (fst listing) in
  let keep := Z.to_nat (keepRevs cfg) in
  let h1 := h ++ [Captured c_list (fst listing) (snd listing)] in
  let migrating := Printed (lit "Migrating " ++ service ++ lit "...") in
  let h3 := h1 ++ [Streamed c_dep None; migrating] in
  exists r evs rest ok failure remaining,
    exec e (deployService cfg service image0) h =
      (Returned r, h ++ Captured c_list (fst listing) (snd listing) :: evs) /\
    commands evs ++ rest =
      c_dep :: c_tra :: map (delete_revision_command cfg) (skipn keep snapshot) /\
    revision_deletions evs = map (fun rev => (rev, None)) ok ++ failure /\
    skipn keep snapshot = ok ++ map fst failure ++ remaining /\
    (r = None -> snd listing = None /\ rest = [] /\ failure = [] /\ remaining = []) /\
    (failure = [] \/
     exists rev cause, failure = [(rev, Some cause)] /\
       r = Some (Errorf_w (lit "delete revision " ++ rev ++ lit ": ") cause [])) /\
    (forall err, snd listing = Some err ->
       evs = [] /\
       r = Some (Errorf_w (lit "list revisions for " ++ service ++ lit ": ") err [])) /\
    (snd listing = None ->
     exists evs', evs = Streamed c_dep (streaming_result e h1 c_dep) :: evs' /\
       forall err, streaming_result e h1 c_dep = Some err ->
         evs' = [] /\
         r = Some (Errorf_w (lit "deploy service " ++ service ++ lit ": ") err [])) /\
    (snd listing = None -> streaming_result e h1 c_dep = None ->
     forall err, streaming_result e h3 c_tra = Some err ->
       evs = [Streamed c_dep None; migrating; Streamed c_tra (Some err)] /\
       r = Some (Errorf_w (lit "update traffic for " ++ service ++ lit ": ") err [])) /\
    (snd listing = None -> streaming_result e h1 c_dep = None ->
     streaming_result e h3 c_tra = None ->
     (failure = [] /\ r = None /\ skipn keep snapshot = ok /\ rest = []) \/
     (exists rev cause,
        failure = [(rev, Some cause)] /\
        r = Some (Errorf_w (lit "delete revision " ++ rev ++ lit ": ") cause []) /\
        skipn keep snapshot = ok ++ rev :: remaining /\
        rest = map (delete_revision_command cfg) remaining)) /\
    snapshot = firstn keep snapshot ++ ok ++ map fst failure ++ remaining /\
    length (firstn keep snapshot) = Nat.min keep (length snapshot) /\
    (NoDup snapshot ->
     forall kept, In kept (firstn keep snapshot) ->
                  ~ In kept (map fst (revision_deletions evs))) /\
    (forall fresh, ~ In fresh snapshot -> ~ In fresh (map fst (revision_deletions evs))).
Proof.
  intros Hk. cbv zeta.
  pose proof (deployService_stages e cfg service image0 h Hk) as Heq. cbv zeta in Heq.
  set (c_list := list_revisions_command cfg service) in *.
  set (c_dep := deploy_command cfg service image0) in *.
  set (c_tra := update_traffic_command cfg service) in *.
  set (out := fst (capture_result e h c_list)) in *.
  set (snapshot := parse_revisions out) in *.
  set (keep := Z.to_nat (keepRevs cfg)) in *.
  set (migrating := Printed (lit "Migrating " ++ service ++ lit "...")) in *.
  set (dels := map (delete_revision_command cfg) (skipn keep snapshot)).
  assert (Hcore : exists r evs rest ok failure remaining,
    exec e (deployService cfg service image0) h =
      (Returned r, h ++ Captured c_list out (snd (capture_result e h c_list)) :: evs) /\
    commands evs ++ rest = c_dep :: c_tra :: dels /\
    revision_deletions evs = map (fun rev => (rev, None)) ok ++ failure /\
    skipn keep snapshot = ok ++ map fst failure ++ remaining /\
    (r = None -> snd (capture_result e h c_list) = None /\ rest = [] /\ failure = [] /\
                 remaining = []) /\
    (failure = [] \/
     exists rev cause, failure = [(rev, Some cause)] /\
       r = Some (Errorf_w (lit "delete revision " ++ rev ++ lit ": ") cause [])) /\
    (forall err, snd (capture_result e h c_list) = Some err ->
       evs = [] /\
       r = Some (Errorf_w (lit "list revisions for " ++ service ++ lit ": ") err [])) /\
    (snd (capture_result e h c_list) = None ->
     exists evs',
       evs = Streamed c_dep
               (streaming_result e
                  (h ++ [Captured c_list out (snd (capture_result e h c_list))]) c_dep) :: evs' /\
       forall err,
         streaming_result e
           (h ++ [Captured c_list out (snd (capture_result e h c_list))]) c_dep = Some err ->
         evs' = [] /\
         r = Some (Errorf_w (lit "deploy service " ++ service ++ lit ": ") err [])) /\
    (snd (capture_result e h c_list) = None ->
     streaming_result e
       (h ++ [Captured c_list out (snd (capture_result e h c_list))]) c_dep = None ->
     forall err,
       streaming_result e
         ((h ++ [Captured c_list out (snd (capture_result e h c_list))]) ++
          [Streamed c_dep None; migrating]) c_tra = Some err ->
       evs = [Streamed c_dep None; migrating; Streamed c_tra (Some err)] /\
       r = Some (Errorf_w (lit "update traffic for " ++ service ++ lit ": ") err [])) /\
    (snd (capture_result e h c_list) = None ->
     streaming_result e
       (h ++ [Captured c_list out (snd (capture_result e h c_list))]) c_dep = None ->
     streaming_result e
       ((h ++ [Captured c_list out (snd (capture_result e h c_list))]) ++
        [Streamed c_dep None; migrating]) c_tra = None ->
     (failure = [] /\ r = None /\ skipn keep snapshot = ok /\ rest = []) \/
     (exists rev cause,
        failure = [(rev, Some cause)] /\
        r = Some (Errorf_w (lit "delete revision " ++ rev ++ lit ": ") cause []) /\
        skipn keep snapshot = ok ++ rev :: remaining /\
        rest = map (delete_revision_command cfg) remaining))).
  { rewrite Heq. clear Heq.
    destruct (snd (capture_result e h c_list)) as [lerr|] eqn:Hl.
    { exists (Some (Errorf_w (lit "list revisions for " ++ service ++ lit ": ") lerr [])),
        [], (c_dep :: c_tra :: dels), [], [], (skipn keep snapshot).
      split; [reflexivity|]. split; [reflexivity|]. split; [reflexivity|].
      split; [reflexivity|]. split; [discriminate|]. split; [now left|].
      split; [intros err [= <-]; now split|].
      split; [discriminate|]. split; discriminate. }
    set (h1 := h ++ [Captured c_list out None]).
    assert (Hh1 : forall l, h1 ++ l = h ++ Captured c_list out None :: l).
    { intros l. unfold h1. now rewrite <- app_assoc. }
    destruct (streaming_result e h1 c_dep) as [derr|] eqn:Hd.
    { exists (Some (Errorf_w (lit "deploy service " ++ service ++ lit ": ") derr [])),
        [Streamed c_dep (Some derr)], (c_tra :: dels), [], [], (skipn keep snapshot).
      split; [now rewrite Hh1|]. split; [reflexivity|]. split; [reflexivity|].
      split; [reflexivity|]. split; [discriminate|]. split; [now left|].
      split; [discriminate|].
      split; [intros _; exists []; split; [reflexivity | intros err [= <-]; now split]|].
      split; intros _; discriminate. }
    set (h3 := h1 ++ [Streamed c_dep None; migrating]).
    destruct (streaming_result e h3 c_tra) as [terr|] eqn:Ht.
    { exists (Some (Errorf_w (lit "update traffic for " ++ service ++ lit ": ") terr [])),
        [Streamed c_dep None; migrating; Streamed c_tra (Some terr)], dels, [], [],
        (skipn keep snapshot).
      split; [unfold h3; rewrite <- app_assoc, Hh1; reflexivity|].
      split; [reflexivity|]. split; [reflexivity|].
      split; [reflexivity|]. split; [discriminate|]. split; [now left|].
      split; [discriminate|].
      split; [intros _; eexists; split; [reflexivity | discriminate]|].
      split; [intros _ _ err [= <-]; now split|].
      intros _ _; discriminate. }
    set (deployed := Printed (lit "Deployed " ++ service ++ lit ".")).
    match goal with
    | |- context [exec e (deleteRevisions cfg ?revs) ?h5] =>
        remember h5 as H5 eqn:HH5;
        destruct (exec_deleteRevisions e cfg revs H5)
          as (r & evs & ok & failure & Hex & Hdel & Hcmd & Hcase)
    end.
    assert (Hh5 : forall l, H5 ++ l =
              h ++ Captured c_list out None ::
                (Streamed c_dep None :: migrating :: Streamed c_tra None :: deployed :: l)).
    { intros l. subst H5. unfold h3. rewrite <- !app_assoc. now rewrite Hh1. }
    assert (Hrd : revision_deletions
                    (Streamed c_dep None :: migrating :: Streamed c_tra None :: deployed :: evs)
                  = revision_deletions evs) by reflexivity.
    assert (Hcm : commands
                    (Streamed c_dep None :: migrating :: Streamed c_tra None :: deployed :: evs)
                  = c_dep :: c_tra :: commands evs) by reflexivity.
    destruct Hcase as [(-> & -> & Hok) | (rev & cause & remaining & -> & -> & Hok)].
    - exists None,
        (Streamed c_dep None :: migrating :: Streamed c_tra None :: deployed :: evs),
        [], ok, [], [].
      split; [rewrite Hex; now rewrite Hh5|].
      split; [rewrite Hcm, Hcmd, app_nil_r; cbn [map]; rewrite app_nil_r; unfold dels;
              now rewrite Hok|].
      split; [rewrite Hrd; exact Hdel|].
      split; [cbn [map]; now rewrite !app_nil_r|].
      split; [now intros _|]. split; [now left|].
      split; [discriminate|].
      split; [intros _; eexists; split; [reflexivity | discriminate]|].
      split; [intros _ _ err; discriminate|].
      intros _ _ _. left. now repeat split.
    - exists (Some (Errorf_w (lit "delete revision " ++ rev ++ lit ": ") cause [])),
        (Streamed c_dep None :: migrating :: Streamed c_tra None :: deployed :: evs),
        (map (delete_revision_command cfg) remaining), ok, [(rev, Some cause)], remaining.
      split; [rewrite Hex; now rewrite Hh5|].
      split; [rewrite Hcm, Hcmd; unfold dels; rewrite Hok; cbn [map fst app];
              rewrite !map_app, <- app_assoc; reflexivity|].
      split; [rewrite Hrd; exact Hdel|].
      split; [exact Hok|].
      split; [discriminate|]. split; [right; now exists rev, cause|].
      split; [discriminate|].
      split; [intros _; eexists; split; [reflexivity | discriminate]|].
      split; [intros _ _ err; discriminate|].
      intros _ _ _. right. exists rev, cause. now repeat split. }
  destruct Hcore as (r & evs & rest & ok & failure & remaining & Hex & Hcmd & Hdel & Hpr &
                     Hnone & Hfail & Hlist & Hdep & Htra & Hall).
  assert (Hsub : forall rev, In rev (map fst (revision_deletions evs)) ->
                             In rev (skipn keep snapshot)).
  { intros rev Hin. rewrite Hpr.
    rewrite Hdel, map_app, map_map in Hin. cbn [fst] in Hin. rewrite map_id in Hin.
    apply in_app_or in Hin as [Hin|Hin]; apply in_or_app; [now left|].
    right. apply in_or_app. now left. }
  exists r, evs, rest, ok, failure, remaining.
  split; [exact Hex|]. split; [exact Hcmd|]. split; [exact Hdel|]. split; [exact Hpr|].
  split; [exact Hnone|]. split; [exact Hfail|]. split; [exact Hlist|]. split; [exact Hdep|].
  split; [exact Htra|]. split; [exact Hall|].
  split; [rewrite <- Hpr; symmetry; apply firstn_skipn|].
  split; [apply length_firstn|]. split.
  - intros Hnd kept Hkept Hin. rewrite <- (firstn_skipn keep snapshot) in Hnd.
    apply (NoDup_app_disjoint _ _ kept Hnd Hkept). now apply Hsub.
  - intros fresh Hfresh Hin. apply Hfresh.
    rewrite <- (firstn_skipn keep snapshot). apply in_or_app. right. now apply Hsub.
Qed.

Lemma deployService_snapshot_retention_witness :
  (0 <= keepRevs (sample_config [lit "api"] false 2))%Z /\
  exists evs,
    exec (scripted sample_outputs nobody)
         (deployService (sample_config [lit "api"] false 2) (lit "api") (lit "img")) []
    = (Returned None, evs) /\
    revision_deletions evs = [(lit "r1", None); (lit "r0", None)].
Proof.
  assert (H0 : (0 <= keepRevs (sample_config [lit "api"] false 2))%Z) by (cbn; lia).
  split; [exact H0|].
  destruct (deployService_snapshot_retention (scripted sample_outputs nobody)
              (sample_config [lit "api"] false 2) (lit "api") (lit "img") [] H0)
    as (r & evs & rest & ok & failure & remaining & Hex & _ & Hdel & _ & _ & _ & _ & _ & _ &
        Hall & _).
  destruct (Hall eq_refl eq_refl eq_refl)
    as [(-> & -> & Hok & _) | (rev & cause & _ & -> & _)].
  - eexists. split; [exact Hex|].
    rewrite app_nil_r in Hdel. rewrite <- Hok in Hdel.
    etransitivity; [|etransitivity; [exact Hdel|]]; [reflexivity | vm_compute; reflexivity].
  - exfalso. vm_compute in Hex. discriminate Hex.
Defined.

(** C3 as stated fails: the message of a failed revision deletion names
    the revision, not the service. *)
Lemma deployServices_failure_without_service_name :
  ~ (forall e sched cfg image0 h err tr,
       deployServices e sched cfg image0 h = (Returned (Some err), tr) ->
       exists s, In s (services cfg) /\ names_service s err).
Proof.
  intros H.
  destruct (H (scripted sample_outputs is_revision_delete) (repeat 0 10)
              (sample_config [lit "api"] false 3) (lit "img") []
              (errors_New (lit "delete revision r0: exit status 1"))
              (snd (deployServices (scripted sample_outputs is_revision_delete) (repeat 0 10)
                      (sample_config [lit "api"] false 3) (lit "img") [])))
    as (s & Hin & Hname).
  - vm_compute. reflexivity.
  - cbn in Hin. destruct Hin as [<- | []]. vm_compute in Hname. discriminate.
Qed.

Lemma deployServices_join_witness :
  (0 <= keepRevs (sample_config [lit "api"; lit "web"] false 3))%Z /\
  exists sched1 r tr,
    deployServices (scripted sample_outputs is_revision_delete) ([1; 0; 1] ++ sched1)
      (sample_config [lit "api"; lit "web"] false 3) (lit "img") [] = (Returned r, tr).
Proof.
  assert (H0 : (0 <= keepRevs (sample_config [lit "api"; lit "web"] false 3))%Z) by (cbn; lia).
  split; [exact H0|].
  destruct (deployServices_join (scripted sample_outputs is_revision_delete)
              (sample_config [lit "api"; lit "web"] false 3) (lit "img") []) as (Hwait & _).
  exact (Hwait H0 [1; 0; 1]).
Defined.

Example deployServices_two_failures :
  fst (deployServices (scripted sample_outputs is_revision_delete)
         (repeat 1 9 ++ repeat 0 9)
         (sample_config [lit "api"; lit "web"] false 3) (lit "img") [])
  = Returned (Some (errors_New
      (lit "delete revision r0: exit status 1" ++ newline ++
       lit "delete revision r0: exit status 1"))).
Proof. vm_compute. reflexivity. Qed.

(** ** The main sequence *)

Arguments cleanupOldImages : simpl never.
Arguments deployService : simpl never.

Ltac case_scrutinee :=
  match goal with
  | H : ?x = _ |- context [match ?x with _ => _ end] => rewrite H
  | |- context [match streaming_result ?e ?h ?c with _ => _ end] =>
      destruct (streaming_result e h c) eqn:?
  | |- context [match snd (capture_result ?e ?h ?c) with _ => _ end] =>
      destruct (snd (capture_result e h c)) eqn:?
  | |- context [match parseDigest ?o with _ => _ end] =>
      destruct (parseDigest o) eqn:?
  | |- context [match deployServices ?e ?s ?c ?i ?h with _ => _ end] =>
      destruct (deployServices e s c i h) as [[[?|]| |] ?] eqn:?
  | |- context [match exec ?e ?t ?h with _ => _ end] =>
      destruct (exec e t h) as [[[?|]| |] ?] eqn:?
  | |- context [negb (beta ?c)] => destruct (beta c) eqn:?
  end.

Lemma run_through_join (lib : golib) (e : env) (sched : list nat) (cfg : config) (h : trace) :
  run lib e sched cfg h =
    match through_join e sched cfg h with
    | (Returned None, h') => cleanup_stage lib e cfg h'
    | other => other
    end.
Proof.
  unfold run, through_join, cleanup_stage, mbind, ret. cbn.
  repeat (case_scrutinee; cbn); try reflexivity.
Qed.

Lemma through_join_trace (e : env) (cfg : config) (h : trace) :
  (exists evs k err,
     commands evs = firstn (S k) [build_command cfg;
                                  docker_build_command cfg (imageTag cfg);
                                  docker_push_command cfg (imageTag cfg)] /\
     forall sched, through_join e sched cfg h = (Returned (Some err), h ++ evs)) \/
  (exists pushOutput digest,
     parseDigest pushOutput = Ok digest /\
     forall sched,
       through_join e sched cfg h =
         deployServices e sched cfg (imageRepo cfg ++ lit "@" ++ digest)
           (h ++ published cfg pushOutput)).
Proof.
  unfold through_join, mbind, ret. cbn.
  change {| cmd_dir := workdir cfg; cmd_name := lit "pnpm";
            cmd_args := [lit "run"; lit "build"] |} with (build_command cfg).
  change (registryHost cfg ++ lit "/" ++ project cfg ++ lit "/" ++ image cfg)
    with (imageRepo cfg).
  change (if beta cfg then imageRepo cfg ++ lit ":dev" else imageRepo cfg)
    with (imageTag cfg).
  change {| cmd_dir := workdir cfg; cmd_name := lit "docker";
            cmd_args := [lit "build"; lit "--platform"; lit "linux/amd64"; lit "-t";
                         imageTag cfg; lit "."] |}
    with (docker_build_command cfg (imageTag cfg)).
  change {| cmd_dir := workdir cfg; cmd_name := lit "docker";
            cmd_args := [lit "push"; imageTag cfg] |}
    with (docker_push_command cfg (imageTag cfg)).
  destruct (streaming_result e _ (build_command cfg)) as [err|] eqn:Hb.
  { left. exists [Printed (lit "Building TS..."); Streamed (build_command cfg) (Some err)], 0.
    eexists. rewrite <- app_assoc. split; [reflexivity | intros sched; reflexivity]. }
  destruct (streaming_result e _ (docker_build_command cfg (imageTag cfg))) as [err|] eqn:Hd.
  { left. exists [Printed (lit "Building TS..."); Streamed (build_command cfg) None;
                  Printed (lit "Building Docker...");
                  Streamed (docker_build_command cfg (imageTag cfg)) (Some err)], 1.
    eexists. rewrite <- !app_assoc. split; [reflexivity | intros sched; reflexivity]. }
  match goal with
  | |- context [capture_result e ?h1 ?c] => set (r := capture_result e h1 c)
  end.
  destruct (snd r) as [err|] eqn:Hp.
  { left. exists [Printed (lit "Building TS..."); Streamed (build_command cfg) None;
                  Printed (lit "Building Docker...");
                  Streamed (docker_build_command cfg (imageTag cfg)) None;
                  Printed (lit "Uploading image...");
                  Captured (docker_push_command cfg (imageTag cfg)) (fst r) (Some err)], 2.
    eexists. rewrite <- !app_assoc. split; [reflexivity | intros sched; reflexivity]. }
  destruct (parseDigest (fst r)) as [digest|err] eqn:Hg.
  2:{ left. exists [Printed (lit "Building TS..."); Streamed (build_command cfg) None;
                  Printed (lit "Building Docker...");
                  Streamed (docker_build_command cfg (imageTag cfg)) None;
                  Printed (lit "Uploading image...");
                  Captured (docker_push_command cfg (imageTag cfg)) (fst r) None], 2.
    eexists. rewrite <- !app_assoc. split; [reflexivity | intros sched; reflexivity]. }
  right. exists (fst r), digest. split; [exact Hg|]. intros sched.
  unfold published. rewrite <- !app_assoc. reflexivity.
Qed.

Lemma commands_app (a b : trace) : commands (a ++ b) = commands a ++ commands b.
Proof.
  unfold commands. induction a as [|ev a IH]; cbn [collect app]; [reflexivity|].
  destruct (command_of ev); [cbn; now f_equal | exact IH].
Qed.

Lemma Forall_commands (Pc : command -> Prop) (evs : trace) :
  Forall (fun ev => forall c, command_of ev = Some c -> Pc c) evs ->
  Forall Pc (commands evs).
Proof.
  unfold commands. intros H. induction H as [|ev evs Hev H IH]; cbn [collect]; [constructor|].
  destruct (command_of ev) as [c|] eqn:Hc; [constructor; auto | exact IH].
Qed.

Lemma cleanup_stage_trace (lib : golib) (e : env) (cfg : config) (h : trace) :
  exists cevs,
    snd (cleanup_stage lib e cfg h) = h ++ cevs /\
    (forall P : event -> Prop,
       (forall m, P (Printed m)) ->
       task_sat P (fun _ => True) (cleanupOldImages lib cfg (image cfg)) ->
       Forall P cevs) /\
    (beta cfg = true -> cevs = []).
Proof.
  unfold cleanup_stage. destruct (beta cfg); cbn [negb].
  - exists []. cbn. rewrite app_nil_r. repeat split. intros; constructor.
  - unfold mbind. cbn [exec logStep].
    destruct (exec_extends e (cleanupOldImages lib cfg (image cfg))
                (h ++ [Printed (lit "Cleaning up image...")])) as (evs & Hevs & _).
    exists (Printed (lit "Cleaning up image...") :: evs).
    destruct (exec e (cleanupOldImages lib cfg (image cfg))
                (h ++ [Printed (lit "Cleaning up image...")])) as [o h'] eqn:Hex.
    cbn [snd] in Hevs. subst h'. split; [|split; [|discriminate]].
    + destruct o; cbn; now rewrite <- app_assoc.
    + intros P Hp Hsat. constructor; [apply Hp|].
      destruct (exec_sat e P _ _ (h ++ [Printed (lit "Cleaning up image...")]) Hsat)
        as (evs' & Hevs' & Hf & _).
      rewrite Hex in Hevs'. cbn [snd] in Hevs'. apply app_inv_head in Hevs'. now subst.
Qed.

(** The shape of a run: it stops at one of the first three commands, or
    it publishes, fans out and, the join done, cleans up. *)
Lemma run_trace (lib : golib) (e : env) (sched : list nat) (cfg : config) (h : trace) :
  (exists evs k err,
     run lib e sched cfg h = (Returned (Some err), h ++ evs) /\
     commands evs = firstn (S k) [build_command cfg;
                                  docker_build_command cfg (imageTag cfg);
                                  docker_push_command cfg (imageTag cfg)]) \/
  (exists pushOutput digest fan cevs,
     parseDigest pushOutput = Ok digest /\
     snd (run lib e sched cfg h) = h ++ published cfg pushOutput ++ fan ++ cevs /\
     (forall P : event -> Prop,
        (forall service, In service (services cfg) ->
           task_sat P (fails_as service)
             (deployService cfg service (imageRepo cfg ++ lit "@" ++ digest))) ->
        Forall P fan) /\
     (forall P : event -> Prop,
        (forall m, P (Printed m)) ->
        task_sat P (fun _ => True) (cleanupOldImages lib cfg (image cfg)) ->
        Forall P cevs) /\
     (beta cfg = true -> cevs = [])).
Proof.
  rewrite run_through_join.
  destruct (through_join_trace e cfg h)
    as [(evs & k & err & Hc & Ht) | (pushOutput & digest & Hd & Ht)];
    rewrite (Ht sched).
  - left. now exists evs, k, err.
  - right. set (ref := imageRepo cfg ++ lit "@" ++ digest).
    set (h0 := h ++ published cfg pushOutput).
    destruct (deployServices_sat e (fun _ => True) sched cfg ref h0
                (fun s _ => all_true_sat cfg s ref)) as (fan & Hfan & _).
    assert (HP : forall P : event -> Prop,
               (forall service, In service (services cfg) ->
                  task_sat P (fails_as service) (deployService cfg service ref)) ->
               Forall P fan).
    { intros P Hsat. destruct (deployServices_sat e P sched cfg ref h0 Hsat) as (fan' & Hfan' & Hf).
      rewrite Hfan in Hfan'. apply app_inv_head in Hfan'. now subst. }
    destruct (deployServices e sched cfg ref h0) as [o hd] eqn:Hdep. cbn [snd] in Hfan. subst hd.
    destruct (cleanup_stage_trace lib e cfg (h0 ++ fan)) as (cevs & Hcl & Hcp & Hcb).
    assert (Hh : forall l, (h0 ++ fan) ++ l = h ++ published cfg pushOutput ++ fan ++ l).
    { intros l. unfold h0. now rewrite <- !app_assoc. }
    destruct o as [[err|]| |].
    + exists pushOutput, digest, fan, []. cbn [snd]. rewrite <- Hh, app_nil_r.
      repeat split; auto.
    + exists pushOutput, digest, fan, cevs. rewrite Hcl, Hh. repeat split; auto.
    + exists pushOutput, digest, fan, []. cbn [snd]. rewrite <- Hh, app_nil_r.
      repeat split; auto.
    + exists pushOutput, digest, fan, []. cbn [snd]. rewrite <- Hh, app_nil_r.
      repeat split; auto.
Qed.

Lemma deleteImages_no_panic (cfg : config) (repo : gostring) (tags : list tag) :
  no_panic (deleteImages cfg repo tags).
Proof.
  induction tags as [|tg rest IH]; cbn; [exact I|].
  destruct (streq (Digest tg) []); [exact IH|]. cbn.
  intros [err|]; cbn; [exact I | exact IH].
Qed.

Lemma cleanupOldImages_no_panic (lib : golib) (cfg : config) (image0 : gostring) :
  (0 <= keepImgs cfg)%Z -> no_panic (cleanupOldImages lib cfg image0).
Proof.
  intros Hk. unfold cleanupOldImages. cbn. intros r. destruct (snd r); cbn; [exact I|].
  destruct (json_Unmarshal_tags lib (fst r)) as [tags|err]; cbn; [|exact I].
  destruct (Z.of_nat (length tags) <=? keepImgs cfg)%Z eqn:Hl; [exact I|].
  rewrite (slice_from_prune _ _ Hk Hl). apply deleteImages_no_panic.
Qed.

(** The run returns: with retention counts that are not negative, every
    schedule can be continued into one under which [run] returns. *)
Lemma run_returns (lib : golib) (e : env) (cfg : config) (h : trace) :
  (0 <= keepRevs cfg)%Z -> (0 <= keepImgs cfg)%Z ->
  forall sched0, exists sched1 r tr,
    run lib e (sched0 ++ sched1) cfg h = (Returned r, tr).
Proof.
  intros Hkr Hki sched0.
  destruct (through_join_trace e cfg h)
    as [(evs & k & err & _ & Ht) | (pushOutput & digest & Hd & Ht)].
  - exists []. rewrite run_through_join, Ht. eauto.
  - destruct (deployServices_returns e cfg (imageRepo cfg ++ lit "@" ++ digest)
                (h ++ published cfg pushOutput) Hkr sched0) as (sched1 & r & tr & Hdep).
    exists sched1. rewrite run_through_join, Ht, Hdep.
    destruct r as [err|]; [eauto|].
    unfold cleanup_stage. destruct (beta cfg); cbn [negb]; [unfold ret; eauto|].
    unfold mbind. cbn [exec logStep].
    destruct (exec_no_panic e (cleanupOldImages lib cfg (image cfg))
                (tr ++ [Printed (lit "Cleaning up image...")])
                (cleanupOldImages_no_panic lib cfg (image cfg) Hki)) as (a & Ha).
    destruct (exec e (cleanupOldImages lib cfg (image cfg))
                (tr ++ [Printed (lit "Cleaning up image...")])) as [o tr'].
    cbn [fst] in Ha. subst o. eauto.
Qed.

(** C7. When the build command fails, [run] returns the build error
    (wrapped as "build project: ...") and the trace of the run holds the
    build command and nothing after it. *)
Theorem run_build_failure (lib : golib) (e : env) (sched : list nat) (cfg : config)
  (h : trace) (err : goerror) :
  streaming_result e (h ++ [Printed (lit "Building TS...")]) (build_command cfg) = Some err ->
  run lib e sched cfg h =
    (Returned (Some (Errorf_w (lit "build project: ") err [])),
     h ++ [Printed (lit "Building TS..."); Streamed (build_command cfg) (Some err)]) /\
  commands [Printed (lit "Building TS..."); Streamed (build_command cfg) (Some err)]
    = [build_command cfg].
Proof.
  intros Hb. split; [|reflexivity].
  unfold run, mbind, ret. cbn.
  change {| cmd_dir := workdir cfg; cmd_name := lit "pnpm";
            cmd_args := [lit "run"; lit "build"] |} with (build_command cfg).
  rewrite Hb. now rewrite <- app_assoc.
Qed.

Lemma In_firstn {A : Type} (x : A) (n : nat) (l : list A) :
  In x (firstn n l) -> In x l.
Proof.
  revert l; induction n as [|n IH]; intros [|y l]; cbn; try contradiction.
  intros [->|H]; auto.
Qed.

Lemma lit_gcloud_not_docker : lit "gcloud" <> lit "docker".
Proof. intros H. vm_compute in H. discriminate. Qed.

(** The stages of the main sequence up to the join: it returns at the
    first of the build, the container build, the push and the digest
    extraction that fails, and otherwise fans out with [repo@digest]. *)
Lemma through_join_stages (e : env) (sched : list nat) (cfg : config) (h : trace) :
  let c_build := docker_build_command cfg (imageTag cfg) in
  let c_push := docker_push_command cfg (imageTag cfg) in
  let building := [Printed (lit "Building TS...")] in
  let b := streaming_result e (h ++ building) (build_command cfg) in
  let built := building ++ [Streamed (build_command cfg) b; Printed (lit "Building Docker...")] in
  let d := streaming_result e (h ++ built) c_build in
  let tagged := built ++ [Streamed c_build d; Printed (lit "Uploading image...")] in
  let push := capture_result e (h ++ tagged) c_push in
  through_join e sched cfg h =
    match b with
    | Some err =>
        (Returned (Some (Errorf_w (lit "build project: ") err [])),
         h ++ building ++ [Streamed (build_command cfg) b])
    | None =>
        match d with
        | Some err =>
            (Returned (Some (Errorf_w (lit "docker build: ") err [])),
             h ++ built ++ [Streamed c_build d])
        | None =>
            match snd push with
            | Some err =>
                (Returned (Some (Errorf_w (lit "docker push: ") err (newline ++ fst push))),
                 h ++ tagged ++ [Captured c_push (fst push) (snd push)])
            | None =>
                match parseDigest (fst push) with
                | Err err =>
                    (Returned (Some (Errorf_w (lit "parse digest: ") err
                                       (newline ++ fst push))),
                     h ++ tagged ++ [Captured c_push (fst push) (snd push)])
                | Ok digest =>
                    deployServices e sched cfg (imageRepo cfg ++ lit "@" ++ digest)
                      (h ++ published cfg (fst push))
                end
            end
        end
    end.
Proof.
  cbv zeta. unfold through_join, mbind, ret, logStep, runCommandStreaming, runCommandCapture.
  cbn [exec].
  change {| cmd_dir := workdir cfg; cmd_name := lit "pnpm";
            cmd_args := [lit "run"; lit "build"] |} with (build_command cfg).
  change (registryHost cfg ++ lit "/" ++ project cfg ++ lit "/" ++ image cfg)
    with (imageRepo cfg).
  change (if beta cfg then imageRepo cfg ++ lit ":dev" else imageRepo cfg)
    with (imageTag cfg).
  change {| cmd_dir := workdir cfg; cmd_name := lit "docker";
            cmd_args := [lit "build"; lit "--platform"; lit "linux/amd64"; lit "-t";
                         imageTag cfg; lit "."] |}
    with (docker_build_command cfg (imageTag cfg)).
  change {| cmd_dir := workdir cfg; cmd_name := lit "docker";
            cmd_args := [lit "push"; imageTag cfg] |}
    with (docker_push_command cfg (imageTag cfg)).
  rewrite <- !app_assoc. cbn [app].
  destruct (streaming_result e _ (build_command cfg)) as [err|] eqn:Hb; [reflexivity|].
  rewrite <- !app_assoc. cbn [app].
  destruct (streaming_result e _ (docker_build_command cfg (imageTag cfg))) as [err|] eqn:Hd;
    [reflexivity|].
  rewrite <- !app_assoc. cbn [app].
  match goal with
  | |- context [capture_result e ?h3 ?c] => set (r := capture_result e h3 c)
  end.
  destruct (snd r) as [err|] eqn:Hp; [reflexivity|].
  destruct (parseDigest (fst r)) as [digest|err] eqn:Hg; [|reflexivity].
  unfold published. rewrite <- !app_assoc. reflexivity.
Qed.

Lemma Forall2_In_left {A B : Type} (R : A -> B -> Prop) (la : list A) (lb : list B) (a : A) :
  Forall2 R la lb -> In a la -> exists b, R a b.
Proof.
  intros H. induction H as [|x y la lb Hxy H IH]; [contradiction|].
  intros [<-|Hin]; [now exists y | now apply IH].
Qed.

(** When the deploy step returns, every service's deploy has been issued,
    unless its revision listing failed. *)
Lemma deployServices_account (e : env) (sched : list nat) (cfg : config) (image0 : gostring)
  (h tr : trace) (r : option goerror) :
  deployServices e sched cfg image0 h = (Returned r, tr) ->
  exists fan, tr = h ++ fan /\
    forall s, In s (services cfg) ->
      (exists out cause,
         In (Captured (list_revisions_command cfg s) out (Some cause)) fan) \/
      (exists derr, In (Streamed (deploy_command cfg s image0) derr) fan).
Proof.
  rewrite deployServices_started.
  pose proof (turns_accounted e (fun s => task_account cfg s image0) h (services cfg) sched
                (started cfg image0 h)) as Hacc.
  destruct (turns e sched (started cfg image0 h)) as [st|h'] eqn:Hturns; [|discriminate].
  destruct (Hacc st (fun s => grows_task_account cfg s image0)
              (started_accounted _ cfg image0 h (fun s => deployService_account cfg s image0))
              eq_refl) as (fan & Hfan & Hq).
  destruct (forallb is_finished (pool st)) eqn:Hfin; [|discriminate].
  destruct (finished_results _ Hfin) as (results & Hpool & _).
  rewrite Hpool in Hq. apply Forall2_accounted in Hq.
  intros Hres. exists fan. split.
  - destruct (0 <? length (drain (errs st) []))%nat; injection Hres as _ <-; exact Hfan.
  - intros s Hin. destruct (Forall2_In_left _ _ _ s Hq Hin) as (res & Hd & _). exact Hd.
Qed.

(** The run once the image is published: the fan-out, then the cleanup
    stage when the join has succeeded. *)
Lemma run_published (lib : golib) (e : env) (sched : list nat) (cfg : config) (h : trace)
  (pushOutput digest : gostring) :
  let ref := imageRepo cfg ++ lit "@" ++ digest in
  through_join e sched cfg h = deployServices e sched cfg ref (h ++ published cfg pushOutput) ->
  exists fan cevs,
    snd (run lib e sched cfg h) = h ++ published cfg pushOutput ++ fan ++ cevs /\
    (forall P : event -> Prop,
       (forall service, In service (services cfg) ->
          task_sat P (fails_as service) (deployService cfg service ref)) ->
       Forall P fan) /\
    (forall P : event -> Prop,
       (forall m, P (Printed m)) ->
       task_sat P (fun _ => True) (cleanupOldImages lib cfg (image cfg)) ->
       Forall P cevs) /\
    (forall r tr, run lib e sched cfg h = (Returned r, tr) ->
       forall s, In s (services cfg) ->
         (exists out cause,
            In (Captured (list_revisions_command cfg s) out (Some cause)) fan) \/
         (exists derr, In (Streamed (deploy_command cfg s ref) derr) fan)).
Proof.
  intros ref Ht. rewrite run_through_join, Ht.
  set (h0 := h ++ published cfg pushOutput).
  destruct (deployServices_sat e (fun _ => True) sched cfg ref h0
              (fun s _ => all_true_sat cfg s ref)) as (fan & Hfan & _).
  assert (HP : forall P : event -> Prop,
             (forall service, In service (services cfg) ->
                task_sat P (fails_as service) (deployService cfg service ref)) ->
             Forall P fan).
  { intros P Hsat. destruct (deployServices_sat e P sched cfg ref h0 Hsat) as (fan' & Hfan' & Hf).
    rewrite Hfan in Hfan'. apply app_inv_head in Hfan'. now subst. }
  destruct (deployServices e sched cfg ref h0) as [o hd] eqn:Hdep. cbn [snd] in Hfan. subst hd.
  assert (Hacc : forall r0, o = Returned r0 ->
            forall s, In s (services cfg) ->
              (exists out cause,
                 In (Captured (list_revisions_command cfg s) out (Some cause)) fan) \/
              (exists derr, In (Streamed (deploy_command cfg s ref) derr) fan)).
  { intros r0 -> s Hin.
    destruct (deployServices_account _ _ _ _ _ _ _ Hdep) as (fan' & Hfan' & Hs).
    apply app_inv_head in Hfan'. subst fan'. now apply Hs. }
  destruct (cleanup_stage_trace lib e cfg (h0 ++ fan)) as (cevs & Hcl & Hcp & _).
  assert (Hh : forall l, (h0 ++ fan) ++ l = h ++ published cfg pushOutput ++ fan ++ l).
  { intros l. unfold h0. now rewrite <- !app_assoc. }
  destruct o as [[err|]| |].
  - exists fan, []. cbn [snd]. rewrite <- Hh, app_nil_r.
    split; [reflexivity|]. split; [exact HP|]. split; [intros; constructor|].
    intros r tr _. now apply (Hacc (Some err)).
  - exists fan, cevs. rewrite Hcl, Hh.
    split; [reflexivity|]. split; [exact HP|]. split; [exact Hcp|].
    intros r tr _. now apply (Hacc None).
  - exists fan, []. cbn [snd]. rewrite <- Hh, app_nil_r.
    split; [reflexivity|]. split; [exact HP|]. split; [intros; constructor|]. discriminate.
  - exists fan, []. cbn [snd]. rewrite <- Hh, app_nil_r.
    split; [reflexivity|]. split; [exact HP|]. split; [intros; constructor|]. discriminate.
Qed.

Lemma digest_reference_not_tag (cfg : config) (digest : gostring) :
  imageRepo cfg ++ lit "@" ++ digest <> imageTag cfg.
Proof.
  unfold imageTag. intros H. destruct (beta cfg).
  - apply app_inv_head in H. vm_compute in H. discriminate H.
  - rewrite <- (app_nil_r (imageRepo cfg)) in H at 2. apply app_inv_head in H.
    vm_compute in H. discriminate H.
Qed.

(** C6. Once the build has succeeded the container build is issued with
    the tag [registryHost/project/image], with ":dev" appended on a beta
    run, and once it has succeeded the push is issued with the same tag; no
    other docker command is issued.  Every [gcloud run deploy] of the run is
    the deploy of one of the configured services with the image reference
    [registryHost/project/image@digest], the digest being the one extracted
    from the output of the push of this run; that reference is never the
    tag.  And when the image is published and the run returns, every
    configured service has been deployed with that reference, unless the
    listing of its revisions failed. *)
Theorem run_image_reference (lib : golib) (e : env) (sched : list nat) (cfg : config)
  (h : trace) :
  let repo := registryHost cfg ++ lit "/" ++ project cfg ++ lit "/" ++ image cfg in
  let tag := if beta cfg then repo ++ lit ":dev" else repo in
  let c_build := docker_build_command cfg tag in
  let c_push := docker_push_command cfg tag in
  let building := [Printed (lit "Building TS...")] in
  let built := building ++ [Streamed (build_command cfg) None;
                            Printed (lit "Building Docker...")] in
  let tagged := built ++ [Streamed c_build None; Printed (lit "Uploading image...")] in
  let push := capture_result e (h ++ tagged) c_push in
  exists evs,
    snd (run lib e sched cfg h) = h ++ evs /\
    (streaming_result e (h ++ building) (build_command cfg) = None ->
     exists rest,
       evs = built ++ Streamed c_build (streaming_result e (h ++ built) c_build) :: rest) /\
    (streaming_result e (h ++ building) (build_command cfg) = None ->
     streaming_result e (h ++ built) c_build = None ->
     exists rest, evs = tagged ++ Captured c_push (fst push) (snd push) :: rest) /\
    (forall c, In c (commands evs) -> cmd_name c = lit "docker" ->
       c = c_build \/ c = c_push) /\
    (forall c, In c (commands evs) -> is_deploy_command c = true ->
       exists service digest,
         In service (services cfg) /\
         In (Captured c_push (fst push) None) evs /\
         parseDigest (fst push) = Ok digest /\
         c = deploy_command cfg service (repo ++ lit "@" ++ digest) /\
         repo ++ lit "@" ++ digest <> tag) /\
    (forall digest r tr,
       streaming_result e (h ++ building) (build_command cfg) = None ->
       streaming_result e (h ++ built) c_build = None ->
       snd push = None ->
       parseDigest (fst push) = Ok digest ->
       run lib e sched cfg h = (Returned r, tr) ->
       forall service, In service (services cfg) ->
         (exists out cause,
            In (Captured (list_revisions_command cfg service) out (Some cause)) evs) \/
         (exists derr,
            In (Streamed (deploy_command cfg service (repo ++ lit "@" ++ digest)) derr) evs)).
Proof.
  cbv zeta.
  change (registryHost cfg ++ lit "/" ++ project cfg ++ lit "/" ++ image cfg)
    with (imageRepo cfg).
  change (if beta cfg then imageRepo cfg ++ lit ":dev" else imageRepo cfg)
    with (imageTag cfg).
  pose proof (through_join_stages e sched cfg h) as Hst. cbv zeta in Hst.
  set (c_build := docker_build_command cfg (imageTag cfg)) in *.
  set (c_push := docker_push_command cfg (imageTag cfg)) in *.
  set (building := [Printed (lit "Building TS...")]) in *.
  assert (Hearly : forall evs err,
            through_join e sched cfg h = (Returned (Some err), h ++ evs) ->
            snd (run lib e sched cfg h) = h ++ evs).
  { intros evs err Ht. now rewrite run_through_join, Ht. }
  destruct (streaming_result e (h ++ building) (build_command cfg)) as [berr|] eqn:Hb.
  { exists (building ++ [Streamed (build_command cfg) (Some berr)]).
    split; [eapply Hearly; exact Hst|].
    split; [discriminate|]. split; [discriminate|].
    split; [|split; [|discriminate]]; intros c Hin Hn;
      cbn in Hin; destruct Hin as [<-|[]]; vm_compute in Hn; discriminate Hn. }
  set (built := building ++ [Streamed (build_command cfg) None;
                             Printed (lit "Building Docker...")]) in *.
  destruct (streaming_result e (h ++ built) c_build) as [derr|] eqn:Hd.
  { exists (built ++ [Streamed c_build (Some derr)]).
    split; [eapply Hearly; exact Hst|].
    split; [intros _; now exists []|]. split; [discriminate|].
    split; [|split; [|discriminate]]; intros c Hin Hn;
      cbn in Hin; destruct Hin as [<-|[<-|[]]]; auto; vm_compute in Hn; discriminate Hn. }
  set (tagged := built ++ [Streamed c_build None; Printed (lit "Uploading image...")]) in *.
  set (push := capture_result e (h ++ tagged) c_push) in *.
  assert (Hfail : forall err,
            through_join e sched cfg h =
              (Returned (Some err), h ++ tagged ++ [Captured c_push (fst push) (snd push)]) ->
            (snd push = None -> forall digest, parseDigest (fst push) <> Ok digest) ->
            exists evs,
              snd (run lib e sched cfg h) = h ++ evs /\
              (@None goerror = None ->
               exists rest, evs = built ++ Streamed c_build None :: rest) /\
              (@None goerror = None -> @None goerror = None ->
               exists rest, evs = tagged ++ Captured c_push (fst push) (snd push) :: rest) /\
              (forall c, In c (commands evs) -> cmd_name c = lit "docker" ->
                 c = c_build \/ c = c_push) /\
              (forall c, In c (commands evs) -> is_deploy_command c = true ->
                 exists service digest,
                   In service (services cfg) /\
                   In (Captured c_push (fst push) None) evs /\
                   parseDigest (fst push) = Ok digest /\
                   c = deploy_command cfg service (imageRepo cfg ++ lit "@" ++ digest) /\
                   imageRepo cfg ++ lit "@" ++ digest <> imageTag cfg) /\
              (forall digest r tr,
                 @None goerror = None -> @None goerror = None -> snd push = None ->
                 parseDigest (fst push) = Ok digest ->
                 run lib e sched cfg h = (Returned r, tr) ->
                 forall service, In service (services cfg) ->
                   (exists out cause,
                      In (Captured (list_revisions_command cfg service) out (Some cause))
                         evs) \/
                   (exists derr,
                      In (Streamed (deploy_command cfg service
                                      (imageRepo cfg ++ lit "@" ++ digest)) derr) evs))).
  { intros err Ht Hno. exists (tagged ++ [Captured c_push (fst push) (snd push)]).
    split; [eapply Hearly; exact Ht|].
    split; [intros _; eexists; reflexivity|]. split; [intros _ _; now exists []|].
    split; [|split].
    - intros c Hin Hn. cbn in Hin. destruct Hin as [<-|[<-|[<-|[]]]]; auto.
      vm_compute in Hn. discriminate Hn.
    - intros c Hin Hn. cbn in Hin.
      destruct Hin as [<-|[<-|[<-|[]]]]; vm_compute in Hn; discriminate Hn.
    - intros digest r tr _ _ Hp Hg. now destruct (Hno Hp digest). }
  destruct (snd push) as [perr|] eqn:Hp.
  { apply (Hfail _ Hst). discriminate. }
  destruct (parseDigest (fst push)) as [digest|gerr] eqn:Hg.
  2:{ apply (Hfail _ Hst). intros _ digest. discriminate. }
  clear Hfail Hearly.
  destruct (run_published lib e sched cfg h (fst push) digest Hst)
    as (fan & cevs & Hrun & Hfan & Hcl & Hacc).
  set (ref := imageRepo cfg ++ lit "@" ++ digest) in *.
  exists (published cfg (fst push) ++ fan ++ cevs). split; [exact Hrun|].
  split; [intros _; eexists; reflexivity|]. split; [intros _ _; eexists; reflexivity|].
  set (Pc := fun c => is_deploy_command c = true ->
                      exists service, In service (services cfg) /\
                                      c = deploy_command cfg service ref).
  assert (Hfan' : Forall (not_docker_and Pc) fan).
  { apply Hfan. intros service Hin. apply deployService_sat.
    - intros m c [=].
    - intros out err c [= <-]. split; [apply lit_gcloud_not_docker|]. intros Hx. discriminate Hx.
    - intros err c [= <-]. split; [apply lit_gcloud_not_docker|]. intros _. now exists service.
    - intros err c [= <-]. split; [apply lit_gcloud_not_docker|]. intros Hx. discriminate Hx.
    - intros rev err c [= <-]. split; [apply lit_gcloud_not_docker|]. intros Hx. discriminate Hx. }
  assert (Hcl' : Forall (not_docker_and Pc) cevs).
  { apply Hcl; [intros m c [=]|]. apply cleanupOldImages_sat.
    - intros m c [=].
    - intros out err c [= <-]. split; [apply lit_gcloud_not_docker|]. intros Hx. discriminate Hx.
    - intros rf err c [= <-]. split; [apply lit_gcloud_not_docker|]. intros Hx. discriminate Hx. }
  pose proof (Forall_commands _ _ Hfan') as Hf1.
  pose proof (Forall_commands _ _ Hcl') as Hf2.
  rewrite Forall_forall in Hf1, Hf2.
  rewrite !commands_app.
  assert (Hpub : commands (published cfg (fst push)) =
                 [build_command cfg; c_build; c_push]) by reflexivity.
  rewrite Hpub.
  split; [|split].
  - intros c Hin Hn. apply in_app_or in Hin as [Hin|Hin].
    + cbn in Hin. destruct Hin as [<-|[<-|[<-|[]]]]; auto. vm_compute in Hn. discriminate Hn.
    + apply in_app_or in Hin as [Hin|Hin]; [destruct (Hf1 c Hin) | destruct (Hf2 c Hin)];
        contradiction.
  - intros c Hin Hn.
    assert (Hc : Pc c).
    { apply in_app_or in Hin as [Hin|Hin].
      - cbn in Hin. destruct Hin as [<-|[<-|[<-|[]]]]; vm_compute in Hn; discriminate Hn.
      - apply in_app_or in Hin as [Hin|Hin]; [now apply Hf1 | now apply Hf2]. }
    destruct (Hc Hn) as (service & Hs & ->).
    exists service, digest. split; [exact Hs|].
    split; [apply in_or_app; left; unfold published; cbn; auto 10|].
    split; [reflexivity|]. split; [reflexivity|]. apply digest_reference_not_tag.
  - intros digest0 r tr _ _ _ [= <-] Hret service Hin.
    destruct (Hacc r tr Hret service Hin) as [(out & cause & Hx) | (derr & Hx)].
    + left. exists out, cause. apply in_or_app. right. apply in_or_app. now left.
    + right. exists derr. apply in_or_app. right. apply in_or_app. now left.
Qed.

Lemma through_join_no_image_command (e : env) (sched : list nat) (cfg : config) (h : trace) :
  exists evs,
    snd (through_join e sched cfg h) = h ++ evs /\
    Forall (fun c => is_image_command c = false) (commands evs).
Proof.
  destruct (through_join_trace e cfg h)
    as [(evs & k & err & Hc & Ht) | (pushOutput & digest & Hd & Ht)];
    rewrite (Ht sched).
  - exists evs. split; [reflexivity|]. rewrite Hc. apply Forall_forall. intros c Hin.
    apply In_firstn in Hin. cbn in Hin. destruct Hin as [<-|[<-|[<-|[]]]]; reflexivity.
  - set (ref := imageRepo cfg ++ lit "@" ++ digest).
    destruct (deployServices_sat e
                (fun ev => forall c, command_of ev = Some c -> is_image_command c = false)
                sched cfg ref (h ++ published cfg pushOutput)) as (fan & Hfan & Hf).
    { intros service _. apply deployService_sat.
      - intros m c [=].
      - intros out err c [= <-]. reflexivity.
      - intros err c [= <-]. reflexivity.
      - intros err c [= <-]. reflexivity.
      - intros rev err c [= <-]. reflexivity. }
    exists (published cfg pushOutput ++ fan). rewrite Hfan, <- app_assoc. split; [reflexivity|].
    rewrite commands_app. apply Forall_app. split.
    + repeat constructor.
    + now apply Forall_commands.
Qed.

(** C5. On a beta run no command of the image-cleanup pass is ever issued,
    whatever [keepImgs] is, and no stage before the cleanup stage touches
    the image repository.  On a run that is not beta and whose join
    succeeded, what follows is the cleanup pass and the run returns what
    the pass returns.  The pass lists the tag records and, skipping the
    first [keepImgs] of them and, without error, every record whose digest
    is empty, deletes [repo@digest] for the others in order; the first
    deletion that fails ends the pass, and its error ("delete image ...")
    is the error of the run. *)
Theorem image_cleanup (lib : golib) (e : env) (sched : list nat) (cfg : config) (h : trace) :
  (beta cfg = true ->
   exists evs, snd (run lib e sched cfg h) = h ++ evs /\
     Forall (fun c => is_image_command c = false) (commands evs)) /\
  (exists evs, snd (through_join e sched cfg h) = h ++ evs /\
     Forall (fun c => is_image_command c = false) (commands evs)) /\
  (forall r h', through_join e sched cfg h = (r, h') -> r <> Returned None ->
     run lib e sched cfg h = (r, h')) /\
  (beta cfg = false ->
   forall h', through_join e sched cfg h = (Returned None, h') ->
     run lib e sched cfg h =
       exec e (cleanupOldImages lib cfg (image cfg))
         (h' ++ [Printed (lit "Cleaning up image...")])) /\
  ((0 <= keepImgs cfg)%Z ->
   forall h0 tags,
     let listing := capture_result e h0 (list_tags_command cfg) in
     let refs :=
       map (fun tg => imageRepo cfg ++ lit "@" ++ Digest tg)
           (filter (fun tg => non_empty (Digest tg))
                   (skipn (Z.to_nat (keepImgs cfg)) tags)) in
     snd listing = None -> json_Unmarshal_tags lib (fst listing) = Ok tags ->
     exists r evs ok failure,
       exec e (cleanupOldImages lib cfg (image cfg)) h0 =
         (Returned r, h0 ++ Captured (list_tags_command cfg) (fst listing) None :: evs) /\
       commands evs = map (delete_image_command cfg) (ok ++ map fst failure) /\
       image_deletions evs = map (fun ref => (ref, None)) ok ++ failure /\
       ((failure = [] /\ r = None /\ refs = ok) \/
        (exists ref cause remaining,
           failure = [(ref, Some cause)] /\
           r = Some (Errorf_w (lit "delete image " ++ ref ++ lit ": ") cause []) /\
           refs = ok ++ ref :: remaining))).
Proof.
  split; [|split; [|split; [|split]]].
  - intros Hbeta.
    destruct (through_join_no_image_command e sched cfg h) as (evs & Hevs & Hf).
    exists evs. split; [|exact Hf]. rewrite run_through_join.
    destruct (through_join e sched cfg h) as [[[err|]| |] h'] eqn:Ht; try exact Hevs.
    unfold cleanup_stage. rewrite Hbeta. exact Hevs.
  - apply through_join_no_image_command.
  - intros r h' Ht Hr. rewrite run_through_join, Ht.
    destruct r as [[err|]| |]; congruence.
  - intros Hbeta h' Ht. rewrite run_through_join, Ht. unfold cleanup_stage. rewrite Hbeta.
    reflexivity.
  - intros Hk h0 tags listing refs Hl Hj.
    destruct (cleanupOldImages_exec e lib cfg h0 Hk) as (r & evs & Hex & _ & _ & Htags).
    fold listing in Hex. rewrite Hl in Hex.
    destruct (Htags tags Hl Hj) as (ok & failure & Hdel & Hcmd & Hcase).
    exists r, evs, ok, failure. split; [exact Hex|]. split; [exact Hcmd|]. split; [exact Hdel|].
    rewrite (prune_skipn_keep _ _ Hk) in Hcase. exact Hcase.
Qed.

Lemma run_build_failure_witness :
  run sample_lib (scripted sample_outputs (fun c => streq (cmd_name c) (lit "pnpm")))
    [] (sample_config [lit "api"] false 2) []
  = (Returned (Some (Errorf_w (lit "build project: ") exit_status_1 [])),
     [Printed (lit "Building TS...");
      Streamed (build_command (sample_config [lit "api"] false 2)) (Some exit_status_1)]).
Proof.
  apply (run_build_failure sample_lib
           (scripted sample_outputs (fun c => streq (cmd_name c) (lit "pnpm")))
           [] (sample_config [lit "api"] false 2) [] exit_status_1).
  reflexivity.
Defined.

Lemma run_image_reference_witness :
  In (Streamed (docker_build_command (sample_config [lit "api"] true 2)
                  (lit "asia.gcr.io/proj/web:dev")) None)
     (snd (run sample_lib (scripted sample_outputs nobody) (repeat 0 12)
             (sample_config [lit "api"] true 2) [])) /\
  exists derr,
    In (Streamed (deploy_command (sample_config [lit "api"] true 2) (lit "api")
                    (lit "asia.gcr.io/proj/web@sha256:abc")) derr)
       (snd (run sample_lib (scripted sample_outputs nobody) (repeat 0 12)
               (sample_config [lit "api"] true 2) [])).
Proof.
  destruct (run_image_reference sample_lib (scripted sample_outputs nobody) (repeat 0 12)
              (sample_config [lit "api"] true 2) [])
    as (evs & Hevs & Hbuild & _ & _ & _ & Hdeploy).
  cbn [app] in Hevs. rewrite Hevs. split.
  - destruct (Hbuild eq_refl) as (rest & ->). clear.
    apply in_or_app. right. left. reflexivity.
  - assert (Hrun : run sample_lib (scripted sample_outputs nobody) (repeat 0 12)
                     (sample_config [lit "api"] true 2) []
                   = (Returned None,
                      snd (run sample_lib (scripted sample_outputs nobody) (repeat 0 12)
                             (sample_config [lit "api"] true 2) []))).
    { vm_compute. reflexivity. }
    assert (Hin : In (lit "api") (services (sample_config [lit "api"] true 2)))
      by (left; reflexivity).
    assert (Hg : parseDigest (lit "latest: digest: sha256:abc size: 1") = Ok (lit "sha256:abc"))
      by (vm_compute; reflexivity).
    destruct (Hdeploy (lit "sha256:abc") None _ eq_refl eq_refl eq_refl Hg Hrun (lit "api") Hin)
      as [(out & cause & Hx) | (derr & Hx)].
    + exfalso. clear - Hx Hevs. rewrite <- Hevs in Hx. vm_compute in Hx.
      repeat (destruct Hx as [Hx|Hx]; [discriminate Hx|]). exact Hx.
    + exists derr. exact Hx.
Defined.

Lemma image_cleanup_witness :
  (exists evs,
     snd (run sample_lib (scripted sample_outputs nobody) (repeat 0 20)
            (sample_config [lit "api"] true 1) []) = [] ++ evs /\
     Forall (fun c => is_image_command c = false) (commands evs)) /\
  (let e := scripted sample_outputs is_image_delete in
   let cfg := sample_config [lit "api"] false 1 in
   run sample_lib e (repeat 0 20) cfg [] =
     exec e (cleanupOldImages sample_lib cfg (image cfg))
       (snd (through_join e (repeat 0 20) cfg []) ++ [Printed (lit "Cleaning up image...")])).
Proof.
  split.
  - assert (Hbeta : beta (sample_config [lit "api"] true 1) = true) by reflexivity.
    exact (proj1 (image_cleanup sample_lib (scripted sample_outputs nobody) (repeat 0 20)
                    (sample_config [lit "api"] true 1) []) Hbeta).
  - cbv zeta.
    assert (Hbeta : beta (sample_config [lit "api"] false 1) = false) by reflexivity.
    assert (Hjoin : through_join (scripted sample_outputs is_image_delete) (repeat 0 20)
                      (sample_config [lit "api"] false 1) []
                    = (Returned None,
                       snd (through_join (scripted sample_outputs is_image_delete)
                              (repeat 0 20) (sample_config [lit "api"] false 1) []))).
    { vm_compute. reflexivity. }
    exact (proj1 (proj2 (proj2 (proj2
             (image_cleanup sample_lib (scripted sample_outputs is_image_delete)
                (repeat 0 20) (sample_config [lit "api"] false 1) []))))
             Hbeta _ Hjoin).
Defined.

Example image_cleanup_release_run :
  let cfg := sample_config [lit "api"] false 1 in
  image_deletions
    (snd (run sample_lib (scripted sample_outputs nobody) (repeat 0 20) cfg []))
  = [ (lit "asia.gcr.io/proj/web@d2", None); (lit "asia.gcr.io/proj/web@d3", None) ].
Proof. vm_compute. reflexivity. Qed.

Example image_cleanup_failure_aborts :
  let cfg := sample_config [lit "api"] false 1 in
  let r := run sample_lib (scripted sample_outputs is_image_delete) (repeat 0 20) cfg [] in
  fst r = Returned (Some (Errorf_w (lit "delete image asia.gcr.io/proj/web@d2: ")
                            exit_status_1 [])) /\
  image_deletions (snd r) = [ (lit "asia.gcr.io/proj/web@d2", Some exit_status_1) ].
Proof. vm_compute. split; reflexivity. Qed.

(** * Further properties of the code *)

(** *** Cutting at a one-rune separator *)

Lemma Index_rune_None (c : rune) (s : gostring) : ~ In c s -> Index s [c] = None.
Proof.
  induction s as [|x s IH]; cbn; [reflexivity|]. intros H.
  destruct (N.eqb x c) eqn:Hx; cbn.
  - apply N.eqb_eq in Hx. exfalso. apply H. now left.
  - rewrite IH; [reflexivity|]. intros Hin. apply H. now right.
Qed.

Lemma Index_rune (c : rune) (a b : gostring) :
  ~ In c a -> Index (a ++ c :: b) [c] = Some (length a).
Proof.
  induction a as [|x a IH]; cbn; intros H.
  - now rewrite N.eqb_refl.
  - destruct (N.eqb x c) eqn:Hx; cbn.
    + apply N.eqb_eq in Hx. exfalso. apply H. now left.
    + rewrite IH; [reflexivity|]. intros Hin. apply H. now right.
Qed.

Lemma Contains_rune (c : rune) (s : gostring) : Contains s [c] = false -> ~ In c s.
Proof.
  intros Hc Hin. apply in_split in Hin as (a & b & ->).
  now apply (Contains_false_no_occurrence _ _ a b Hc).
Qed.

Lemma Split_rune_one (c : rune) (s : gostring) : ~ In c s -> Split s [c] = [s].
Proof.
  intros H. rewrite Split_cons by discriminate. now rewrite Index_rune_None.
Qed.

Lemma Split_rune_cons (c : rune) (a b : gostring) :
  ~ In c a -> Split (a ++ c :: b) [c] = a :: Split b [c].
Proof.
  intros H. rewrite Split_cons by discriminate. rewrite Index_rune by assumption.
  rewrite firstn_app, firstn_all, Nat.sub_diag, app_nil_r. cbn [firstn].
  f_equal. rewrite skipn_app.
  rewrite skipn_all2 by (cbn; lia).
  replace (length a + length [c] - length a) with 1 by (cbn; lia). reflexivity.
Qed.

(** Cutting what was joined gives the pieces back. *)
Lemma Split_Join_rune (c : rune) (pieces : list gostring) :
  pieces <> [] -> Forall (fun p => ~ In c p) pieces ->
  Split (Join pieces [c]) [c] = pieces.
Proof.
  induction pieces as [|p pieces IH]; [congruence|]. intros _ Hf.
  apply Forall_cons_iff in Hf as [Hp Hf].
  destruct pieces as [|q pieces].
  - cbn [Join]. now apply Split_rune_one.
  - rewrite Join_cons by discriminate. cbn [app].
    rewrite Split_rune_cons by assumption. f_equal. apply IH; [discriminate | assumption].
Qed.

Lemma Join_app (l1 l2 : list gostring) (sep : gostring) :
  l1 <> [] -> l2 <> [] -> Join (l1 ++ l2) sep = Join l1 sep ++ sep ++ Join l2 sep.
Proof.
  intros H1 H2. induction l1 as [|e l1 IH]; [congruence|].
  destruct l1 as [|e' l1].
  - cbn [app]. now rewrite Join_cons.
  - cbn [app] in *. rewrite Join_cons by discriminate.
    rewrite IH by discriminate. rewrite (Join_cons e (e' :: l1)) by discriminate.
    now rewrite <- !app_assoc.
Qed.

Lemma Split_not_nil (s sep : gostring) : sep <> [] -> Split s sep <> [].
Proof.
  intros Hsep. unfold Split. destruct sep; [congruence|]. apply genSplit_not_nil.
Qed.

(** The pieces of a string that holds a separator rune are the pieces of
    what is before it followed by the pieces of what is after it. *)
Lemma Split_rune_app (c : rune) (a b : gostring) :
  Split (a ++ c :: b) [c] = Split a [c] ++ Split b [c].
Proof.
  assert (Hsep : [c] <> []) by discriminate.
  rewrite <- (Join_Split a [c] Hsep) at 1. rewrite <- (Join_Split b [c] Hsep) at 1.
  change (c :: Join (Split b [c]) [c]) with ([c] ++ Join (Split b [c]) [c]).
  rewrite <- Join_app by now apply Split_not_nil.
  apply Split_Join_rune.
  - intros H. apply app_eq_nil in H as [H _]. now apply (Split_not_nil a [c]).
  - apply Forall_app. split.
    + eapply Forall_impl; [|apply (Split_no_sep a [c] Hsep)]. intros p. apply Contains_rune.
    + eapply Forall_impl; [|apply (Split_no_sep b [c] Hsep)]. intros p. apply Contains_rune.
Qed.

(** *** Trimming padded strings *)

Lemma TrimLeftSpace_all_space (ws : gostring) : all_space ws -> TrimLeftSpace ws = [].
Proof.
  intros H. rewrite <- (app_nil_r ws). now rewrite TrimLeftSpace_spaces.
Qed.

Lemma TrimRightSpace_spaces (s ws : gostring) :
  all_space ws -> TrimRightSpace (s ++ ws) = TrimRightSpace s.
Proof.
  intros H. unfold TrimRightSpace. rewrite rev_app_distr.
  rewrite TrimLeftSpace_spaces by now apply all_space_rev. reflexivity.
Qed.

Lemma TrimLeftSpace_app (s t : gostring) :
  TrimLeftSpace s <> [] -> TrimLeftSpace (s ++ t) = TrimLeftSpace s ++ t.
Proof.
  induction s as [|c s IH]; cbn; [congruence|].
  destruct (isSpace c); [exact IH | reflexivity].
Qed.

Lemma TrimSpace_pad (ws1 s ws2 : gostring) :
  all_space ws1 -> all_space ws2 -> TrimSpace (ws1 ++ s ++ ws2) = TrimSpace s.
Proof.
  intros H1 H2. unfold TrimSpace. rewrite TrimLeftSpace_spaces by assumption.
  destruct (TrimLeftSpace s) as [|c t] eqn:Hs.
  - destruct (TrimLeftSpace_spec s) as (ws & Hws & Hall & _). rewrite Hs, app_nil_r in Hws.
    subst ws. rewrite TrimLeftSpace_spaces, TrimLeftSpace_all_space by assumption. reflexivity.
  - rewrite TrimLeftSpace_app by (rewrite Hs; discriminate). rewrite Hs.
    now apply TrimRightSpace_spaces.
Qed.

Lemma TrimSpace_all_space (ws : gostring) : all_space ws -> TrimSpace ws = [].
Proof.
  intros H. unfold TrimSpace. now rewrite TrimLeftSpace_all_space.
Qed.

Lemma trimmed_name_ends (s : gostring) :
  trimmed_name s ->
  (exists c t, s = c :: t /\ isSpace c = false) /\ (exists t c, s = t ++ [c] /\ isSpace c = false).
Proof.
  intros [Hne Ht]. destruct (TrimSpace_spec s) as (_ & _ & _ & _ & _ & [H|H]).
  - congruence.
  - now rewrite Ht in H.
Qed.

Lemma filter_trimmed_names (names : list gostring) :
  Forall trimmed_name names -> filter non_empty (map TrimSpace names) = names.
Proof.
  induction 1 as [|n names [Hne Ht] _ IH]; [reflexivity|]. cbn. rewrite Ht, IH.
  unfold non_empty. destruct (streq n []) eqn:Hs; [apply streq_nil in Hs; congruence | reflexivity].
Qed.

Lemma TrimSpace_not_In (c : rune) (s : gostring) : ~ In c s -> ~ In c (TrimSpace s).
Proof.
  intros H Hin. apply H. destruct (TrimSpace_spec s) as (ws1 & ws2 & Hs & _).
  rewrite Hs. apply in_or_app. right. apply in_or_app. now left.
Qed.

Lemma parsed_names (c : rune) (s : gostring) (name : gostring) :
  In name (filter non_empty (map TrimSpace (Split s [c]))) ->
  trimmed_name name /\ ~ In c name.
Proof.
  intros Hin. apply filter_In in Hin as [Hin Hne]. apply in_map_iff in Hin as (p & <- & Hp).
  split; [split|].
  - intros H. unfold non_empty in Hne. rewrite H in Hne. discriminate.
  - apply TrimSpace_idem.
  - apply TrimSpace_not_In. apply Contains_rune.
    pose proof (Split_no_sep s [c]) as Hf. rewrite Forall_forall in Hf. apply Hf; [discriminate | exact Hp].
Qed.

Lemma splitServices_Join (names : list gostring) :
  Forall (fun n => trimmed_name n /\ ~ In semicolon n) names ->
  splitServices (Join names (lit ";")) = names.
Proof.
  intros Hf. rewrite splitServices_filter. change (lit ";") with [semicolon].
  destruct names as [|n ns]; [reflexivity|].
  rewrite Split_Join_rune; [|discriminate|].
  - apply filter_trimmed_names. eapply Forall_impl; [|exact Hf]. now intros a [H _].
  - eapply Forall_impl; [|exact Hf]. now intros a [_ H].
Qed.

Lemma splitServices_names (raw : gostring) :
  Forall (fun n => trimmed_name n /\ ~ In semicolon n) (splitServices raw).
Proof.
  apply Forall_forall. intros n Hin. rewrite splitServices_filter in Hin.
  now apply (parsed_names semicolon raw).
Qed.

(** X1. The service list is a normal form of the [--svc] string: a list of
    names that are not empty, have no white space at either end and hold no
    semicolon is read back unchanged from the string that joins them with
    semicolons (order and duplicates kept); every name [splitServices]
    returns is such a name; so joining what it returns and parsing again
    gives the same list. *)
Theorem splitServices_round_trip (raw : gostring) (names : list gostring) :
  (Forall (fun n => trimmed_name n /\ ~ In semicolon n) names ->
   splitServices (Join names (lit ";")) = names) /\
  Forall (fun n => trimmed_name n /\ ~ In semicolon n) (splitServices raw) /\
  splitServices (Join (splitServices raw) (lit ";")) = splitServices raw.
Proof.
  split; [apply splitServices_Join|]. split; [apply splitServices_names|].
  apply splitServices_Join, splitServices_names.
Qed.

Lemma splitServices_round_trip_witness :
  splitServices (Join [lit "api"; lit "web worker"] (lit ";")) = [lit "api"; lit "web worker"].
Proof.
  apply (splitServices_round_trip [] [lit "api"; lit "web worker"]).
  repeat constructor; try discriminate; try reflexivity;
    intros H; vm_compute in H; intuition discriminate.
Defined.
Lemma Join_starts (n : gostring) (rest : list gostring) (sep : gostring) (c : rune) (t : gostring) :
  n = c :: t -> exists t', Join (n :: rest) sep = c :: t'.
Proof.
  intros ->. destruct rest; [now exists t|]. rewrite Join_cons by discriminate. cbn. eauto.
Qed.

Lemma Join_ends (names : list gostring) (sep : gostring) :
  names <> [] ->
  Forall (fun n => exists t c, n = t ++ [c] /\ isSpace c = false) names ->
  exists t c, Join names sep = t ++ [c] /\ isSpace c = false.
Proof.
  induction names as [|n names IH]; [congruence|]. intros _ Hf.
  apply Forall_cons_iff in Hf as [Hn Hf]. destruct names as [|n' names].
  - exact Hn.
  - destruct (IH ltac:(discriminate) Hf) as (t & c & Ht & Hc).
    rewrite Join_cons by discriminate. rewrite Ht.
    exists (n ++ sep ++ t), c. split; [now rewrite <- !app_assoc | exact Hc].
Qed.

Lemma Join_trimmed (names : list gostring) (sep : gostring) :
  Forall trimmed_name names -> TrimSpace (Join names sep) = Join names sep.
Proof.
  intros Hf. apply TrimSpace_fixed. destruct names as [|n names]; [now left|]. right. split.
  - apply Forall_cons_iff in Hf as [Hn _].
    destruct (trimmed_name_ends n Hn) as [(c & t & Hs & Hc) _].
    destruct (Join_starts n names sep c t Hs) as (t' & Ht'). eauto.
  - apply Join_ends; [discriminate|].
    eapply Forall_impl; [|exact Hf]. intros a Ha. now destruct (trimmed_name_ends a Ha).
Qed.

Lemma parse_revisions_filter (output : gostring) :
  parse_revisions output = filter non_empty (map TrimSpace (Split (TrimSpace output) newline)).
Proof. unfold parse_revisions. now rewrite append_trimmed_filter. Qed.

Lemma parse_revisions_round_trip (names : list gostring) :
  Forall revision_name names -> parse_revisions (Join names newline ++ newline) = names.
Proof.
  intros Hf. rewrite parse_revisions_filter.
  assert (Ht : Forall trimmed_name names) by (eapply Forall_impl; [|exact Hf]; now intros a [H _]).
  assert (Hsp : all_space newline) by reflexivity.
  pose proof (TrimSpace_pad [] (Join names newline) newline eq_refl Hsp) as Hp.
  cbn [app] in Hp. rewrite Hp, Join_trimmed by assumption.
  destruct names as [|n names]; [reflexivity|].
  change newline with [line_feed]. rewrite Split_Join_rune; [|discriminate|].
  - now apply filter_trimmed_names.
  - eapply Forall_impl; [|exact Hf]. now intros a [_ H].
Qed.

Lemma parse_revisions_names (output : gostring) : Forall revision_name (parse_revisions output).
Proof.
  apply Forall_forall. intros n Hin. rewrite parse_revisions_filter in Hin.
  now apply (parsed_names line_feed (TrimSpace output)).
Qed.

Lemma parse_revisions_blank (output : gostring) : all_space output -> parse_revisions output = [].
Proof.
  intros H. rewrite parse_revisions_filter, TrimSpace_all_space by assumption. reflexivity.
Qed.

Lemma exec_listRevisions (e : env) (cfg : config) (service : gostring) (h : trace) :
  let c := list_revisions_command cfg service in
  let listing := capture_result e h c in
  exec e (listRevisions cfg service) h =
    (Returned (match snd listing with
               | Some err => Err err
               | None => Ok (parse_revisions (fst listing))
               end),
     h ++ [Captured c (fst listing) (snd listing)]).
Proof.
  intros c listing. unfold listRevisions. cbn.
  change {| cmd_dir := workdir cfg; cmd_name := lit "gcloud";
            cmd_args := [lit "run"; lit "revisions"; lit "list";
                         lit "--region=" ++ region cfg; lit "--service=" ++ service;
                         lit "--format=value(metadata.name)"] |} with c.
  fold listing. destruct (snd listing); reflexivity.
Qed.

(** X2. [listRevisions] reads back a listing that prints one revision name
    per line: when the listing command succeeds and prints names (not empty,
    no white space at either end, no line feed) each followed by a line
    feed, it returns exactly these names and has run only that command;
    whatever the output, the names it returns are of this kind; a blank
    output gives no revision; a failed command gives its error back
    unchanged. *)
Theorem listRevisions_names (e : env) (cfg : config) (service : gostring) (h : trace) :
  let c := list_revisions_command cfg service in
  (forall names,
     Forall revision_name names ->
     capture_result e h c = (Join names newline ++ newline, None) ->
     exec e (listRevisions cfg service) h =
       (Returned (Ok names), h ++ [Captured c (Join names newline ++ newline) None])) /\
  (forall revisions tr,
     exec e (listRevisions cfg service) h = (Returned (Ok revisions), tr) ->
     Forall revision_name revisions) /\
  (snd (capture_result e h c) = None -> all_space (fst (capture_result e h c)) ->
   fst (exec e (listRevisions cfg service) h) = Returned (Ok [])) /\
  (forall err, snd (capture_result e h c) = Some err ->
   fst (exec e (listRevisions cfg service) h) = Returned (Err err)).
Proof.
  intros c. rewrite exec_listRevisions. fold c. split; [|split; [|split]].
  - intros names Hf Hc. rewrite Hc. cbn [fst snd]. now rewrite parse_revisions_round_trip.
  - intros revisions tr. destruct (snd (capture_result e h c)); [discriminate|].
    intros [= <- _]. apply parse_revisions_names.
  - intros -> Hb. cbn [fst]. now rewrite parse_revisions_blank.
  - intros err ->. reflexivity.
Qed.

(** ** Digest extraction, the other way round *)

Lemma parseDigest_loop_inv (lines : list gostring) :
  match parseDigest_loop lines with
  | Ok d => exists pre line post,
      lines = pre ++ line :: post /\
      Forall (fun l => line_digest l = None) pre /\ line_digest line = Some d
  | Err err => err = digest_not_found /\ Forall (fun l => line_digest l = None) lines
  end.
Proof.
  induction lines as [|l lines IH]; [now split|].
  rewrite parseDigest_loop_step. destruct (line_digest l) as [d|] eqn:Hl.
  - exists [], l, lines. repeat split; [constructor | exact Hl].
  - destruct (parseDigest_loop lines) as [d|err].
    + destruct IH as (pre & line & post & -> & Hpre & Hline).
      exists (l :: pre), line, post. repeat split; [now constructor | exact Hline].
    + destruct IH as [-> Hf]. split; [reflexivity | now constructor].
Qed.

Lemma Contains_app_false (a s b substr : gostring) :
  Contains (a ++ s ++ b) substr = false -> Contains s substr = false.
Proof.
  intros H. destruct (Contains s substr) eqn:Hs; [|reflexivity]. exfalso.
  apply Contains_true_occurrence in Hs as (x & y & ->).
  apply (Contains_false_no_occurrence _ _ (a ++ x) (y ++ b) H). now rewrite <- !app_assoc.
Qed.

(** X3. What [parseDigest] returns comes from the transcript: a digest it
    returns is not empty, holds no white space and no marker, and is the
    first token after the first marker of the first line that announces a
    digest, the lines before it announcing none; and the only error it
    returns is the digest-not-found error, and then no line announces a
    digest. *)
Theorem parseDigest_sound (output : gostring) :
  let lines := Split output newline in
  (forall d, parseDigest output = Ok d ->
     d <> [] /\ no_space d /\ Contains d digest_marker = false /\
     exists pre line post a ws tail,
       lines = pre ++ line :: post /\
       Forall (fun l => line_digest l = None) pre /\
       TrimSpace line = a ++ digest_marker ++ ws ++ d ++ tail /\
       Contains a digest_marker = false /\ all_space ws /\
       (tail = [] \/ (exists s t, tail = s :: t /\ isSpace s = true)
                  \/ HasPrefix tail digest_marker = true)) /\
  (forall err, parseDigest output = Err err ->
     err = digest_not_found /\ Forall (fun l => line_digest l = None) lines).
Proof.
  intros lines. unfold parseDigest. fold lines.
  pose proof (parseDigest_loop_inv lines) as Hinv. split.
  - intros d Hd. rewrite Hd in Hinv. destruct Hinv as (pre & line & post & Hl & Hpre & Hline).
    destruct (line_digest_sound line d Hline)
      as (a & stretch & c & ws & tail & Ht & Ha & Hs & Hc & Hst & Hws & Hne & Hns & Htail).
    split; [exact Hne|]. split; [exact Hns|]. split.
    + rewrite Hst in Hs. now apply (Contains_app_false ws d tail).
    + exists pre, line, post, a, ws, (tail ++ c). rewrite Ht, Hst, <- !app_assoc.
      repeat split; try assumption.
      destruct Htail as [-> | (s & t & -> & Hsp)].
      * cbn [app]. destruct Hc as [-> | Hc]; [now left | right; now right].
      * right. left. exists s, (t ++ c). now split.
  - intros err He. now rewrite He in Hinv.
Qed.

Lemma parseDigest_sound_witness :
  lit "sha256:abc" <> [] /\ no_space (lit "sha256:abc").
Proof.
  destruct (parseDigest_sound (lit "latest: digest: sha256:abc size: 1")) as [H _].
  destruct (H (lit "sha256:abc")) as (Hne & Hns & _); [vm_compute; reflexivity|].
  split; [exact Hne | exact Hns].
Defined.

Lemma parseDigest_loop_app (l1 l2 : list gostring) :
  parseDigest_loop (l1 ++ l2) =
    match parseDigest_loop l1 with
    | Ok d => Ok d
    | Err _ => parseDigest_loop l2
    end.
Proof.
  induction l1 as [|l l1 IH]; [reflexivity|]. cbn [app].
  rewrite !parseDigest_loop_step. now destruct (line_digest l).
Qed.

(** X4. [parseDigest] scans a transcript made of two parts in order: on
    [a], a line feed, then [b], it gives what it gives on [a] when that is a
    digest, and what it gives on [b] otherwise. *)
Theorem parseDigest_app (a b : gostring) :
  parseDigest (a ++ newline ++ b) =
    match parseDigest a with
    | Ok d => Ok d
    | Err _ => parseDigest b
    end.
Proof.
  unfold parseDigest. change newline with [line_feed]. cbn [app].
  rewrite Split_rune_app. apply parseDigest_loop_app.
Qed.

(** ** Normalisation of the flags that are matched against tables *)

(** X5. The explicit choice is matched whatever its case and the white
    space around it: two choices whose lower-cased forms differ only by
    surrounding white space select the same tool, or are rejected alike. *)
Theorem determineLanguage_normalized (lib : golib) (fs : filesystem) (wd : gostring)
  (requested other ws1 ws2 : gostring) :
  all_space ws1 -> all_space ws2 ->
  ToLower lib requested = ws1 ++ ToLower lib other ++ ws2 ->
  determineLanguage lib fs wd requested = determineLanguage lib fs wd other.
Proof.
  intros H1 H2 Hl. unfold determineLanguage. rewrite Hl.
  now rewrite (TrimSpace_pad ws1 (ToLower lib other) ws2 H1 H2).
Qed.

Lemma determineLanguage_normalized_witness :
  determineLanguage sample_lib (files []) (lit "/w") (lit "  YARN ")
  = determineLanguage sample_lib (files []) (lit "/w") (lit "yarn").
Proof.
  apply (determineLanguage_normalized sample_lib (files []) (lit "/w")
           (lit "  YARN ") (lit "yarn") (lit "  ") (lit " ")); reflexivity.
Defined.

Lemma HasPrefix_exclusive (s p q : gostring) :
  HasPrefix s p = true -> (forall rest, HasPrefix (p ++ rest) q = false) -> HasPrefix s q = false.
Proof. intros Hp Hq. apply HasPrefix_app in Hp as [rest ->]. apply Hq. Qed.

Ltac hosts_case Hne :=
  try reflexivity; try discriminate;
  repeat match goal with H : _ /\ _ |- _ => destruct H end; try discriminate;
  try match goal with
      | H : lit _ = lit _ |- _ => exfalso; apply (Hne _ _ eq_refl H)
      end.

(** X6. The inferred registry host depends on the region only through its
    trimmed, lower-cased form: white space around the region changes
    nothing; the host is asia.gcr.io exactly when that form starts with
    "asia", eu.gcr.io exactly when it starts with "eu" (the test for
    "europe" adds nothing), us.gcr.io exactly when it starts with "us", and
    gcr.io exactly when it starts with none of the three. *)
Theorem inferRegistryHost_hosts (lib : golib) (region : gostring) :
  let norm := ToLower lib (TrimSpace region) in
  (forall ws1 ws2, all_space ws1 -> all_space ws2 ->
     inferRegistryHost lib (ws1 ++ region ++ ws2) = inferRegistryHost lib region) /\
  (inferRegistryHost lib region = lit "asia.gcr.io" <-> HasPrefix norm (lit "asia") = true) /\
  (inferRegistryHost lib region = lit "eu.gcr.io" <-> HasPrefix norm (lit "eu") = true) /\
  (inferRegistryHost lib region = lit "us.gcr.io" <-> HasPrefix norm (lit "us") = true) /\
  (inferRegistryHost lib region = lit "gcr.io" <->
     HasPrefix norm (lit "asia") = false /\ HasPrefix norm (lit "eu") = false /\
     HasPrefix norm (lit "us") = false).
Proof.
  intros norm. split.
  { intros ws1 ws2 H1 H2. unfold inferRegistryHost. now rewrite TrimSpace_pad. }
  unfold inferRegistryHost. fold norm.
  assert (Heu : HasPrefix norm (lit "europe") = true -> HasPrefix norm (lit "eu") = true).
  { intros H. apply HasPrefix_app in H as [rest ->]. reflexivity. }
  assert (Hx : forall p q, HasPrefix norm p = true ->
                 (forall rest, HasPrefix (p ++ rest) q = false) -> HasPrefix norm q = false).
  { intros p q. apply HasPrefix_exclusive. }
  assert (Hne : forall a b : gostring, streq a b = false -> a = b -> False).
  { intros a b Hs Hab. apply streq_eq in Hab. congruence. }
  destruct (HasPrefix norm (lit "asia")) eqn:Ha.
  - pose proof (Hx (lit "asia") (lit "eu") Ha (fun _ => eq_refl)) as He.
    pose proof (Hx (lit "asia") (lit "us") Ha (fun _ => eq_refl)) as Hu.
    rewrite He, Hu. repeat split; intros; hosts_case Hne.
  - destruct (HasPrefix norm (lit "europe")) eqn:Hep.
    + rewrite (Heu eq_refl). cbn [orb].
      pose proof (Hx (lit "eu") (lit "us") (Heu eq_refl) (fun _ => eq_refl)) as Hu. rewrite Hu.
      repeat split; intros; hosts_case Hne.
    + cbn [orb]. destruct (HasPrefix norm (lit "eu")) eqn:He.
      * pose proof (Hx (lit "eu") (lit "us") He (fun _ => eq_refl)) as Hu. rewrite Hu.
        repeat split; intros; hosts_case Hne.
      * destruct (HasPrefix norm (lit "us")) eqn:Hu; repeat split; intros; hosts_case Hne.
Qed.

Lemma inferRegistryHost_hosts_witness :
  inferRegistryHost sample_lib (lit " Europe-West1 ") = inferRegistryHost sample_lib (lit "Europe-West1")
  /\ inferRegistryHost sample_lib (lit "Europe-West1") = lit "eu.gcr.io".
Proof.
  destruct (inferRegistryHost_hosts sample_lib (lit "Europe-West1")) as (Hpad & _ & Heu & _).
  split.
  - apply (Hpad (lit " ") (lit " ")); reflexivity.
  - apply Heu. reflexivity.
Defined.

(** ** Configuration *)

Lemma TrimSpace_nil_all_space (s : gostring) : TrimSpace s = [] <-> all_space s.
Proof.
  split; [|apply TrimSpace_all_space]. intros H.
  destruct (TrimSpace_spec s) as (ws1 & ws2 & Hs & H1 & H2 & _). rewrite H in Hs. cbn in Hs.
  rewrite Hs. unfold all_space in *. rewrite forallb_app. now rewrite H1, H2.
Qed.

Lemma splitServices_not_nil (raw : gostring) :
  splitServices raw <> [] <->
  exists seg, In seg (Split raw (lit ";")) /\ ~ all_space seg.
Proof.
  rewrite splitServices_filter. split.
  - intros H. destruct (filter non_empty (map TrimSpace (Split raw (lit ";")))) as [|n ns] eqn:Hf;
      [congruence|].
    assert (Hin : In n (filter non_empty (map TrimSpace (Split raw (lit ";")))))
      by (rewrite Hf; now left).
    apply filter_In in Hin as [Hin Hne]. apply in_map_iff in Hin as (seg & <- & Hseg).
    exists seg. split; [exact Hseg|]. intros Hall. apply TrimSpace_nil_all_space in Hall.
    unfold non_empty in Hne. rewrite Hall in Hne. discriminate.
  - intros (seg & Hseg & Hns) H.
    assert (Hin : In (TrimSpace seg) (filter non_empty (map TrimSpace (Split raw (lit ";"))))).
    { apply filter_In. split; [now apply in_map|]. unfold non_empty.
      destruct (streq (TrimSpace seg) []) eqn:Hs; [|reflexivity].
      apply streq_nil, TrimSpace_nil_all_space in Hs. contradiction. }
    rewrite H in Hin. contradiction.
Qed.

Lemma inferRegistryHost_not_nil (lib : golib) (region0 : gostring) :
  inferRegistryHost lib region0 <> [].
Proof.
  unfold inferRegistryHost.
  repeat match goal with |- context [if ?b then _ else _] => destruct b end; discriminate.
Qed.

(** What [parseConfig] has checked when it accepts. *)
Lemma parseConfig_Ok (lib : golib) (fl : flags) (getwd : result gostring) (now : Z)
  (cfg : config) :
  parseConfig lib fl getwd now = Ok cfg ->
  flag_image fl <> [] /\ splitServices (flag_svc fl) <> [] /\
  (1 <= flag_keep_images fl)%Z /\ (1 <= flag_keep_revisions fl)%Z /\
  flag_project fl <> [] /\ flag_region fl <> [] /\
  exists wd, getwd = Ok wd /\
    cfg = {| image := flag_image fl; beta := flag_beta fl;
             services := splitServices (flag_svc fl); workdir := wd; start := now;
             keepImgs := flag_keep_images fl; keepRevs := flag_keep_revisions fl;
             project := flag_project fl; region := flag_region fl;
             registryHost :=
               if streq (TrimSpace (flag_registry_host fl)) []
               then inferRegistryHost lib (flag_region fl)
               else TrimSpace (flag_registry_host fl) |}.
Proof.
  unfold parseConfig.
  destruct (streq (flag_image fl) []) eqn:Hi; [discriminate|].
  destruct (streq (flag_svc fl) []) eqn:Hs; [discriminate|].
  destruct (splitServices (flag_svc fl)) as [|s0 ss] eqn:Hsv; [discriminate|]. cbn [length Nat.eqb].
  destruct (flag_keep_images fl <? 1)%Z eqn:Hki; [discriminate|].
  destruct (flag_keep_revisions fl <? 1)%Z eqn:Hkr; [discriminate|].
  destruct (streq (flag_project fl) []) eqn:Hp; [discriminate|].
  destruct (streq (flag_region fl) []) eqn:Hr; [discriminate|].
  destruct getwd as [wd|err]; [|discriminate]. intros [= <-].
  apply Z.ltb_ge in Hki, Hkr.
  repeat split; try assumption; try discriminate;
    try (intros H; apply streq_nil in H; congruence).
  exists wd. split; reflexivity.
Qed.

(** X7. [parseConfig] accepts the flags exactly when the image name is not
    empty, the [--svc] string has a segment that is not blank, both
    retention counts are at least 1, project and region are not empty, and
    the working directory could be determined. *)
Theorem parseConfig_accepts (lib : golib) (fl : flags) (getwd : result gostring) (now : Z) :
  (exists cfg, parseConfig lib fl getwd now = Ok cfg) <->
  flag_image fl <> [] /\
  (exists seg, In seg (Split (flag_svc fl) (lit ";")) /\ ~ all_space seg) /\
  (1 <= flag_keep_images fl)%Z /\ (1 <= flag_keep_revisions fl)%Z /\
  flag_project fl <> [] /\ flag_region fl <> [] /\
  (exists wd, getwd = Ok wd).
Proof.
  split.
  - intros (cfg & H). apply parseConfig_Ok in H as (Hi & Hs & Hki & Hkr & Hp & Hr & wd & Hwd & _).
    repeat split; try assumption; [now apply splitServices_not_nil | now exists wd].
  - intros (Hi & Hs & Hki & Hkr & Hp & Hr & wd & ->).
    apply splitServices_not_nil in Hs as Hsv. unfold parseConfig.
    destruct (streq (flag_image fl) []) eqn:Ei; [apply streq_nil in Ei; contradiction|].
    destruct (streq (flag_svc fl) []) eqn:Es.
    { apply streq_nil in Es. rewrite Es in Hsv. exfalso. now apply Hsv. }
    destruct (splitServices (flag_svc fl)) as [|s0 ss]; [congruence|]. cbn [length Nat.eqb].
    destruct (flag_keep_images fl <? 1)%Z eqn:Eki; [apply Z.ltb_lt in Eki; lia|].
    destruct (flag_keep_revisions fl <? 1)%Z eqn:Ekr; [apply Z.ltb_lt in Ekr; lia|].
    destruct (streq (flag_project fl) []) eqn:Ep; [apply streq_nil in Ep; contradiction|].
    destruct (streq (flag_region fl) []) eqn:Er; [apply streq_nil in Er; contradiction|].
    eauto.
Qed.

(** X8. A configuration that [parseConfig] returns carries the flags and is
    well formed: image, project and region are the flags' and not empty;
    the services are at least one, each a non-empty name without white
    space at either end and without semicolon; both retention counts are
    the flags' and at least 1; the working directory is the one found; and
    the registry host is not empty: the trimmed [--registry-host] when that
    is not blank, the host inferred from the region otherwise. *)
Theorem parseConfig_validated (lib : golib) (fl : flags) (getwd : result gostring) (now : Z)
  (cfg : config) :
  parseConfig lib fl getwd now = Ok cfg ->
  (image cfg = flag_image fl /\ image cfg <> []) /\
  (services cfg <> [] /\
   Forall (fun n => trimmed_name n /\ ~ In semicolon n) (services cfg)) /\
  (keepImgs cfg = flag_keep_images fl /\ 1 <= keepImgs cfg)%Z /\
  (keepRevs cfg = flag_keep_revisions fl /\ 1 <= keepRevs cfg)%Z /\
  (project cfg = flag_project fl /\ project cfg <> []) /\
  (region cfg = flag_region fl /\ region cfg <> []) /\
  getwd = Ok (workdir cfg) /\ start cfg = now /\ beta cfg = flag_beta fl /\
  registryHost cfg <> [] /\
  (if streq (TrimSpace (flag_registry_host fl)) []
   then registryHost cfg = inferRegistryHost lib (flag_region fl)
   else registryHost cfg = TrimSpace (flag_registry_host fl)).
Proof.
  intros H. apply parseConfig_Ok in H as (Hi & Hs & Hki & Hkr & Hp & Hr & wd & Hwd & ->).
  cbn [image services keepImgs keepRevs project region workdir start beta registryHost].
  repeat split; try assumption.
  - apply splitServices_names.
  - destruct (streq (TrimSpace (flag_registry_host fl)) []) eqn:Hh.
    + apply inferRegistryHost_not_nil.
    + intros Hn. rewrite Hn in Hh. discriminate.
  - now destruct (streq (TrimSpace (flag_registry_host fl)) []).
Qed.

Lemma parseConfig_accepts_witness :
  exists cfg, parseConfig sample_lib (sample_flags (lit " api ;; web ")) (Ok (lit "/w")) 0 = Ok cfg.
Proof.
  apply (proj2 (parseConfig_accepts sample_lib (sample_flags (lit " api ;; web "))
                  (Ok (lit "/w")) 0)).
  repeat split; try discriminate; try (cbn; lia).
  - exists (lit " api "). split; [vm_compute; auto | discriminate].
  - now exists (lit "/w").
Defined.

Lemma parseConfig_validated_witness :
  exists cfg,
    parseConfig sample_lib (sample_flags (lit " api ;; web ")) (Ok (lit "/w")) 0 = Ok cfg /\
    services cfg <> [] /\ (1 <= keepRevs cfg)%Z /\ (1 <= keepImgs cfg)%Z /\
    registryHost cfg <> [].
Proof.
  destruct (parseConfig sample_lib (sample_flags (lit " api ;; web ")) (Ok (lit "/w")) 0)
    as [cfg|err] eqn:H; [|vm_compute in H; discriminate].
  exists cfg. split; [reflexivity|].
  destruct (parseConfig_validated sample_lib (sample_flags (lit " api ;; web "))
              (Ok (lit "/w")) 0 cfg H)
    as (_ & (Hs & _) & (_ & Hki) & (_ & Hkr) & _ & _ & _ & _ & _ & Hh & _).
  repeat split; assumption.
Defined.

(** ** A task that stops at its first failing command *)

Lemma exec_fail_fast (e : env) (t : task (option goerror)) (h : trace) :
  fail_fast t -> no_panic t ->
  exists r evs,
    exec e t h = (Returned r, h ++ evs) /\
    match r with
    | None => Forall succeeded evs
    | Some err =>
        exists done last cause before after,
          evs = done ++ [last] /\ Forall succeeded done /\ failed_with last cause /\
          err = Errorf_w before cause after
    end.
Proof.
  revert h; induction t as [r| |c k IH|c k IH|m k IH]; intros h Hf Hn; cbn in Hf, Hn.
  - subst r. exists None, []. cbn. rewrite app_nil_r. split; [reflexivity | constructor].
  - contradiction.
  - destruct Hf as [Hfail Hok]. cbn [exec].
    destruct (streaming_result e h c) as [cause|] eqn:Hr.
    + destruct (Hfail cause) as (before & after & ->). cbn [exec].
      exists (Some (Errorf_w before cause after)), [Streamed c (Some cause)].
      split; [reflexivity|]. exists [], (Streamed c (Some cause)), cause, before, after.
      repeat split. constructor.
    + destruct (IH None (h ++ [Streamed c None]) Hok (Hn None)) as (r & evs & Hex & Hr').
      exists r, (Streamed c None :: evs). rewrite Hex, <- app_assoc. split; [reflexivity|].
      destruct r as [err|].
      * destruct Hr' as (done & last & cause & before & after & -> & Hd & Hl & ->).
        exists (Streamed c None :: done), last, cause, before, after.
        repeat split; [now constructor | exact Hl].
      * now constructor.
  - destruct Hf as [Hfail Hok]. cbn [exec].
    destruct (capture_result e h c) as [out [cause|]] eqn:Hr; cbn [fst snd].
    + destruct (Hfail out cause) as (before & after & ->). cbn [exec].
      exists (Some (Errorf_w before cause after)), [Captured c out (Some cause)].
      split; [reflexivity|]. exists [], (Captured c out (Some cause)), cause, before, after.
      repeat split. constructor.
    + destruct (IH (out, None) (h ++ [Captured c out None]) (Hok out) (Hn (out, None))) as (r & evs & Hex & Hr').
      exists r, (Captured c out None :: evs). rewrite Hex, <- app_assoc. split; [reflexivity|].
      destruct r as [err|].
      * destruct Hr' as (done & last & cause & before & after & -> & Hd & Hl & ->).
        exists (Captured c out None :: done), last, cause, before, after.
        repeat split; [now constructor | exact Hl].
      * now constructor.
  - cbn [exec]. destruct (IH (h ++ [Printed m]) Hf Hn) as (r & evs & Hex & Hr').
    exists r, (Printed m :: evs). rewrite Hex, <- app_assoc. split; [reflexivity|].
    destruct r as [err|].
    + destruct Hr' as (done & last & cause & before & after & -> & Hd & Hl & ->).
      exists (Printed m :: done), last, cause, before, after.
      repeat split; [constructor; [exact I | exact Hd] | exact Hl].
    + constructor; [exact I | exact Hr'].
Qed.

Lemma failed_not_succeeded (ev : event) (cause : goerror) :
  failed_with ev cause -> ~ succeeded ev.
Proof. destruct ev; cbn; congruence. Qed.

Lemma deleteRevisions_fail_fast (cfg : config) (revs : list gostring) :
  fail_fast (deleteRevisions cfg revs).
Proof.
  induction revs as [|rev rest IH]; cbn; [reflexivity|].
  split; [intros cause; cbn; eauto | exact IH].
Qed.

Lemma deployService_fail_fast (cfg : config) (service image0 : gostring) :
  fail_fast (deployService cfg service image0).
Proof.
  unfold deployService. cbn. split; [intros out cause; cbn; eauto|].
  intros out. cbn. split; [intros cause; cbn; eauto|]. cbn.
  split; [intros cause; cbn; eauto|]. cbn.
  destruct (Z.of_nat (length (append_trimmed (Split (TrimSpace out) newline) []))
            <=? keepRevs cfg)%Z; [reflexivity|].
  destruct (slice_from _ (keepRevs cfg)); [apply deleteRevisions_fail_fast | exact I].
Qed.

(** X9. A service's task stops at its first failing command: with a
    retention count that is not negative it returns, and it returns no
    error exactly when every command it ran succeeded; when it returns an
    error, the failed command is the last thing it did, every command
    before it succeeded, and the error wraps that command's error with
    nothing after it. *)
Theorem deployService_first_failure (e : env) (cfg : config) (service image0 : gostring)
  (h : trace) :
  (0 <= keepRevs cfg)%Z ->
  exists r evs,
    exec e (deployService cfg service image0) h = (Returned r, h ++ evs) /\
    (r = None <-> Forall succeeded evs) /\
    (forall err, r = Some err ->
       exists done last cause before,
         evs = done ++ [last] /\ Forall succeeded done /\ failed_with last cause /\
         err = Errorf_w before cause []).
Proof.
  intros Hk.
  destruct (exec_fail_fast e _ h (deployService_fail_fast cfg service image0)
              (deployService_no_panic cfg service image0 Hk))
    as (r & evs & Hex & Hr).
  exists r, evs. split; [exact Hex|]. destruct r as [err|].
  - destruct Hr as (done & last & cause & before & after & -> & Hd & Hl & ->). split.
    + split; [discriminate|]. intros Hf. exfalso.
      apply Forall_app in Hf as [_ Hf]. apply Forall_cons_iff in Hf as [Hs _].
      now apply (failed_not_succeeded last cause).
    + intros err' [= <-].
      destruct (exec_sat e (fun _ => True) (fails_as service) _ h
                  (all_true_sat cfg service image0)) as (_ & _ & _ & Hq).
      rewrite Hex in Hq. specialize (Hq _ eq_refl _ eq_refl).
      assert (after = []) as -> by (inversion Hq; reflexivity).
      now exists done, last, cause, before.
  - split; [now split | discriminate].
Qed.

Lemma deleteImages_fail_fast (cfg : config) (repo : gostring) (tags : list tag) :
  fail_fast (deleteImages cfg repo tags).
Proof.
  induction tags as [|tg rest IH]; cbn; [reflexivity|].
  destruct (streq (Digest tg) []); [exact IH|]. cbn.
  split; [intros cause; cbn; eauto | exact IH].
Qed.

(** X10. The cleanup pass starts with the tag listing.  When the listing
    fails, or its output cannot be parsed, nothing else is run and the
    error says so (with the output of the failed listing after a line
    feed).  The pass returns no error exactly when the listing succeeded,
    was parsed and every deletion it ran succeeded; and a failed deletion
    is the last command of the pass, after deletions that all succeeded. *)
Theorem cleanupOldImages_outcome (e : env) (lib : golib) (cfg : config) (h : trace) :
  (0 <= keepImgs cfg)%Z ->
  let c := list_tags_command cfg in
  let listing := capture_result e h c in
  exists r evs,
    exec e (cleanupOldImages lib cfg (image cfg)) h =
      (Returned r, h ++ Captured c (fst listing) (snd listing) :: evs) /\
    (forall cause, snd listing = Some cause ->
       evs = [] /\
       r = Some (Errorf_w (lit "list image tags: ") cause (newline ++ fst listing))) /\
    (forall cause, snd listing = None -> json_Unmarshal_tags lib (fst listing) = Err cause ->
       evs = [] /\ r = Some (Errorf_w (lit "parse image tags json: ") cause [])) /\
    (r = None <->
     snd listing = None /\ (exists tags, json_Unmarshal_tags lib (fst listing) = Ok tags) /\
     Forall succeeded evs) /\
    (forall tags, snd listing = None -> json_Unmarshal_tags lib (fst listing) = Ok tags ->
     forall err, r = Some err ->
       exists done last cause before,
         evs = done ++ [last] /\ Forall succeeded done /\ failed_with last cause /\
         err = Errorf_w before cause []).
Proof.
  intros Hk c listing. unfold cleanupOldImages. cbn.
  change (registryHost cfg ++ lit "/" ++ project cfg ++ lit "/" ++ image cfg)
    with (imageRepo cfg).
  change {| cmd_dir := workdir cfg; cmd_name := lit "gcloud";
            cmd_args := [lit "container"; lit "images"; lit "list-tags"; imageRepo cfg;
                         lit "--format=json"] |} with c.
  fold listing.
  set (h1 := h ++ [Captured c (fst listing) (snd listing)]).
  assert (Hh1 : forall evs, h1 ++ evs = h ++ Captured c (fst listing) (snd listing) :: evs).
  { intros evs. unfold h1. now rewrite <- app_assoc. }
  destruct (snd listing) as [lerr|] eqn:Hl; cbn.
  { do 2 eexists. rewrite <- Hh1, app_nil_r. split; [reflexivity|].
    repeat split; try discriminate; try congruence.
    - intros (H & _). discriminate. }
  destruct (json_Unmarshal_tags lib (fst listing)) as [tags|jerr] eqn:Hj; cbn.
  2:{ do 2 eexists. rewrite <- Hh1, app_nil_r. split; [reflexivity|].
      repeat split; try discriminate; try congruence.
      intros (_ & (tags & H) & _). discriminate. }
  assert (Hdone : forall r evs,
            (match r with
             | None => Forall succeeded evs
             | Some err =>
                 exists done last cause before after,
                   evs = done ++ [last] /\ Forall succeeded done /\ failed_with last cause /\
                   err = Errorf_w before cause after
             end) ->
            (forall err, r = Some err -> exists b c0, err = Errorf_w b c0 []) ->
            (r = None <->
             @None goerror = None /\ (exists tags0, @Ok (list tag) tags = Ok tags0) /\
             Forall succeeded evs) /\
            (forall tags0 : list tag, @None goerror = None -> @Ok (list tag) tags = Ok tags0 ->
             forall err, r = Some err ->
               exists done last cause before,
                 evs = done ++ [last] /\ Forall succeeded done /\ failed_with last cause /\
                 err = Errorf_w before cause [])).
  { intros r evs Hr Hshape. destruct r as [err|].
    - destruct Hr as (done & last & cause & before & after & -> & Hd & Hlast & ->). split.
      + split; [discriminate|]. intros (_ & _ & Hf). exfalso.
        apply Forall_app in Hf as [_ Hf]. apply Forall_cons_iff in Hf as [Hs _].
        now apply (failed_not_succeeded last cause).
      + intros tags0 _ _ err' [= <-]. destruct (Hshape _ eq_refl) as (b & c0 & [= -> -> ->]).
        now exists done, last, c0, b.
    - split; [|discriminate]. split; [intros _|reflexivity]. repeat split; eauto. }
  destruct (Z.of_nat (length tags) <=? keepImgs cfg)%Z eqn:Hlen.
  { exists None, []. cbn [exec]. rewrite <- Hh1, app_nil_r. split; [reflexivity|].
    split; [discriminate|]. split; [discriminate|]. apply Hdone; [constructor | discriminate]. }
  rewrite (slice_from_prune _ _ Hk Hlen).
  destruct (exec_fail_fast e _ h1
              (deleteImages_fail_fast cfg (imageRepo cfg) (prune tags (keepImgs cfg)))
              (deleteImages_no_panic cfg (imageRepo cfg) (prune tags (keepImgs cfg))))
    as (r & evs & Hex & Hr).
  exists r, evs. rewrite Hex, Hh1. split; [reflexivity|].
  split; [discriminate|]. split; [discriminate|]. apply Hdone; [exact Hr|].
  intros err ->.
  destruct (exec_deleteImages e cfg (imageRepo cfg) (prune tags (keepImgs cfg)) h1)
    as (r' & evs' & ok & failure & Hex' & _ & _ & Hcase).
  rewrite Hex in Hex'. injection Hex' as <- _.
  destruct Hcase as [(_ & [=] & _) | (rf & cause & remaining & _ & [= ->] & _)]. eauto.
Qed.

Lemma deployService_first_failure_witness :
  exists r evs,
    exec (scripted sample_outputs is_revision_delete)
         (deployService (sample_config [lit "api"] false 2) (lit "api") (lit "img")) []
    = (Returned r, [] ++ evs) /\
    (r = None <-> Forall succeeded evs).
Proof.
  assert (H0 : (0 <= keepRevs (sample_config [lit "api"] false 2))%Z) by (cbn; lia).
  destruct (deployService_first_failure (scripted sample_outputs is_revision_delete)
              (sample_config [lit "api"] false 2) (lit "api") (lit "img") [] H0)
    as (r & evs & Hex & Hiff & _).
  exists r, evs. split; [exact Hex | exact Hiff].
Defined.

Lemma cleanupOldImages_outcome_witness :
  exists r evs,
    exec (scripted sample_outputs is_image_delete)
         (cleanupOldImages sample_lib (sample_config [lit "api"] false 1)
            (image (sample_config [lit "api"] false 1))) []
    = (Returned r,
       [] ++ Captured (list_tags_command (sample_config [lit "api"] false 1))
               (lit "d1,d2,,d3") None :: evs) /\
    (r = None <->
     @None goerror = None /\
     (exists tags, json_Unmarshal_tags sample_lib (lit "d1,d2,,d3") = Ok tags) /\
     Forall succeeded evs).
Proof.
  assert (H0 : (0 <= keepImgs (sample_config [lit "api"] false 1))%Z) by (cbn; lia).
  destruct (cleanupOldImages_outcome (scripted sample_outputs is_image_delete) sample_lib
              (sample_config [lit "api"] false 1) [] H0)
    as (r & evs & Hex & _ & _ & Hiff & _).
  exists r, evs. split; [exact Hex | exact Hiff].
Defined.

(** ** What a successful task has done *)

Section Done.

Variable e : env.
Variable X : gostring -> event -> Prop.
Variable h0 : trace.

Lemma fanout_done_step (ss : list gostring) (st : fanout) (i : nat) (body : task (option goerror))
  (g' : goroutine) (new : list event) (errs' : list goerror) :
  fanout_done X h0 ss st ->
  nth_error (pool st) i = Some (Running body) ->
  (forall s, passes_through (X s) (fun r => r = None) body ->
             Exists (X s) new \/ goroutine_owes (X s) g') ->
  fanout_done X h0 ss {| pool := set_nth i g' (pool st); errs := errs';
                         hist := hist st ++ new |}.
Proof.
  intros (evs & Hh & Hf) Hi Hstep. exists (evs ++ new). cbn [hist pool].
  split; [now rewrite Hh, app_assoc|].
  destruct (Forall2_nth_error _ _ _ _ _ Hf Hi) as (s & Hs & Hg).
  eapply Forall2_set_nth; [|exact Hs|].
  - eapply Forall2_impl; [|exact Hf]. intros a b [Hex|Ho]; [left|now right].
    apply Exists_app. now left.
  - destruct Hg as [Hex|Ho]; [left; apply Exists_app; now left|].
    destruct (Hstep s Ho) as [Hex|Ho']; [left; apply Exists_app; now right | now right].
Qed.

Lemma turn_done (ss : list gostring) (i : nat) (st st' : fanout) :
  fanout_done X h0 ss st -> turn e i st = Some st' -> fanout_done X h0 ss st'.
Proof.
  intros Hinv. unfold turn.
  destruct (nth_error (pool st) i) as [g|] eqn:Hi; [|now intros [= <-]].
  destruct g as [body|r]; [|now intros [= <-]].
  destruct body as [r| |c k|c k|m k]; [| discriminate | | |]; intros [= <-].
  - rewrite <- (app_nil_r (hist st)).
    apply (fanout_done_step ss st i (Return r) (Finished r) [] _ Hinv Hi).
    intros s Ho. right. exact Ho.
  - apply (fanout_done_step ss st i (RunStreaming c k) _ _ _ Hinv Hi).
    intros s Ho. cbn in Ho.
    destruct (Ho (streaming_result e (hist st) c)) as [Hx|Hk]; [left; now constructor | now right].
  - apply (fanout_done_step ss st i (RunCapture c k) _ _ _ Hinv Hi).
    intros s Ho. cbn in Ho.
    destruct (Ho (capture_result e (hist st) c)) as [Hx|Hk]; [left; now constructor | now right].
  - apply (fanout_done_step ss st i (LogStep m k) _ _ _ Hinv Hi).
    intros s Ho. cbn in Ho.
    destruct Ho as [Hx|Hk]; [left; now constructor | now right].
Qed.

Lemma turns_done (ss : list gostring) (sched : list nat) (st st' : fanout) :
  fanout_done X h0 ss st -> turns e sched st = inl st' -> fanout_done X h0 ss st'.
Proof.
  revert st; induction sched as [|i sched IH]; intros st Hinv; cbn.
  - now intros [= <-].
  - destruct (turn e i st) as [st1|] eqn:Ht; [|discriminate].
    apply IH. eapply turn_done; eauto.
Qed.

End Done.

Lemma started_done (X : gostring -> event -> Prop) (cfg : config) (image0 : gostring)
  (h : trace) :
  (forall s, In s (services cfg) ->
     passes_through (X s) (fun r => r = None) (deployService cfg s image0)) ->
  fanout_done X h (services cfg) (started cfg image0 h).
Proof.
  intros H. exists []. cbn [started hist pool]. split; [now rewrite app_nil_r|].
  revert H. generalize (services cfg) as ss.
  induction ss as [|s ss IH]; intros H; cbn [map]; constructor.
  - right. apply H. now left.
  - apply IH. intros s' Hin. apply H. now right.
Qed.

(** When the join returns no error every goroutine has finished without
    one. *)
Lemma deployServices_None (e : env) (sched : list nat) (cfg : config) (image0 : gostring)
  (h tr : trace) :
  deployServices e sched cfg image0 h = (Returned None, tr) ->
  exists st, turns e sched (started cfg image0 h) = inl st /\ hist st = tr /\
    Forall (fun g => g = Finished None) (pool st).
Proof.
  rewrite deployServices_started.
  pose proof (turns_inv e (fun _ => True) fails_as (services cfg) sched _
                (started_inv _ cfg image0 h (fun s _ => all_true_sat cfg s image0))) as Hinv.
  destruct (turns e sched (started cfg image0 h)) as [st|h']; [|discriminate].
  destruct Hinv as ((Hsat & Hperm) & _).
  destruct (forallb is_finished (pool st)) eqn:Hfin; [|discriminate].
  destruct (finished_results _ Hfin) as (results & Hpool & Hfail).
  rewrite Hpool in Hsat. apply Forall2_finished in Hsat. rewrite Hfail in Hperm.
  pose proof (failures_service_failure _ _ Hsat) as Hsf.
  assert (Hmsg : Forall (fun err => Error err <> []) (errs st)).
  { rewrite Forall_forall in *. intros err Hin.
    destruct (Hsf err) as (s & _ & Hs); [eapply Permutation_in; eauto|].
    eapply service_failure_message; eauto. }
  destruct (drain_join _ Hmsg) as [_ Hnil].
  destruct (0 <? length (drain (errs st) []))%nat eqn:Hlen; [discriminate|].
  intros [= <-]. exists st. split; [reflexivity|]. split; [reflexivity|].
  apply length_zero_ltb, Hnil in Hlen. rewrite Hlen in Hperm. apply Permutation_nil in Hperm.
  rewrite Hpool. clear - Hperm. induction results as [|r results IH]; cbn; constructor.
  - destruct r; [discriminate | reflexivity].
  - apply IH. destruct r; [discriminate | exact Hperm].
Qed.

Lemma fanout_success (e : env) (X : gostring -> event -> Prop) (sched : list nat)
  (cfg : config) (image0 : gostring) (h tr : trace) :
  (forall s, In s (services cfg) ->
     passes_through (X s) (fun r => r = None) (deployService cfg s image0)) ->
  deployServices e sched cfg image0 h = (Returned None, tr) ->
  exists evs, tr = h ++ evs /\ forall s, In s (services cfg) -> Exists (X s) evs.
Proof.
  intros HX Hd. destruct (deployServices_None _ _ _ _ _ _ Hd) as (st & Ht & <- & Hfin).
  destruct (turns_done e X h (services cfg) sched _ st (started_done X cfg image0 h HX) Ht)
    as (evs & Hh & Hf).
  exists evs. split; [exact Hh|]. intros s Hin.
  clear - Hf Hfin Hin. induction Hf as [|s0 g ss gs Hg Hf IH]; [contradiction|].
  apply Forall_cons_iff in Hfin as [-> Hfin]. destruct Hin as [<-|Hin]; [|now apply IH].
  destruct Hg as [Hex|Ho]; [exact Hex | now cbn in Ho].
Qed.

(** *** No failure is lost *)

Lemma Exists_set_nth {A : Type} (P : A -> Prop) (l : list A) (i : nat) (x y : A) :
  nth_error l i = Some x -> (P x -> P y) -> Exists P l -> Exists P (set_nth i y l).
Proof.
  intros Hi Hxy Hex. destruct (set_nth_split l i x Hi) as (l1 & l2 & Hl & _ & Hset).
  rewrite Hset. rewrite Hl in Hex. apply Exists_app in Hex as [H|H]; apply Exists_app.
  - now left.
  - right. apply Exists_cons in H as [H|H]; [left; auto | now right].
Qed.

Lemma Exists_set_nth_here {A : Type} (P : A -> Prop) (l : list A) (i : nat) (x y : A) :
  nth_error l i = Some x -> P y -> Exists P (set_nth i y l).
Proof.
  intros Hi Hy. destruct (set_nth_split l i x Hi) as (l1 & l2 & _ & _ & Hset).
  rewrite Hset. apply Exists_app. right. now left.
Qed.

Lemma turn_clean (e : env) (h0 : trace) (i : nat) (st st' : fanout) :
  fanout_clean h0 st -> turn e i st = Some st' -> fanout_clean h0 st'.
Proof.
  intros (Hff & evs & Hh & Hc). unfold turn.
  destruct (nth_error (pool st) i) as [g|] eqn:Hi; [|intros [= <-]; split; eauto].
  destruct g as [body|r]; [|intros [= <-]; split; eauto].
  assert (Hb : goroutine_fail_fast (Running body)).
  { apply nth_error_In in Hi. rewrite Forall_forall in Hff. apply (Hff _ Hi). }
  cbn in Hb.
  destruct body as [r| |c k|c k|m k]; [| discriminate | | |]; intros [= <-];
    unfold fanout_clean; cbn [pool hist].
  - split; [apply Forall_set_nth; [assumption | exact I]|].
    exists evs. split; [exact Hh|]. destruct Hc as [Hc|Hc]; [now left|]. right.
    eapply Exists_set_nth; [exact Hi| |exact Hc].
    intros (err & [[= ->]|[=]]). exists err. now right.
  - destruct Hb as [[Hfail Hok]|(err & [=])].
    destruct (streaming_result e (hist st) c) as [cause|] eqn:Hr.
    + destruct (Hfail cause) as (before & after & Hk). rewrite Hk. split.
      * apply Forall_set_nth; [assumption|]. right. eauto.
      * eexists. split; [rewrite Hh, <- app_assoc; reflexivity|]. right.
        eapply Exists_set_nth_here; [exact Hi|]. eexists. left. reflexivity.
    + split; [apply Forall_set_nth; [assumption | now left]|].
      eexists. split; [rewrite Hh, <- app_assoc; reflexivity|].
      destruct Hc as [Hc|Hc].
      * left. apply Forall_app. split; [exact Hc | now repeat constructor].
      * right. eapply Exists_set_nth; [exact Hi| |exact Hc]. intros (err & [[=]|[=]]).
  - destruct Hb as [[Hfail Hok]|(err & [=])].
    destruct (capture_result e (hist st) c) as [out [cause|]] eqn:Hr; cbn [fst snd].
    + destruct (Hfail out cause) as (before & after & Hk). rewrite Hk. split.
      * apply Forall_set_nth; [assumption|]. right. eauto.
      * eexists. split; [rewrite Hh, <- app_assoc; reflexivity|]. right.
        eapply Exists_set_nth_here; [exact Hi|]. eexists. left. reflexivity.
    + split; [apply Forall_set_nth; [assumption | left; apply Hok]|].
      eexists. split; [rewrite Hh, <- app_assoc; reflexivity|].
      destruct Hc as [Hc|Hc].
      * left. apply Forall_app. split; [exact Hc | now repeat constructor].
      * right. eapply Exists_set_nth; [exact Hi| |exact Hc]. intros (err & [[=]|[=]]).
  - destruct Hb as [Hk|(err & [=])].
    split; [apply Forall_set_nth; [assumption | now left]|].
    eexists. split; [rewrite Hh, <- app_assoc; reflexivity|].
    destruct Hc as [Hc|Hc].
    + left. apply Forall_app. split; [exact Hc | now repeat constructor].
    + right. eapply Exists_set_nth; [exact Hi| |exact Hc]. intros (err & [[=]|[=]]).
Qed.

Lemma turns_clean (e : env) (h0 : trace) (sched : list nat) (st st' : fanout) :
  fanout_clean h0 st -> turns e sched st = inl st' -> fanout_clean h0 st'.
Proof.
  revert st; induction sched as [|i sched IH]; intros st Hinv; cbn.
  - now intros [= <-].
  - destruct (turn e i st) as [st1|] eqn:Ht; [|discriminate].
    apply IH. eapply turn_clean; eauto.
Qed.

Lemma started_clean (cfg : config) (image0 : gostring) (h : trace) :
  fanout_clean h (started cfg image0 h).
Proof.
  split.
  - cbn [started pool]. induction (services cfg) as [|s ss IH]; cbn [map]; constructor; [|exact IH].
    left. apply deployService_fail_fast.
  - exists []. cbn [started hist]. split; [now rewrite app_nil_r | left; constructor].
Qed.

Lemma fanout_success_clean (e : env) (sched : list nat) (cfg : config) (image0 : gostring)
  (h tr : trace) :
  deployServices e sched cfg image0 h = (Returned None, tr) ->
  exists evs, tr = h ++ evs /\ Forall succeeded evs.
Proof.
  intros Hd. destruct (deployServices_None _ _ _ _ _ _ Hd) as (st & Ht & <- & Hfin).
  destruct (turns_clean e h sched _ st (started_clean cfg image0 h) Ht)
    as (_ & evs & Hh & [Hc|Hc]).
  - now exists evs.
  - exfalso. apply Exists_exists in Hc as (g & Hin & err & Hg).
    rewrite Forall_forall in Hfin. rewrite (Hfin g Hin) in Hg. destruct Hg; discriminate.
Qed.

Lemma deployService_lists (cfg : config) (s image0 : gostring) :
  passes_through (fun ev => exists out, ev = Captured (list_revisions_command cfg s) out None)
    (fun r => r = None) (deployService cfg s image0).
Proof.
  unfold deployService. cbn. intros [out [err|]]; cbn.
  - right. discriminate.
  - left. now exists out.
Qed.

Lemma deployService_deploys (cfg : config) (s image0 : gostring) :
  passes_through (fun ev => ev = Streamed (deploy_command cfg s image0) None)
    (fun r => r = None) (deployService cfg s image0).
Proof.
  unfold deployService. cbn. intros [out [err|]]; cbn; right; [discriminate|].
  intros [err|]; cbn; [right; discriminate | now left].
Qed.

Lemma deployService_migrates (cfg : config) (s image0 : gostring) :
  passes_through (fun ev => ev = Streamed (update_traffic_command cfg s) None)
    (fun r => r = None) (deployService cfg s image0).
Proof.
  unfold deployService. cbn. intros [out [err|]]; cbn; right; [discriminate|].
  intros [err|]; cbn; right; [discriminate|]. right.
  intros [err|]; cbn; [right; discriminate | now left].
Qed.

Lemma Exists_eq_In {A : Type} (x : A) (l : list A) : Exists (fun y => y = x) l -> In x l.
Proof. intros H. apply Exists_exists in H as (y & Hin & ->). exact Hin. Qed.

(** What the join has seen of every service when it returns no error: the
    deploy and the traffic migration, and no failure. *)
Lemma deployServices_None_deployed (e : env) (sched : list nat) (cfg : config)
  (image0 : gostring) (h tr : trace) :
  deployServices e sched cfg image0 h = (Returned None, tr) ->
  exists evs, tr = h ++ evs /\ Forall succeeded evs /\
    forall s, In s (services cfg) ->
      In (Streamed (deploy_command cfg s image0) None) evs /\
      In (Streamed (update_traffic_command cfg s) None) evs.
Proof.
  intros Hd. destruct (fanout_success_clean _ _ _ _ _ _ Hd) as (evs & Htr & Hok).
  exists evs. split; [exact Htr|]. split; [exact Hok|]. intros s Hin.
  assert (Hsame : forall evs', tr = h ++ evs' -> evs' = evs).
  { intros evs' H. rewrite Htr in H. now apply app_inv_head in H. }
  split.
  - destruct (fanout_success e (fun s ev => ev = Streamed (deploy_command cfg s image0) None)
                sched cfg image0 h tr (fun s _ => deployService_deploys cfg s image0) Hd)
      as (evs' & Htr' & Hx).
    rewrite (Hsame _ Htr') in Hx. apply Exists_eq_In, Hx, Hin.
  - destruct (fanout_success e (fun s ev => ev = Streamed (update_traffic_command cfg s) None)
                sched cfg image0 h tr (fun s _ => deployService_migrates cfg s image0) Hd)
      as (evs' & Htr' & Hx).
    rewrite (Hsame _ Htr') in Hx. apply Exists_eq_In, Hx, Hin.
Qed.

(** X11. When the deploy step returns no error, no command of the fan-out
    has failed, and for every configured service the trace holds its
    successful revision listing, its successful deploy with the given image
    and its successful traffic migration - whatever the schedule. *)
Theorem deployServices_success (e : env) (sched : list nat) (cfg : config)
  (image0 : gostring) (h tr : trace) :
  deployServices e sched cfg image0 h = (Returned None, tr) ->
  exists evs, tr = h ++ evs /\ Forall succeeded evs /\
    forall s, In s (services cfg) ->
      (exists out, In (Captured (list_revisions_command cfg s) out None) evs) /\
      In (Streamed (deploy_command cfg s image0) None) evs /\
      In (Streamed (update_traffic_command cfg s) None) evs.
Proof.
  intros Hd. destruct (deployServices_None_deployed _ _ _ _ _ _ Hd) as (evs & Htr & Hok & Hs).
  exists evs. split; [exact Htr|]. split; [exact Hok|]. intros s Hin.
  split; [|now apply Hs].
  destruct (fanout_success e
              (fun s ev => exists out, ev = Captured (list_revisions_command cfg s) out None)
              sched cfg image0 h tr (fun s _ => deployService_lists cfg s image0) Hd)
    as (evs' & Htr' & Hx).
  assert (evs' = evs) as -> by (rewrite Htr in Htr'; now apply app_inv_head in Htr').
  specialize (Hx s Hin). apply Exists_exists in Hx as (ev & Hev & out & ->). now exists out.
Qed.

Lemma cleanupOldImages_None (e : env) (lib : golib) (cfg : config) (h tr : trace) :
  exec e (cleanupOldImages lib cfg (image cfg)) h = (Returned None, tr) ->
  exists out evs,
    tr = h ++ Captured (list_tags_command cfg) out None :: evs /\ Forall succeeded evs.
Proof.
  unfold cleanupOldImages. cbn.
  change (registryHost cfg ++ lit "/" ++ project cfg ++ lit "/" ++ image cfg)
    with (imageRepo cfg).
  change {| cmd_dir := workdir cfg; cmd_name := lit "gcloud";
            cmd_args := [lit "container"; lit "images"; lit "list-tags"; imageRepo cfg;
                         lit "--format=json"] |} with (list_tags_command cfg).
  destruct (capture_result e h (list_tags_command cfg)) as [out [err|]]; cbn; [discriminate|].
  destruct (json_Unmarshal_tags lib out) as [tags|jerr]; cbn; [|discriminate].
  destruct (Z.of_nat (length tags) <=? keepImgs cfg)%Z.
  { intros [= <-]. exists out, []. split; [reflexivity | constructor]. }
  destruct (slice_from tags (keepImgs cfg)) as [rest|]; [|discriminate].
  destruct (exec_fail_fast e _ (h ++ [Captured (list_tags_command cfg) out None])
              (deleteImages_fail_fast cfg (imageRepo cfg) rest)
              (deleteImages_no_panic cfg (imageRepo cfg) rest)) as (r & evs & -> & Hr).
  intros [= -> <-]. exists out, evs. split; [now rewrite <- app_assoc | exact Hr].
Qed.

(** X12. A run that returns no error has done everything: the build, the
    container build and the push succeeded, a digest was read from the
    output of the push, every command of the run succeeded, every
    configured service was deployed with [repo@digest] and had its traffic
    migrated; after that a beta run did nothing more, and any other run
    printed the cleanup line and listed the tags successfully before its
    deletions. *)
Theorem run_success (lib : golib) (e : env) (sched : list nat) (cfg : config) (h tr : trace) :
  run lib e sched cfg h = (Returned None, tr) ->
  exists pushOutput digest fan cevs,
    parseDigest pushOutput = Ok digest /\
    tr = h ++ published cfg pushOutput ++ fan ++ cevs /\
    Forall succeeded (published cfg pushOutput ++ fan ++ cevs) /\
    (forall s, In s (services cfg) ->
       In (Streamed (deploy_command cfg s (imageRepo cfg ++ lit "@" ++ digest)) None) fan /\
       In (Streamed (update_traffic_command cfg s) None) fan) /\
    (if beta cfg then cevs = []
     else exists out deletions,
       cevs = Printed (lit "Cleaning up image...") ::
              Captured (list_tags_command cfg) out None :: deletions).
Proof.
  rewrite run_through_join.
  destruct (through_join_trace e cfg h)
    as [(evs & k & err & _ & Ht) | (pushOutput & digest & Hd & Ht)]; rewrite (Ht sched).
  - discriminate.
  - destruct (deployServices e sched cfg (imageRepo cfg ++ lit "@" ++ digest)
                (h ++ published cfg pushOutput)) as [o h'] eqn:Hdep.
    destruct o as [[err|]| |]; try discriminate.
    destruct (deployServices_None_deployed _ _ _ _ _ _ Hdep) as (fan & -> & Hok & Hs).
    assert (Hpub : Forall succeeded (published cfg pushOutput)) by (repeat constructor).
    intros Hcl. exists pushOutput, digest, fan. unfold cleanup_stage in Hcl.
    destruct (beta cfg); cbn [negb] in Hcl.
    + injection Hcl as <-. exists []. rewrite app_nil_r, <- app_assoc.
      repeat split; try assumption; try (now apply Hs).
      apply Forall_app. now split.
    + unfold mbind in Hcl. cbn [exec logStep] in Hcl.
      destruct (cleanupOldImages_None _ _ _ _ _ Hcl) as (out & dels & -> & Hdel).
      exists (Printed (lit "Cleaning up image...") :: Captured (list_tags_command cfg) out None
                :: dels).
      rewrite <- !app_assoc. cbn [app].
      repeat split; try assumption; try (now apply Hs); [|eauto].
      apply Forall_app. split; [exact Hpub|]. apply Forall_app. split; [exact Hok|].
      constructor; [exact I|]. constructor; [reflexivity | exact Hdel].
Qed.

Lemma deployServices_success_witness :
  exists evs,
    In (Streamed (deploy_command (sample_config [lit "api"; lit "web"] true 2) (lit "web")
                    (lit "img")) None) evs.
Proof.
  pose (tr := snd (deployServices (scripted sample_outputs nobody) (repeat 1 6 ++ repeat 0 12 ++ repeat 1 6)
                     (sample_config [lit "api"; lit "web"] true 2) (lit "img") [])).
  assert (H : deployServices (scripted sample_outputs nobody) (repeat 1 6 ++ repeat 0 12 ++ repeat 1 6)
                (sample_config [lit "api"; lit "web"] true 2) (lit "img") []
              = (Returned None, tr)) by (vm_compute; reflexivity).
  destruct (deployServices_success _ _ _ _ _ _ H) as (evs & _ & _ & Hs).
  exists evs. apply Hs. right. left. reflexivity.
Defined.

Lemma run_success_witness :
  exists digest fan,
    In (Streamed (deploy_command (sample_config [lit "api"] true 2) (lit "api")
                    (imageRepo (sample_config [lit "api"] true 2) ++ lit "@" ++ digest)) None)
       fan.
Proof.
  pose (tr := snd (run sample_lib (scripted sample_outputs nobody) (repeat 0 12)
                     (sample_config [lit "api"] true 2) [])).
  assert (H : run sample_lib (scripted sample_outputs nobody) (repeat 0 12)
                (sample_config [lit "api"] true 2) [] = (Returned None, tr))
    by (vm_compute; reflexivity).
  destruct (run_success _ _ _ _ _ _ H) as (p & d & fan & cevs & _ & _ & _ & Hs & _).
  exists d, fan. apply Hs. left. reflexivity.
Defined.

(** ** Panics *)

Lemma deployServices_no_panic (e : env) (sched : list nat) (cfg : config) (image0 : gostring)
  (h : trace) :
  (0 <= keepRevs cfg)%Z -> fst (deployServices e sched cfg image0 h) <> Panicked.
Proof.
  intros Hk. rewrite deployServices_started.
  destruct (turns_no_panic e sched _ (started_no_panic cfg image0 h Hk)) as (st & -> & _).
  destruct (forallb is_finished (pool st)); [|discriminate].
  destruct (0 <? length (drain (errs st) []))%nat; discriminate.
Qed.

Lemma run_no_panic (lib : golib) (e : env) (sched : list nat) (cfg : config) (h : trace) :
  (0 <= keepRevs cfg)%Z -> (0 <= keepImgs cfg)%Z -> fst (run lib e sched cfg h) <> Panicked.
Proof.
  intros Hkr Hki. rewrite run_through_join.
  destruct (through_join_trace e cfg h)
    as [(evs & k & err & _ & Ht) | (pushOutput & digest & Hd & Ht)]; rewrite (Ht sched).
  - discriminate.
  - pose proof (deployServices_no_panic e sched cfg (imageRepo cfg ++ lit "@" ++ digest)
                  (h ++ published cfg pushOutput) Hkr) as Hnp.
    destruct (deployServices e sched cfg (imageRepo cfg ++ lit "@" ++ digest)
                (h ++ published cfg pushOutput)) as [o tr].
    destruct o as [[err|]| |]; cbn [fst] in *; try discriminate; try congruence.
    unfold cleanup_stage. destruct (beta cfg); cbn [negb]; [discriminate|].
    unfold mbind. cbn [exec logStep].
    destruct (exec_no_panic e (cleanupOldImages lib cfg (image cfg))
                (tr ++ [Printed (lit "Cleaning up image...")])
                (cleanupOldImages_no_panic lib cfg (image cfg) Hki)) as (a & Ha).
    rewrite Ha. discriminate.
Qed.

(** X13. With a configuration accepted by [parseConfig] the run never
    panics, under any schedule and whatever the commands answer; and every
    schedule can be continued into one under which the run returns. *)
Theorem run_validated_no_panic (lib : golib) (e : env) (fl : flags) (getwd : result gostring)
  (now : Z) (cfg : config) (h : trace) :
  parseConfig lib fl getwd now = Ok cfg ->
  (forall sched, fst (run lib e sched cfg h) <> Panicked) /\
  (forall sched0, exists sched1 r tr,
     run lib e (sched0 ++ sched1) cfg h = (Returned r, tr)).
Proof.
  intros H. apply parseConfig_Ok in H as (_ & _ & Hki & Hkr & _ & _ & wd & _ & ->).
  split.
  - intros sched. apply run_no_panic; cbn; lia.
  - apply run_returns; cbn; lia.
Qed.

Lemma run_validated_no_panic_witness :
  exists sched1 r tr,
    run sample_lib (scripted sample_outputs nobody) ([0; 0] ++ sched1)
      {| image := lit "web"; beta := false; services := [lit "api"]; workdir := lit "/w";
         start := 0; keepImgs := 10; keepRevs := 10; project := lit "proj";
         region := lit "asia-northeast3"; registryHost := lit "asia.gcr.io" |} []
    = (Returned r, tr).
Proof.
  assert (H : parseConfig sample_lib (sample_flags (lit "api")) (Ok (lit "/w")) 0
              = Ok {| image := lit "web"; beta := false; services := [lit "api"];
                      workdir := lit "/w"; start := 0; keepImgs := 10; keepRevs := 10;
                      project := lit "proj"; region := lit "asia-northeast3";
                      registryHost := lit "asia.gcr.io" |}) by reflexivity.
  exact (proj2 (run_validated_no_panic sample_lib (scripted sample_outputs nobody)
                  (sample_flags (lit "api")) (Ok (lit "/w")) 0 _ [] H) [0; 0]).
Defined.

(** X14. The lower bound on [--keep-revisions] matters: with a negative
    retention count, a service's task whose listing, deploy and traffic
    migration succeed panics at the slice [revisions[keepRevs:]] instead of
    returning. *)
Theorem deployService_negative_keep_panics (e : env) (cfg : config)
  (service image0 : gostring) (h : trace) :
  (keepRevs cfg < 0)%Z ->
  let listing := capture_result e h (list_revisions_command cfg service) in
  let h1 := h ++ [Captured (list_revisions_command cfg service) (fst listing) None] in
  let h2 := h1 ++ [Streamed (deploy_command cfg service image0) None;
                   Printed (lit "Migrating " ++ service ++ lit "...")] in
  snd listing = None ->
  streaming_result e h1 (deploy_command cfg service image0) = None ->
  streaming_result e h2 (update_traffic_command cfg service) = None ->
  fst (exec e (deployService cfg service image0) h) = Panicked.
Proof.
  intros Hk listing h1 h2 Hl Hd Ht. unfold deployService. cbn.
  change {| cmd_dir := workdir cfg; cmd_name := lit "gcloud";
            cmd_args := [lit "run"; lit "revisions"; lit "list";
                         lit "--region=" ++ region cfg; lit "--service=" ++ service;
                         lit "--format=value(metadata.name)"] |}
    with (list_revisions_command cfg service).
  fold listing. rewrite Hl. cbn.
  change {| cmd_dir := workdir cfg; cmd_name := lit "gcloud";
            cmd_args := [lit "run"; lit "deploy"; service; lit "--image=" ++ image0;
                         lit "--platform=managed"; lit "--region=" ++ region cfg;
                         lit "--project=" ++ project cfg] |}
    with (deploy_command cfg service image0).
  fold h1. rewrite Hd. cbn.
  change {| cmd_dir := workdir cfg; cmd_name := lit "gcloud";
            cmd_args := [lit "run"; lit "services"; lit "update-traffic"; service;
                         lit "--to-latest"; lit "--region=" ++ region cfg] |}
    with (update_traffic_command cfg service).
  replace ((h1 ++ [Streamed (deploy_command cfg service image0) None]) ++
           [Printed (lit "Migrating " ++ service ++ lit "...")]) with h2
    by (unfold h2; now rewrite <- app_assoc).
  rewrite Ht. cbn.
  destruct (Z.of_nat (length (append_trimmed (Split (TrimSpace (fst listing)) newline) []))
            <=? keepRevs cfg)%Z eqn:Hlen; [apply Z.leb_le in Hlen; lia|].
  unfold slice_from. replace (keepRevs cfg <? 0)%Z with true by (symmetry; now apply Z.ltb_lt).
  reflexivity.
Qed.

Lemma deployService_negative_keep_panics_witness :
  fst (exec (scripted sample_outputs nobody)
         (deployService (sample_config [lit "api"] false (-1)) (lit "api") (lit "img")) [])
  = Panicked.
Proof.
  apply (deployService_negative_keep_panics (scripted sample_outputs nobody)
           (sample_config [lit "api"] false (-1)) (lit "api") (lit "img") []);
    [cbn; lia | reflexivity | reflexivity | reflexivity].
Defined.

(** ** The stages before the fan-out *)

(** X15. Nothing touches the platform before the image is published: if the
    trace of a run holds a gcloud command at all, then the run began with
    the build, the container build and the push, all successful, and a
    digest could be read from the output of the push. *)
Theorem run_gcloud_after_publish (lib : golib) (e : env) (sched : list nat) (cfg : config)
  (h : trace) :
  exists evs,
    snd (run lib e sched cfg h) = h ++ evs /\
    (forall c, In c (commands evs) -> cmd_name c = lit "gcloud" ->
       exists pushOutput digest rest,
         evs = published cfg pushOutput ++ rest /\ parseDigest pushOutput = Ok digest).
Proof.
  destruct (run_trace lib e sched cfg h)
    as [(evs & k & err & Hrun & Hc) | (pushOutput & digest & fan & cevs & Hd & Hrun & _)].
  - exists evs. rewrite Hrun. split; [reflexivity|]. rewrite Hc. intros c Hin Hn.
    apply In_firstn in Hin. cbn in Hin.
    destruct Hin as [<-|[<-|[<-|[]]]]; vm_compute in Hn; discriminate.
  - exists (published cfg pushOutput ++ fan ++ cevs). split; [exact Hrun|].
    intros c _ _. now exists pushOutput, digest, (fan ++ cevs).
Qed.

(** X16. After a successful build: when the container build fails the run
    returns "docker build: ..." and the trace ends there; when the push
    fails it returns "docker push: ..." followed by a line feed and the
    output of the push; when the push succeeds but no digest can be read
    from its output it returns "parse digest: ..." followed by a line feed
    and that output; in the three cases nothing is run after the failing
    stage. *)
Theorem run_publish_failure (lib : golib) (e : env) (sched : list nat) (cfg : config)
  (h : trace) :
  let c_build := docker_build_command cfg (imageTag cfg) in
  let c_push := docker_push_command cfg (imageTag cfg) in
  let h1 := h ++ [Printed (lit "Building TS..."); Streamed (build_command cfg) None;
                  Printed (lit "Building Docker...")] in
  let h2 := h1 ++ [Streamed c_build None; Printed (lit "Uploading image...")] in
  let push := capture_result e h2 c_push in
  streaming_result e (h ++ [Printed (lit "Building TS...")]) (build_command cfg) = None ->
  (forall err, streaming_result e h1 c_build = Some err ->
     run lib e sched cfg h =
       (Returned (Some (Errorf_w (lit "docker build: ") err [])),
        h1 ++ [Streamed c_build (Some err)])) /\
  (streaming_result e h1 c_build = None ->
   (forall err, snd push = Some err ->
      run lib e sched cfg h =
        (Returned (Some (Errorf_w (lit "docker push: ") err (newline ++ fst push))),
         h2 ++ [Captured c_push (fst push) (Some err)])) /\
   (forall err, snd push = None -> parseDigest (fst push) = Err err ->
      run lib e sched cfg h =
        (Returned (Some (Errorf_w (lit "parse digest: ") err (newline ++ fst push))),
         h2 ++ [Captured c_push (fst push) None]))).
Proof.
  intros c_build c_push h1 h2 push Hb.
  unfold run, mbind, ret. cbn.
  change {| cmd_dir := workdir cfg; cmd_name := lit "pnpm";
            cmd_args := [lit "run"; lit "build"] |} with (build_command cfg).
  change (registryHost cfg ++ lit "/" ++ project cfg ++ lit "/" ++ image cfg)
    with (imageRepo cfg).
  change (if beta cfg then imageRepo cfg ++ lit ":dev" else imageRepo cfg)
    with (imageTag cfg).
  change {| cmd_dir := workdir cfg; cmd_name := lit "docker";
            cmd_args := [lit "build"; lit "--platform"; lit "linux/amd64"; lit "-t";
                         imageTag cfg; lit "."] |} with c_build.
  change {| cmd_dir := workdir cfg; cmd_name := lit "docker";
            cmd_args := [lit "push"; imageTag cfg] |} with c_push.
  rewrite Hb.
  replace (((h ++ [Printed (lit "Building TS...")]) ++ [Streamed (build_command cfg) None]) ++
           [Printed (lit "Building Docker...")]) with h1
    by (unfold h1; now rewrite <- !app_assoc).
  split.
  - intros err ->. reflexivity.
  - intros ->.
    replace ((h1 ++ [Streamed c_build None]) ++ [Printed (lit "Uploading image...")]) with h2
      by (unfold h2; now rewrite <- !app_assoc).
    fold push. split.
    + intros err ->. reflexivity.
    + intros err -> ->. reflexivity.
Qed.

Lemma run_publish_failure_witness :
  run sample_lib
      (scripted (fun _ => lit "denied") nobody) [] (sample_config [lit "api"] false 2) []
  = (Returned (Some (Errorf_w (lit "parse digest: ") digest_not_found
                       (newline ++ lit "denied"))),
     [Printed (lit "Building TS..."); Streamed (build_command (sample_config [lit "api"] false 2)) None;
      Printed (lit "Building Docker...");
      Streamed (docker_build_command (sample_config [lit "api"] false 2)
                  (lit "asia.gcr.io/proj/web")) None;
      Printed (lit "Uploading image...");
      Captured (docker_push_command (sample_config [lit "api"] false 2)
                  (lit "asia.gcr.io/proj/web")) (lit "denied") None]).
Proof.
  assert (Hb : streaming_result (scripted (fun _ => lit "denied") nobody)
                 ([] ++ [Printed (lit "Building TS...")])
                 (build_command (sample_config [lit "api"] false 2)) = None) by reflexivity.
  destruct (run_publish_failure sample_lib (scripted (fun _ => lit "denied") nobody) []
              (sample_config [lit "api"] false 2) [] Hb) as (_ & H).
  destruct (H eq_refl) as (_ & Hd).
  exact (Hd digest_not_found eq_refl eq_refl).
Defined.

(** ** Building with the selected tool *)

Lemma detectLanguage_supported (lib : golib) (fs : filesystem) (wd : gostring) (l : language) :
  detectLanguage lib fs wd = Ok l -> supported l.
Proof.
  unfold detectLanguage, orderedIndicators, supported. cbn [detectLanguage_loop ind_file ind_lang].
  repeat match goal with
         | |- context [if fileExists ?f ?p then _ else _] => destruct (fileExists f p)
         end; intros [= <-]; cbn; auto 10.
Qed.

Lemma determineLanguage_supported (lib : golib) (fs : filesystem) (wd requested : gostring)
  (l : language) :
  determineLanguage lib fs wd requested = Ok l -> supported l.
Proof.
  unfold determineLanguage.
  destruct (streq (TrimSpace (ToLower lib requested)) []); [apply detectLanguage_supported|].
  unfold supported.
  repeat match goal with
         | |- context [if one_of ?s ?c then _ else _] => destruct (one_of s c)
         end; intros [= <-]; cbn; auto 10.
Qed.

Lemma buildProject_exec (lib : golib) (e : env) (cfg : config) (l : language) (h : trace) :
  supported l ->
  exists c,
    cmd_dir c = workdir cfg /\
    (l = langPNPM -> c = build_command cfg) /\
    exec e (buildProject lib cfg l) h =
      (Returned (option_map (fun cause =>
                   Errorf_w (lit "build project with " ++ cmd_name c ++ lit ": ") cause [])
                   (streaming_result e h c)),
       h ++ [Streamed c (streaming_result e h c)]).
Proof.
  unfold supported. cbn [In].
  intros [<-|[<-|[<-|[<-|[<-|[]]]]]]; unfold buildProject;
    repeat match goal with
           | |- context [streq ?a ?b] =>
               let v := eval vm_compute in (streq a b) in change (streq a b) with v
           end;
    cbn;
    match goal with
    | |- context [streaming_result ?e0 ?h0 ?c] =>
        exists c; split; [reflexivity|]; split;
        [try reflexivity; intros H; vm_compute in H; discriminate|];
        destruct (streaming_result e0 h0 c); reflexivity
    end.
Qed.

(** X17. Whatever [determineLanguage] selects, [buildProject] can build: it
    runs exactly one command, in the working directory; it returns no error
    exactly when that command succeeds, and otherwise the command's error
    wrapped as "build project with <executable>: ..."; for pnpm the command
    is the build command of [run].  For a language that is none of the
    five it runs nothing and returns the unsupported-language error. *)
Theorem buildProject_selected (lib : golib) (e : env) (fs : filesystem) (cfg : config)
  (requested : gostring) (l : language) (h : trace) :
  (determineLanguage lib fs (workdir cfg) requested = Ok l ->
   exists c,
     cmd_dir c = workdir cfg /\
     (l = langPNPM -> c = build_command cfg) /\
     exec e (buildProject lib cfg l) h =
       (Returned (option_map (fun cause =>
                    Errorf_w (lit "build project with " ++ cmd_name c ++ lit ": ") cause [])
                    (streaming_result e h c)),
        h ++ [Streamed c (streaming_result e h c)])) /\
  (~ supported l ->
   exec e (buildProject lib cfg l) h =
     (Returned (Some (errors_New (lit "unsupported language " ++ strconv_Quote lib l))), h)).
Proof.
  split.
  - intros Hd. apply buildProject_exec. eapply determineLanguage_supported; eauto.
  - intros Hns. unfold supported in Hns. cbn [In] in Hns. unfold buildProject.
    repeat match goal with
           | |- context [if streq l ?x then _ else _] =>
               let Hs := fresh "Hs" in
               destruct (streq l x) eqn:Hs;
               [apply streq_eq in Hs; exfalso; apply Hns; auto 10|]
           end.
    reflexivity.
Qed.

Lemma buildProject_selected_witness :
  exists c,
    cmd_dir c = lit "/w" /\
    exec (scripted sample_outputs nobody)
         (buildProject sample_lib (sample_config [lit "api"] false 2) langRust) []
    = (Returned (option_map (fun cause =>
                   Errorf_w (lit "build project with " ++ cmd_name c ++ lit ": ") cause [])
                   (streaming_result (scripted sample_outputs nobody) [] c)),
       [] ++ [Streamed c (streaming_result (scripted sample_outputs nobody) [] c)]).
Proof.
  destruct (buildProject_selected sample_lib (scripted sample_outputs nobody) (files [])
              (sample_config [lit "api"] false 2) (lit " Cargo ") langRust []) as (H & _).
  destruct (H eq_refl) as (c & Hdir & _ & Hex).
  exists c. split; [exact Hdir | exact Hex].
Defined.

(** ** The entry point *)

(** X18. [main] never panics, and ends with status 0, 1 or 2.  The status
    is 2 exactly when [flag.Parse] cannot parse the command line; then, as
    when help is requested (status 0) or the flags are rejected by
    [parseConfig] (status 1), nothing is run or printed.  With status 1
    [main] has written "error: ", the message of the error and a line feed
    to the standard error stream, the error being the one of [parseConfig]
    or the one [run] returned.  With status 0 it has written no such line,
    and either help was requested, or the flags were accepted, [run]
    returned no error, and the done line is printed last, after everything
    the run did. *)
Theorem main_exit_status (lib : golib) (e : env) (sched : list nat) (args : command_line)
  (getwd : result gostring) (now : Z) (h : trace) :
  fst (main lib e sched args getwd now h) <> Panicked /\
  forall x tr,
    main lib e sched args getwd now h = (Returned x, tr) ->
    (status x = 0 \/ status x = 1 \/ status x = 2)%Z /\
    (status x = 2%Z <-> args = not_parsed) /\
    (args = help_requested -> status x = 0%Z) /\
    (forall fl err, args = flags_parsed fl -> parseConfig lib fl getwd now = Err err ->
                    status x = 1%Z) /\
    (args = not_parsed \/ args = help_requested \/
     (exists fl err, args = flags_parsed fl /\ parseConfig lib fl getwd now = Err err) ->
     tr = h) /\
    (status x = 1%Z ->
     exists fl err,
       args = flags_parsed fl /\
       error_line x = lit "error: " ++ Error err ++ newline /\
       (parseConfig lib fl getwd now = Err err \/
        exists cfg, parseConfig lib fl getwd now = Ok cfg /\
                    run lib e sched cfg h = (Returned (Some err), tr))) /\
    (status x = 0%Z ->
     error_line x = [] /\
     (args = help_requested \/
      exists fl cfg tr',
        args = flags_parsed fl /\
        parseConfig lib fl getwd now = Ok cfg /\
        run lib e sched cfg h = (Returned None, tr') /\
        tr = tr' ++ [Printed done_message])) /\
    (status x = 2%Z -> error_line x = []).
Proof.
  split.
  - unfold main. destruct args as [fl| |]; [|discriminate|discriminate].
    destruct (parseConfig lib fl getwd now) as [cfg|perr] eqn:Hp; [|discriminate].
    destruct (parseConfig_Ok _ _ _ _ _ Hp) as (_ & _ & Hki & Hkr & _ & _ & wd & _ & Hcfg).
    assert (Hnp : fst (run lib e sched cfg h) <> Panicked).
    { apply run_no_panic; rewrite Hcfg; cbn; lia. }
    unfold mbind. destruct (run lib e sched cfg h) as [o tr'].
    destruct o as [[err|]| |]; cbn [fst] in *; try discriminate. congruence.
  - intros x tr. unfold main. destruct args as [fl| |].
    + destruct (parseConfig lib fl getwd now) as [cfg|perr] eqn:Hp.
      * unfold mbind. destruct (run lib e sched cfg h) as [o tr'] eqn:Hrun.
        destruct o as [[err|]| |]; try discriminate.
        -- unfold ret. intros [= <- <-].
           split; [right; now left|]. split; [split; [cbn; discriminate | discriminate]|].
           split; [discriminate|]. split; [intros fl0 err0 [= <-]; congruence|].
           split; [intros [H|[H|(fl0 & err0 & [= <-] & H)]]; [discriminate H|discriminate H|];
                   congruence|].
           split; [|split; cbn; discriminate].
           intros _. exists fl, err. split; [reflexivity|]. split; [reflexivity|].
           right. exists cfg. now split.
        -- cbn [exec]. unfold ret. intros [= <- <-].
           split; [now left|]. split; [split; [cbn; discriminate | discriminate]|].
           split; [discriminate|]. split; [intros fl0 err0 [= <-]; congruence|].
           split; [intros [H|[H|(fl0 & err0 & [= <-] & H)]]; [discriminate H|discriminate H|];
                   congruence|].
           split; [cbn; discriminate|]. split; [|cbn; discriminate].
           intros _. split; [reflexivity|]. right. exists fl, cfg, tr'. now repeat split.
      * unfold ret. intros [= <- <-].
        split; [right; now left|]. split; [split; [cbn; discriminate | discriminate]|].
        split; [discriminate|]. split; [reflexivity|].
        split; [reflexivity|].
        split; [|split; cbn; discriminate].
        intros _. exists fl, perr. split; [reflexivity|]. split; [reflexivity|]. now left.
    + unfold ret. intros [= <- <-].
      split; [now left|]. split; [split; [cbn; discriminate | discriminate]|].
      split; [reflexivity|]. split; [discriminate|]. split; [reflexivity|].
      split; [cbn; discriminate|]. split; [|cbn; discriminate].
      intros _. split; [reflexivity|]. now left.
    + unfold ret. intros [= <- <-].
      split; [right; now right|]. split; [split; reflexivity|].
      split; [discriminate|]. split; [discriminate|]. split; [reflexivity|].
      split; [cbn; discriminate|]. split; [cbn; discriminate|]. reflexivity.
Qed.

Lemma main_exit_status_witness :
  exists cfg tr',
    parseConfig sample_lib (sample_flags (lit "api")) (Ok (lit "/w")) 0 = Ok cfg /\
    run sample_lib (scripted sample_outputs nobody) (repeat 0 20) cfg [] = (Returned None, tr') /\
    main sample_lib (scripted sample_outputs nobody) (repeat 0 20)
      (flags_parsed (sample_flags (lit "api"))) (Ok (lit "/w")) 0 []
    = (Returned {| status := 0; error_line := [] |}, tr' ++ [Printed done_message]).
Proof.
  pose (tr := snd (main sample_lib (scripted sample_outputs nobody) (repeat 0 20)
                     (flags_parsed (sample_flags (lit "api"))) (Ok (lit "/w")) 0 [])).
  assert (H : main sample_lib (scripted sample_outputs nobody) (repeat 0 20)
                (flags_parsed (sample_flags (lit "api"))) (Ok (lit "/w")) 0 []
              = (Returned {| status := 0; error_line := [] |}, tr))
    by (vm_compute; reflexivity).
  destruct (main_exit_status sample_lib (scripted sample_outputs nobody) (repeat 0 20)
              (flags_parsed (sample_flags (lit "api"))) (Ok (lit "/w")) 0 []) as (_ & Hend).
  destruct (Hend _ _ H) as (_ & _ & _ & _ & _ & _ & H0 & _).
  destruct (H0 eq_refl) as (_ & [Hhelp | (fl & cfg & tr' & Hfl & Hp & Hrun & Htr)]);
    [discriminate Hhelp|].
  injection Hfl as <-. clear Hend H0.
  exists cfg, tr'. split; [exact Hp|]. split; [exact Hrun|].
  rewrite <- Htr. exact H.
Defined.

(** ** A fan-out of one *)

Lemma turns_single (e : env) (sched : list nat) (t : task (option goerror)) (h : trace)
  (st : fanout) :
  turns e sched {| pool := [Running t]; errs := []; hist := h |} = inl st ->
  (exists t', pool st = [Running t'] /\ errs st = [] /\ exec e t h = exec e t' (hist st)) \/
  (exists r, pool st = [Finished r] /\
             errs st = match r with Some err => [err] | None => [] end /\
             exec e t h = (Returned r, hist st)).
Proof.
  revert t h; induction sched as [|i sched IH]; intros t h; cbn [turns].
  - intros [= <-]. left. now exists t.
  - destruct i as [|i].
    + unfold turn. cbn [nth_error pool errs hist set_nth].
      destruct t as [r| |c k|c k|m k]; [| discriminate | | |].
      * clear IH. intros Ht. right. exists r.
        assert (Hst : forall sched0 st0,
                  turns e sched0 {| pool := [Finished r];
                                    errs := match r with Some err => [] ++ [err] | None => [] end;
                                    hist := h |} = inl st0 ->
                  st0 = {| pool := [Finished r];
                           errs := match r with Some err => [] ++ [err] | None => [] end;
                           hist := h |}).
        { clear. induction sched0 as [|j sched0 IH0]; cbn [turns]; [now intros st0 [= <-]|].
          intros st0. unfold turn. cbn [pool].
          destruct j as [|[|j]]; cbn [nth_error]; apply IH0. }
        rewrite (Hst _ _ Ht). cbn. repeat split.
      * intros Ht. cbn [exec]. now apply IH.
      * intros Ht. cbn [exec]. now apply IH.
      * intros Ht. cbn [exec]. now apply IH.
    + unfold turn. cbn [nth_error pool]. destruct i; cbn [nth_error]; apply IH.
Qed.

(** X19. With a single service the fan-out is that service's task: when the
    deploy step returns, its trace is the one of the task run alone, and
    its error is the task's error as a plain error with the same message. *)
Theorem deployServices_single (e : env) (sched : list nat) (cfg : config)
  (service image0 : gostring) (h tr : trace) (r : option goerror) :
  services cfg = [service] ->
  deployServices e sched cfg image0 h = (Returned r, tr) ->
  exists r0,
    exec e (deployService cfg service image0) h = (Returned r0, tr) /\
    r = option_map (fun err => errors_New (Error err)) r0.
Proof.
  intros Hs. rewrite deployServices_started. unfold started. rewrite Hs. cbn [map].
  destruct (turns e sched _) as [st|h'] eqn:Ht; [|discriminate].
  apply turns_single in Ht as [(t' & Hp & _ & _) | (r0 & Hp & He & Hex)]; rewrite Hp.
  - discriminate.
  - cbn [forallb is_finished andb]. rewrite He. destruct r0 as [err|].
    + assert (Hne : Error err <> []).
      { destruct (exec_sat e (fun _ => True) (fails_as service) _ h
                    (all_true_sat cfg service image0)) as (_ & _ & _ & Hq).
        rewrite Hex in Hq. eapply service_failure_message. apply (Hq _ eq_refl _ eq_refl). }
      cbn [drain length Nat.ltb Nat.leb app].
      destruct (Error err) as [|c m] eqn:Hm; [congruence|]. cbn [length Nat.ltb Nat.leb].
      intros [= <- <-]. exists (Some err). cbn [option_map]. rewrite Hm.
      split; [exact Hex | reflexivity].
    + cbn. intros [= <- <-]. exists None. split; [exact Hex | reflexivity].
Qed.

Lemma deployServices_single_witness :
  exists r0 tr,
    exec (scripted sample_outputs is_revision_delete)
         (deployService (sample_config [lit "api"] false 2) (lit "api") (lit "img")) []
    = (Returned r0, tr) /\
    fst (deployServices (scripted sample_outputs is_revision_delete) (repeat 0 12)
           (sample_config [lit "api"] false 2) (lit "img") [])
    = Returned (option_map (fun err => errors_New (Error err)) r0).
Proof.
  pose (res := deployServices (scripted sample_outputs is_revision_delete) (repeat 0 12)
                 (sample_config [lit "api"] false 2) (lit "img") []).
  assert (H : res = (Returned (Some (errors_New (lit "delete revision r1: exit status 1"))),
                     snd res)) by (vm_compute; reflexivity).
  destruct (deployServices_single (scripted sample_outputs is_revision_delete) (repeat 0 12)
              (sample_config [lit "api"] false 2) (lit "api") (lit "img") [] _ _ eq_refl H)
    as (r0 & Hex & Hr).
  exists r0, (snd res). split; [exact Hex|]. fold res. rewrite H. cbn [fst]. now rewrite Hr.
Defined.

(** ** The two digest extractors *)

(** *** Occurrences and a rune that the sought string does not hold *)

Lemma HasPrefix_app_rune (c : rune) (sub a b : gostring) :
  ~ In c sub -> HasPrefix (a ++ c :: b) sub = HasPrefix a sub.
Proof.
  revert a; induction sub as [|p sub IH]; intros a Hc; [reflexivity|].
  destruct a as [|x a]; cbn.
  - destruct (N.eqb c p) eqn:Hp; [|reflexivity].
    apply N.eqb_eq in Hp. exfalso. apply Hc. now left.
  - rewrite IH; [reflexivity|]. intros H. apply Hc. now right.
Qed.

Lemma Index_app_rune (c : rune) (sub a b : gostring) :
  sub <> [] -> ~ In c sub ->
  Index (a ++ c :: b) sub =
    match Index a sub with
    | Some m => Some m
    | None => option_map (fun m => length a + 1 + m) (Index b sub)
    end.
Proof.
  intros Hne Hc. induction a as [|x a IH].
  - pose proof (HasPrefix_app_rune c sub [] b Hc) as H0. cbn [app] in H0.
    cbn [app Index length]. rewrite H0.
    destruct sub as [|p sub]; [congruence|]. cbn [HasPrefix Index].
    destruct (Index b (p :: sub)); reflexivity.
  - cbn [app Index]. change (x :: a ++ c :: b) with ((x :: a) ++ c :: b).
    rewrite (HasPrefix_app_rune c sub (x :: a) b Hc).
    destruct (HasPrefix (x :: a) sub); [reflexivity|].
    rewrite IH. destruct (Index a sub); [reflexivity|].
    destruct (Index b sub); reflexivity.
Qed.

Lemma Contains_Index_None (s sub : gostring) : Contains s sub = false -> Index s sub = None.
Proof. unfold Contains. now destruct (Index s sub). Qed.

Lemma Index_intro (s sub : gostring) (m : nat) :
  HasPrefix (skipn m s) sub = true -> m <= length s ->
  (forall j, j < m -> HasPrefix (skipn j s) sub = false) ->
  Index s sub = Some m.
Proof.
  revert m; induction s as [|x s IH]; intros m Hp Hm Hj.
  - cbn in Hm. assert (m = 0) as -> by lia. cbn in *. now rewrite Hp.
  - destruct m as [|m].
    + cbn in Hp. cbn [Index]. now rewrite Hp.
    + pose proof (Hj 0 ltac:(lia)) as H0. cbn [skipn] in H0, Hp.
      cbn [Index]. rewrite H0.
      rewrite (IH m Hp); [reflexivity | cbn in Hm; lia|].
      intros j Hlt. apply (Hj (S j)). lia.
Qed.

(** *** The markers never overlap themselves *)

Lemma marker_no_overlap (a b : gostring) :
  a <> [] -> HasPrefix (a ++ digest_marker ++ b) digest_marker = true ->
  HasPrefix a digest_marker = true.
Proof.
  change digest_marker with [100; 105; 103; 101; 115; 116; 58]%N.
  intros Ha.
  destruct a as [|x0 [|x1 [|x2 [|x3 [|x4 [|x5 [|x6 a7]]]]]]]; [congruence| | | | | | |];
    cbn; intros H; try exact H;
    repeat match goal with
           | H : context [N.eqb ?x ?y] |- _ => destruct (N.eqb x y); cbn in H
           end; discriminate.
Qed.

Lemma Index_marker (a b : gostring) :
  Contains a digest_marker = false ->
  Index (a ++ digest_marker ++ b) digest_marker = Some (length a).
Proof.
  intros Hc. apply Index_intro.
  - apply HasPrefix_at_occurrence.
  - rewrite length_app. lia.
  - intros j Hj. destruct (HasPrefix (skipn j (a ++ digest_marker ++ b)) digest_marker) eqn:Hp;
      [|reflexivity]. exfalso.
    rewrite skipn_app in Hp. replace (j - length a) with 0 in Hp by lia. cbn [skipn] in Hp.
    apply marker_no_overlap in Hp.
    + apply HasPrefix_app in Hp as [rest Hr].
      apply (Contains_false_no_occurrence a digest_marker (firstn j a) rest Hc).
      rewrite <- Hr. symmetry. apply firstn_skipn.
    + intros Hn. apply (f_equal (@length rune)) in Hn. rewrite length_skipn in Hn.
      cbn in Hn. lia.
Qed.

Lemma HasPrefix_js_marker (s : gostring) :
  HasPrefix s js_marker = true -> HasPrefix s digest_marker = true.
Proof.
  intros H. apply HasPrefix_app in H as [rest ->]. reflexivity.
Qed.

Lemma Index_js_marker (a b : gostring) :
  Contains a digest_marker = false ->
  Index (a ++ js_marker ++ b) js_marker = Some (length a).
Proof.
  intros Hc. apply Index_intro.
  - apply HasPrefix_at_occurrence.
  - rewrite length_app. lia.
  - intros j Hj. destruct (HasPrefix (skipn j (a ++ js_marker ++ b)) js_marker) eqn:Hp;
      [|reflexivity]. exfalso.
    apply HasPrefix_js_marker in Hp.
    change (a ++ js_marker ++ b) with (a ++ digest_marker ++ (space :: b)) in Hp.
    pose proof (Index_first _ _ _ j (Index_marker a (space :: b) Hc) Hj). congruence.
Qed.

(** The first occurrence of the longer marker is not before the first
    occurrence of the shorter one. *)
Lemma Index_js_marker_later (s : gostring) (m : nat) :
  Index s js_marker = Some m ->
  exists k, Index s digest_marker = Some k /\ k <= m.
Proof.
  intros Hm. pose proof (Index_Some _ _ _ Hm) as [Hs Hlen].
  assert (Hp : HasPrefix (skipn m s) digest_marker = true).
  { apply HasPrefix_js_marker. rewrite Hs at 1.
    replace m with (length (firstn m s)) at 1 by (rewrite length_firstn; cbn in Hlen; lia).
    apply HasPrefix_at_occurrence. }
  destruct (Index s digest_marker) as [k|] eqn:Hk.
  - exists k. split; [reflexivity|]. destruct (Nat.le_gt_cases k m) as [Hle|Hgt]; [exact Hle|].
    pose proof (Index_first _ _ _ m Hk Hgt). congruence.
  - pose proof (Index_None _ _ m Hk). congruence.
Qed.

(** *** Trimming around a rune that is not white space *)

Lemma TrimLeftSpace_anchor (a y : gostring) (c : rune) :
  isSpace c = false -> TrimLeftSpace (a ++ c :: y) = TrimLeftSpace a ++ c :: y.
Proof.
  intros Hc. induction a as [|x a IH]; cbn.
  - now rewrite Hc.
  - destruct (isSpace x); [exact IH | reflexivity].
Qed.

Lemma TrimRightSpace_anchor (y z : gostring) (c : rune) :
  isSpace c = false -> TrimRightSpace (y ++ c :: z) = y ++ c :: TrimRightSpace z.
Proof.
  intros Hc. unfold TrimRightSpace.
  rewrite rev_app_distr. cbn [rev]. rewrite <- app_assoc. cbn [app].
  rewrite TrimLeftSpace_anchor by assumption.
  rewrite rev_app_distr. cbn [rev]. rewrite rev_involutive, <- app_assoc. reflexivity.
Qed.

Lemma no_space_not_In (d : gostring) (c : rune) :
  no_space d -> isSpace c = true -> ~ In c d.
Proof.
  unfold no_space. rewrite forallb_forall. intros Hd Hc Hin.
  specialize (Hd c Hin). rewrite Hc in Hd. discriminate.
Qed.

Lemma no_space_last (d : gostring) :
  d <> [] -> no_space d -> exists d0 c, d = d0 ++ [c] /\ isSpace c = false.
Proof.
  intros Hne Hd. destruct (exists_last Hne) as (d0 & c & ->). exists d0, c. split; [reflexivity|].
  unfold no_space in Hd. rewrite forallb_app in Hd. apply andb_true_iff in Hd as [_ Hd].
  cbn in Hd. now destruct (isSpace c).
Qed.

(** *** The first field *)

Lemma fields_from_run (d tail cur : gostring) :
  no_space d -> fields_from cur (d ++ tail) = fields_from (cur ++ d) tail.
Proof.
  unfold no_space. revert cur; induction d as [|c d IH]; intros cur Hd; cbn.
  - now rewrite app_nil_r.
  - cbn in Hd. apply andb_true_iff in Hd as [Hc Hd].
    destruct (isSpace c); [discriminate|]. rewrite IH by assumption.
    now rewrite <- app_assoc.
Qed.

Lemma Fields_first (ws d tail : gostring) :
  all_space ws -> d <> [] -> no_space d ->
  (tail = [] \/ exists s t, tail = s :: t /\ isSpace s = true) ->
  hd_error (Fields (ws ++ d ++ tail)) = Some d.
Proof.
  intros Hws Hne Hd Ht. rewrite Fields_spaces_app by assumption. unfold Fields.
  rewrite fields_from_run by assumption. cbn [app].
  destruct d as [|c d]; [congruence|].
  destruct Ht as [-> | (s & t & -> & Hs)]; cbn; [reflexivity|]. now rewrite Hs.
Qed.

(** *** A line of the expected form *)

Lemma space_not_in_marker : ~ In space digest_marker.
Proof. intros H. vm_compute in H. intuition discriminate. Qed.

Lemma line_digest_intro (a d rest : gostring) :
  Contains a digest_marker = false ->
  d <> [] -> no_space d -> Contains d digest_marker = false ->
  line_digest (a ++ js_marker ++ d ++ space :: rest) = Some d.
Proof.
  intros Ha Hne Hd Hdm. unfold line_digest.
  destruct (no_space_last d Hne Hd) as (d0 & c & Hd0 & Hc).
  set (tail := TrimRightSpace (space :: rest)).
  set (a' := TrimLeftSpace a).
  assert (HT : TrimSpace (a ++ js_marker ++ d ++ space :: rest)
               = a' ++ digest_marker ++ space :: d ++ tail).
  { unfold TrimSpace.
    change (a ++ js_marker ++ d ++ space :: rest)
      with (a ++ 100%N :: (lit "igest: " ++ d ++ space :: rest)).
    rewrite TrimLeftSpace_anchor by reflexivity. fold a'.
    change (a' ++ 100%N :: lit "igest: " ++ d ++ space :: rest)
      with (a' ++ digest_marker ++ space :: d ++ space :: rest).
    rewrite Hd0.
    replace (a' ++ digest_marker ++ space :: (d0 ++ [c]) ++ space :: rest)
      with ((a' ++ digest_marker ++ space :: d0) ++ c :: space :: rest)
      by (repeat first [rewrite <- app_assoc | progress cbn [app]]; reflexivity).
    rewrite TrimRightSpace_anchor by assumption. fold tail.
    repeat first [rewrite <- app_assoc | progress cbn [app]]. reflexivity. }
  rewrite HT. clear HT.
  assert (Ha' : Contains a' digest_marker = false).
  { destruct (TrimLeftSpace_spec a) as (ws & Hws & _). fold a' in Hws.
    apply (Contains_app_false ws a' []). now rewrite app_nil_r, <- Hws. }
  assert (Htail : tail = [] \/ exists t, tail = space :: t).
  { destruct (TrimRightSpace_spec (space :: rest)) as (ws & Hws & _). fold tail in Hws.
    destruct tail as [|x t]; [now left|]. right. exists t. injection Hws as <- _. reflexivity. }
  unfold after_marker. rewrite (Index_marker a' (space :: d ++ tail) Ha'). cbv zeta.
  assert (Hsk : skipn (length a' + length digest_marker) (a' ++ digest_marker ++ space :: d ++ tail)
                = space :: d ++ tail).
  { rewrite app_assoc, skipn_app, <- length_app, skipn_all, Nat.sub_diag. reflexivity. }
  rewrite Hsk. clear Hsk.
  assert (Hidx : Index (space :: d ++ tail) digest_marker
                 = option_map S (Index (d ++ tail) digest_marker)).
  { pose proof (Index_app_rune space digest_marker [] (d ++ tail) digest_marker_not_nil
                  space_not_in_marker) as H. cbn [app length] in H. rewrite H.
    cbn [Index HasPrefix]. change (HasPrefix [] digest_marker) with false. cbv iota.
    now destruct (Index (d ++ tail) digest_marker). }
  rewrite Hidx. clear Hidx.
  assert (Hsp : isSpace space = true) by reflexivity.
  assert (Hws : all_space [space]) by reflexivity.
  destruct Htail as [-> | (t & ->)].
  - rewrite app_nil_r, (Contains_Index_None _ _ Hdm). cbn [option_map]. unfold first_token.
    pose proof (Fields_first [space] d [] Hws Hne Hd (or_introl eq_refl)) as H.
    rewrite app_nil_r in H. exact H.
  - rewrite (Index_app_rune space digest_marker d t digest_marker_not_nil space_not_in_marker).
    rewrite (Contains_Index_None _ _ Hdm).
    destruct (Index t digest_marker) as [m|]; cbn [option_map]; unfold first_token.
    + replace (firstn (S (length d + 1 + m)) (space :: d ++ space :: t))
        with ([space] ++ d ++ space :: firstn m t).
      * apply (Fields_first [space] d (space :: firstn m t) Hws Hne Hd). right. eauto.
      * cbn [app firstn]. f_equal. rewrite firstn_app.
        rewrite (firstn_all2 d) by lia.
        replace (length d + 1 + m - length d) with (S m) by lia. reflexivity.
    + apply (Fields_first [space] d (space :: t) Hws Hne Hd). right. eauto.
Qed.

Lemma js_after_marker (d rest : gostring) :
  no_space d -> Contains d digest_marker = false ->
  exists x, hd [] (Split (d ++ space :: rest) js_marker) = d ++ space :: x.
Proof.
  intros Hd Hdm. rewrite Split_cons by discriminate.
  destruct (Index (d ++ space :: rest) js_marker) as [m|] eqn:Hm; cbn [hd]; [|eauto].
  destruct (Index_js_marker_later _ _ Hm) as (k & Hk & Hle).
  rewrite (Index_app_rune space digest_marker d rest digest_marker_not_nil space_not_in_marker)
    in Hk.
  rewrite (Contains_Index_None _ _ Hdm) in Hk.
  destruct (Index rest digest_marker) as [m0|]; [|discriminate]. cbn in Hk. injection Hk as <-.
  remember (m - length d - 1) as n eqn:Hn.
  exists (firstn n rest). rewrite firstn_app, (firstn_all2 d) by lia.
  replace (m - length d) with (S n) by lia. reflexivity.
Qed.

Lemma slice_last_two {A : Type} (pre : list A) (x y : A) :
  slice_last 2 (pre ++ [x; y]) = [x; y].
Proof.
  unfold slice_last. rewrite length_app. cbn [length].
  replace (length pre + 2 - 2) with (length pre) by lia.
  now rewrite skipn_app, skipn_all, Nat.sub_diag.
Qed.

Lemma not_In_app {A : Type} (x : A) (l1 l2 : list A) :
  ~ In x l1 -> ~ In x l2 -> ~ In x (l1 ++ l2).
Proof. intros H1 H2 H. apply in_app_or in H as [H|H]; auto. Qed.

Lemma getDigest_line (pre : list gostring) (line last : gostring) :
  Forall (fun l => ~ In line_feed l) pre -> ~ In line_feed line -> ~ In line_feed last ->
  getDigest (Join (pre ++ [line; last]) newline) =
    match Split line js_marker with
    | _ :: after :: _ => Some (hd [] (Split after [space]))
    | _ => None
    end.
Proof.
  intros Hpre Hline Hlast. unfold getDigest. change newline with [line_feed].
  rewrite Split_Join_rune.
  - now rewrite slice_last_two.
  - intros H. apply app_eq_nil in H as [_ H]. discriminate.
  - apply Forall_app. split; [exact Hpre|]. now repeat constructor.
Qed.

(** X20. On a push transcript of the expected form the earlier extractor
    ([getDigest] of index.ts) and [parseDigest] agree: when the last line
    but one is [a], "digest: ", [d], a space and [rest], with no marker
    "digest:" in [a], in [d] or in a line before, and [d] a non-empty token
    without white space, both return [d]. *)
Theorem getDigest_agrees (pre : list gostring) (a d rest last : gostring) :
  let line := a ++ lit "digest: " ++ d ++ lit " " ++ rest in
  let stdout := Join (pre ++ [line; last]) newline in
  Forall (fun l => Contains l digest_marker = false /\ ~ In line_feed l) pre ->
  Contains a digest_marker = false -> ~ In line_feed a ->
  d <> [] -> no_space d -> Contains d digest_marker = false ->
  ~ In line_feed rest -> ~ In line_feed last ->
  getDigest stdout = Some d /\ parseDigest stdout = Ok d.
Proof.
  intros line stdout Hpre Ha Hal Hne Hd Hdm Hrl Hll.
  assert (Hdl : ~ In line_feed d) by (apply no_space_not_In; [exact Hd | reflexivity]).
  assert (Hds : ~ In space d) by (apply no_space_not_In; [exact Hd | reflexivity]).
  assert (Hline : ~ In line_feed line).
  { unfold line. apply not_In_app; [exact Hal|]. apply not_In_app.
    - intros H. vm_compute in H. intuition discriminate.
    - apply not_In_app; [exact Hdl|]. cbn. intros [H|H]; [discriminate | contradiction]. }
  assert (Hpre1 : Forall (fun l => ~ In line_feed l) pre)
    by (eapply Forall_impl; [|exact Hpre]; now intros l [_ H]).
  split.
  - unfold stdout. etransitivity; [apply (getDigest_line pre line last Hpre1 Hline Hll)|].
    unfold line. change (lit "digest: ") with js_marker. change (lit " " ++ rest) with (space :: rest).
    rewrite Split_cons by discriminate.
    rewrite (Index_js_marker a (d ++ space :: rest) Ha).
    rewrite app_assoc, skipn_app, <- length_app, skipn_all, Nat.sub_diag. cbn [skipn app].
    destruct (js_after_marker d rest Hd Hdm) as (x & Hx).
    destruct (Split (d ++ space :: rest) js_marker) as [|after more] eqn:Hs.
    { exfalso. revert Hs. apply Split_not_nil. discriminate. }
    cbn [hd] in Hx. subst after. now rewrite Split_rune_cons.
  - unfold stdout, parseDigest. change newline with [line_feed].
    rewrite Split_Join_rune.
    + apply parseDigest_loop_first.
      * eapply Forall_impl; [|exact Hpre]. intros l [H _]. now apply line_digest_no_marker.
      * unfold line. change (lit "digest: ") with js_marker.
        change (lit " " ++ rest) with (space :: rest). now apply line_digest_intro.
    + intros H. apply app_eq_nil in H as [_ H]. discriminate.
    + apply Forall_app. split; [exact Hpre1|]. now repeat constructor.
Qed.

Lemma getDigest_agrees_witness :
  getDigest (lit "The push refers to repository" ++ newline ++
             lit "latest: digest: sha256:abc size: 528" ++ newline)
  = Some (lit "sha256:abc") /\
  parseDigest (lit "The push refers to repository" ++ newline ++
               lit "latest: digest: sha256:abc size: 528" ++ newline)
  = Ok (lit "sha256:abc").
Proof.
  apply (getDigest_agrees [lit "The push refers to repository"] (lit "latest: ")
           (lit "sha256:abc") (lit "size: 528") []);
    try reflexivity; try discriminate;
    try (intros H; vm_compute in H; intuition discriminate).
  repeat constructor; try reflexivity. intros H; vm_compute in H; intuition discriminate.
Defined.

(** X21. [getDigest] reads only the last line but one of the transcript: its
    result is the same whatever the lines before it and the last line are,
    and when that line does not hold "digest: " it throws (here [None]),
    even if another line announces a digest. *)
Theorem getDigest_penultimate_line (pre pre' : list gostring) (line last last' : gostring) :
  Forall (fun l => ~ In line_feed l) pre -> Forall (fun l => ~ In line_feed l) pre' ->
  ~ In line_feed line -> ~ In line_feed last -> ~ In line_feed last' ->
  getDigest (Join (pre ++ [line; last]) newline)
  = getDigest (Join (pre' ++ [line; last']) newline) /\
  (Contains line (lit "digest: ") = false ->
   getDigest (Join (pre ++ [line; last]) newline) = None).
Proof.
  intros Hpre Hpre' Hline Hlast Hlast'. split.
  - etransitivity; [apply (getDigest_line pre line last Hpre Hline Hlast)|].
    symmetry. apply (getDigest_line pre' line last' Hpre' Hline Hlast').
  - intros Hc. etransitivity; [apply (getDigest_line pre line last Hpre Hline Hlast)|].
    rewrite Split_cons by discriminate.
    change js_marker with (lit "digest: "). now rewrite (Contains_Index_None _ _ Hc).
Qed.

Lemma getDigest_penultimate_line_witness :
  getDigest (Join ([lit "latest: digest: sha256:abc size: 528"] ++ [lit "done"; []]) newline)
  = None.
Proof.
  apply (getDigest_penultimate_line [lit "latest: digest: sha256:abc size: 528"] []
           (lit "done") [] []);
    try (intros H; vm_compute in H; intuition discriminate); try reflexivity;
    repeat constructor; intros H; vm_compute in H; intuition discriminate.
Defined.

Lemma listRevisions_names_witness :
  exec (scripted sample_outputs nobody)
       (listRevisions (sample_config [lit "api"] false 2) (lit "api")) []
  = (Returned (Ok [lit "r3"; lit "r2"; lit "r1"; lit "r0"]),
     [] ++ [Captured (list_revisions_command (sample_config [lit "api"] false 2) (lit "api"))
              (Join [lit "r3"; lit "r2"; lit "r1"; lit "r0"] newline ++ newline) None]).
Proof.
  destruct (listRevisions_names (scripted sample_outputs nobody)
              (sample_config [lit "api"] false 2) (lit "api") []) as (H & _).
  apply (H [lit "r3"; lit "r2"; lit "r1"; lit "r0"]); [|reflexivity].
  repeat constructor; try discriminate; try reflexivity;
    intros Hin; vm_compute in Hin; intuition discriminate.
Defined.

Lemma run_gcloud_after_publish_witness :
  exists pushOutput digest, parseDigest pushOutput = Ok digest.
Proof.
  destruct (run_gcloud_after_publish sample_lib (scripted sample_outputs nobody) (repeat 0 12)
              (sample_config [lit "api"] true 2) []) as (evs & Hevs & H).
  cbn [app] in Hevs. subst evs.
  set (c := deploy_command (sample_config [lit "api"] true 2) (lit "api")
              (lit "asia.gcr.io/proj/web@sha256:abc")) in *.
  assert (Hin : In c (commands (snd (run sample_lib (scripted sample_outputs nobody)
                                       (repeat 0 12) (sample_config [lit "api"] true 2) [])))).
  { vm_compute. repeat (first [left; reflexivity | right]). }
  assert (Hn : cmd_name c = lit "gcloud") by reflexivity.
  destruct (H c Hin Hn) as (pushOutput & digest & rest & _ & Hd).
  clear Hin H. exists pushOutput, digest. exact Hd.
Defined.

(** ** What the progress lines say *)

Lemma truthful_spec (J : event -> trace -> Prop) (evs : trace) :
  truthful J evs -> forall pre ev post, evs = pre ++ ev :: post -> J ev pre.
Proof.
  induction 1 as [|evs ev0 Ht IH Hj]; intros pre ev post Heq.
  - now destruct pre.
  - destruct post as [|x post] using rev_ind.
    + apply app_inj_tail in Heq as [-> ->]. exact Hj.
    + clear IHpost. change (pre ++ ev :: post ++ [x]) with (pre ++ (ev :: post) ++ [x]) in Heq.
      rewrite app_assoc in Heq. apply app_inj_tail in Heq as [-> _]. now apply (IH pre ev post).
Qed.

Lemma truthful_app (J : event -> trace -> Prop) (a b : trace) :
  monotone J -> truthful J a -> truthful J b -> truthful J (a ++ b).
Proof.
  intros Hm Ha Hb. induction Hb as [|b ev Hb IH Hj]; [now rewrite app_nil_r|].
  rewrite app_assoc. constructor; [exact IH|].
  apply (Hm ev b (a ++ b)); [|exact Hj]. apply incl_appr, incl_refl.
Qed.

Lemma truthful_cons (J : event -> trace -> Prop) (ev : event) (b : trace) :
  monotone J -> J ev [] -> truthful J b -> truthful J (ev :: b).
Proof.
  intros Hm Hj Hb. change (ev :: b) with ([ev] ++ b). apply truthful_app; auto.
  change [ev] with ([] ++ [ev]). constructor; [constructor | exact Hj].
Qed.

Lemma honest_mono {A : Type} (J : event -> trace -> Prop) (t : task A) (b b' : trace) :
  monotone J -> incl b b' -> honest J t b -> honest J t b'.
Proof.
  intros Hm. revert b b'; induction t as [a| |c k IH|c k IH|m k IH]; intros b b' Hi Hh;
    cbn in *; auto.
  - intros r. destruct (Hh r) as [Hj Hk]. split; [now apply (Hm _ b)|].
    apply (IH r (b ++ [Streamed c r])); [|exact Hk]. now apply incl_app_app; [|apply incl_refl].
  - intros r. destruct (Hh r) as [Hj Hk]. split; [now apply (Hm _ b)|].
    apply (IH r (b ++ [Captured c (fst r) (snd r)])); [|exact Hk].
    now apply incl_app_app; [|apply incl_refl].
  - destruct Hh as [Hj Hk]. split; [now apply (Hm _ b)|].
    apply (IH (b ++ [Printed m])); [|exact Hk]. now apply incl_app_app; [|apply incl_refl].
Qed.

Lemma exec_honest {A : Type} (e : env) (J : event -> trace -> Prop) (t : task A)
  (h before : trace) :
  truthful J before -> honest J t before ->
  exists evs, snd (exec e t (h ++ before)) = h ++ evs /\ truthful J evs.
Proof.
  revert before; induction t as [a| |c k IH|c k IH|m k IH]; intros before Ht Hh; cbn in *.
  - now exists before.
  - now exists before.
  - destruct (Hh (streaming_result e (h ++ before) c)) as [Hj Hk].
    rewrite <- app_assoc. apply IH; [now constructor | exact Hk].
  - destruct (Hh (capture_result e (h ++ before) c)) as [Hj Hk].
    rewrite <- app_assoc. apply IH; [now constructor | exact Hk].
  - destruct Hh as [Hj Hk]. rewrite <- app_assoc. apply IH; [now constructor | exact Hk].
Qed.

Lemma turn_honest (e : env) (J : event -> trace -> Prop) (h0 : trace) (i : nat)
  (st st' : fanout) :
  monotone J -> fanout_honest J h0 st -> turn e i st = Some st' -> fanout_honest J h0 st'.
Proof.
  intros Hm (evs & Hh & Ht & Hp). unfold turn.
  destruct (nth_error (pool st) i) as [g|] eqn:Hi; [|intros [= <-]; now exists evs].
  destruct g as [body|r]; [|intros [= <-]; now exists evs].
  assert (Hb : honest J body evs).
  { apply nth_error_In in Hi. rewrite Forall_forall in Hp. apply (Hp _ Hi). }
  assert (Hstep : forall ev g',
            J ev evs -> goroutine_honest J (evs ++ [ev]) g' ->
            fanout_honest J h0 {| pool := set_nth i g' (pool st); errs := errs st;
                                  hist := hist st ++ [ev] |}).
  { intros ev g' Hj Hg. exists (evs ++ [ev]). cbn [hist pool].
    split; [now rewrite Hh, app_assoc|]. split; [now constructor|].
    apply Forall_set_nth; [|exact Hg].
    eapply Forall_impl; [|exact Hp]. intros [b|r0]; cbn; [|auto].
    apply honest_mono; [exact Hm | apply incl_appl, incl_refl]. }
  destruct body as [r| |c k|c k|m k]; [| discriminate | | |]; intros [= <-]; cbn in Hb.
  - exists evs. cbn [hist pool]. split; [exact Hh|]. split; [exact Ht|].
    apply Forall_set_nth; [exact Hp | exact I].
  - destruct (Hb (streaming_result e (hist st) c)) as [Hj Hk]. now apply Hstep.
  - destruct (Hb (capture_result e (hist st) c)) as [Hj Hk]. now apply Hstep.
  - destruct Hb as [Hj Hk]. now apply Hstep.
Qed.

Lemma turns_honest (e : env) (J : event -> trace -> Prop) (h0 : trace) (sched : list nat)
  (st : fanout) :
  monotone J -> fanout_honest J h0 st ->
  exists evs, truthful J evs /\
    match turns e sched st with
    | inl st' => hist st' = h0 ++ evs
    | inr h' => h' = h0 ++ evs
    end.
Proof.
  intros Hm. revert st; induction sched as [|i sched IH]; intros st Hinv; cbn [turns].
  - destruct Hinv as (evs & Hh & Ht & _). now exists evs.
  - destruct (turn e i st) as [st1|] eqn:Hturn.
    + apply IH. eapply turn_honest; eauto.
    + destruct Hinv as (evs & Hh & Ht & _). now exists evs.
Qed.

Lemma justified_monotone (cfg : config) : monotone (justified cfg).
Proof.
  intros [c err|c out err|m] b b' Hi; cbn; auto.
  intros [Hd Hx]. split.
  - intros s Hs. destruct (Hd s Hs) as [Ht (ref & Hr)]. split; [now apply Hi|].
    exists ref. now apply Hi.
  - intros x Hm. destruct (Hx x Hm) as [H|H]; [left | right]; now apply Hi.
Qed.

(** A progress line that is neither a "Deployed" nor a "Deleted" line claims
    nothing. *)
Ltac no_claim :=
  split; intros ? Hm; exfalso; vm_compute in Hm; discriminate Hm.

Lemma line_inv (prefix a b suffix : gostring) :
  prefix ++ a ++ suffix = prefix ++ b ++ suffix -> a = b.
Proof. intros H. apply app_inv_head in H. now apply app_inv_tail in H. Qed.

Lemma deleteRevisions_honest (cfg : config) (revs : list gostring) (before : trace) :
  honest (justified cfg) (deleteRevisions cfg revs) before.
Proof.
  revert before; induction revs as [|rev rest IH]; intros before; cbn; [exact I|].
  split; [no_claim|]. intros [err|]; (split; [exact I|]); cbn; [exact I|].
  split; [|apply IH]. split.
  - intros s Hm. exfalso. vm_compute in Hm. discriminate Hm.
  - intros x Hm. apply line_inv in Hm. subst x. left.
    apply in_or_app. right. now left.
Qed.

Lemma deployService_honest (cfg : config) (s image0 : gostring) (before : trace) :
  honest (justified cfg) (deployService cfg s image0) before.
Proof.
  unfold deployService. cbn. intros [out [err|]]; (split; [exact I|]); cbn; [exact I|].
  intros [err|]; (split; [exact I|]); cbn; [exact I|].
  split; [no_claim|]. intros [err|]; (split; [exact I|]); cbn; [exact I|].
  split.
  - split.
    + intros s' Hm. apply line_inv in Hm. subst s'. split.
      * apply in_or_app. right. now left.
      * exists image0. apply in_or_app. left. apply in_or_app. left.
        apply in_or_app. right. now left.
    + intros x Hm. exfalso. vm_compute in Hm. discriminate Hm.
  - destruct (Z.of_nat (length (append_trimmed (Split (TrimSpace out) newline) []))
              <=? keepRevs cfg)%Z; [exact I|].
    destruct (slice_from _ (keepRevs cfg)); [apply deleteRevisions_honest | exact I].
Qed.

Lemma deleteImages_honest (cfg : config) (repo : gostring) (tags : list tag) (before : trace) :
  honest (justified cfg) (deleteImages cfg repo tags) before.
Proof.
  revert before; induction tags as [|tg rest IH]; intros before; cbn; [exact I|].
  destruct (streq (Digest tg) []); [apply IH|]. cbn.
  split; [no_claim|]. intros [err|]; (split; [exact I|]); cbn; [exact I|].
  split; [|apply IH]. split.
  - intros s Hm. exfalso. vm_compute in Hm. discriminate Hm.
  - intros x Hm. apply line_inv in Hm. subst x. right.
    apply in_or_app. right. now left.
Qed.

Lemma cleanupOldImages_honest (lib : golib) (cfg : config) (image0 : gostring)
  (before : trace) :
  honest (justified cfg) (cleanupOldImages lib cfg image0) before.
Proof.
  unfold cleanupOldImages. cbn. intros [out [err|]]; (split; [exact I|]); cbn; [exact I|].
  destruct (json_Unmarshal_tags lib out) as [tags|jerr]; cbn; [|exact I].
  destruct (Z.of_nat (length tags) <=? keepImgs cfg)%Z; [exact I|].
  destruct (slice_from tags (keepImgs cfg)); [apply deleteImages_honest | exact I].
Qed.

Lemma deployServices_truthful (e : env) (sched : list nat) (cfg : config)
  (image0 : gostring) (h : trace) :
  exists evs, snd (deployServices e sched cfg image0 h) = h ++ evs /\
              truthful (justified cfg) evs.
Proof.
  rewrite deployServices_started.
  assert (Hinv : fanout_honest (justified cfg) h (started cfg image0 h)).
  { exists []. cbn [started hist pool]. split; [now rewrite app_nil_r|]. split; [constructor|].
    induction (services cfg) as [|s ss IH]; cbn [map]; constructor; [|exact IH].
    apply deployService_honest. }
  destruct (turns_honest e _ h sched _ (justified_monotone cfg) Hinv) as (evs & Ht & Hh).
  exists evs. split; [|exact Ht].
  destruct (turns e sched (started cfg image0 h)) as [st|h']; [|exact Hh].
  destruct (forallb is_finished (pool st)); [|exact Hh].
  destruct (0 <? length (drain (errs st) []))%nat; exact Hh.
Qed.

Lemma justified_stage (cfg : config) (ev : event) :
  In ev [Printed (lit "Building TS..."); Printed (lit "Building Docker...");
         Printed (lit "Uploading image..."); Printed (lit "Deploying...");
         Printed (lit "Cleaning up image...")] ->
  justified cfg ev [].
Proof.
  cbn [In]. intros [<-|[<-|[<-|[<-|[<-|[]]]]]]; cbn; no_claim.
Qed.

Ltac explicit_truthful :=
  cbn [snd]; eexists; split; [rewrite <- ?app_assoc; reflexivity|]; cbn [app];
  repeat (apply truthful_cons;
          [apply justified_monotone
          | first [exact I | apply justified_stage; cbn; auto 10]
          |]);
  constructor.

Lemma through_join_truthful (e : env) (sched : list nat) (cfg : config) (h : trace) :
  exists evs, snd (through_join e sched cfg h) = h ++ evs /\ truthful (justified cfg) evs.
Proof.
  unfold through_join, mbind, ret. cbn.
  destruct (streaming_result e _ _) as [err|]; [explicit_truthful|].
  destruct (streaming_result e _ _) as [err|]; [explicit_truthful|].
  match goal with
  | |- context [capture_result e ?h1 ?c] => set (r := capture_result e h1 c)
  end.
  destruct (snd r) as [err|]; [explicit_truthful|].
  destruct (parseDigest (fst r)) as [digest|err]; [|explicit_truthful].
  match goal with
  | |- context [deployServices e sched cfg ?i0 ?h0] =>
      destruct (deployServices_truthful e sched cfg i0 h0) as (fan & Hfan & Htf);
      rewrite Hfan
  end.
  eexists. split; [rewrite <- ?app_assoc; reflexivity|]. cbn [app].
  repeat (apply truthful_cons;
          [apply justified_monotone
          | first [exact I | apply justified_stage; cbn; auto 10]
          |]).
  exact Htf.
Qed.

(** X22. The progress lines of a run tell the truth, under any schedule and
    whatever the commands answer: a line "Deployed s." is printed only
    after a successful deploy and a successful traffic migration of [s],
    and a line "Deleted x." only after the successful deletion of the
    revision, or of the image, [x]. *)
Theorem run_log_truthful (lib : golib) (e : env) (sched : list nat) (cfg : config)
  (h : trace) :
  exists evs,
    snd (run lib e sched cfg h) = h ++ evs /\
    forall pre m post,
      evs = pre ++ Printed m :: post ->
      (forall s, m = lit "Deployed " ++ s ++ lit "." ->
         In (Streamed (update_traffic_command cfg s) None) pre /\
         exists ref, In (Streamed (deploy_command cfg s ref) None) pre) /\
      (forall x, m = lit "Deleted " ++ x ++ lit "." ->
         In (Streamed (delete_revision_command cfg x) None) pre \/
         In (Streamed (delete_image_command cfg x) None) pre).
Proof.
  assert (H : exists evs, snd (run lib e sched cfg h) = h ++ evs /\
                          truthful (justified cfg) evs).
  { rewrite run_through_join.
    destruct (through_join_truthful e sched cfg h) as (evs1 & Hj & Ht1).
    destruct (through_join e sched cfg h) as [o h1]. cbn [snd] in Hj. subst h1.
    destruct o as [[err|]| |]; try (now exists evs1).
    unfold cleanup_stage. destruct (beta cfg); cbn [negb]; [now exists evs1|].
    unfold mbind. cbn [exec logStep]. rewrite <- app_assoc.
    apply exec_honest.
    - constructor; [exact Ht1|]. apply (justified_monotone cfg _ []); [intros x []|].
      apply justified_stage. cbn. auto 10.
    - apply cleanupOldImages_honest. }
  destruct H as (evs & Hevs & Ht). exists evs. split; [exact Hevs|].
  intros pre m post Heq. exact (truthful_spec _ _ Ht pre (Printed m) post Heq).
Qed.

Lemma run_log_truthful_witness :
  exists pre,
    In (Streamed (update_traffic_command (sample_config [lit "api"] true 2) (lit "api")) None)
       pre.
Proof.
  destruct (run_log_truthful sample_lib (scripted sample_outputs nobody) (repeat 0 12)
              (sample_config [lit "api"] true 2) []) as (evs & Hevs & H).
  cbn [app] in Hevs. subst evs.
  pose (tr := snd (run sample_lib (scripted sample_outputs nobody) (repeat 0 12)
                     (sample_config [lit "api"] true 2) [])).
  assert (Heq : tr = firstn 11 tr ++ Printed (lit "Deployed api.") :: skipn 12 tr)
    by (vm_compute; reflexivity).
  destruct (H _ _ _ Heq) as [Hd _].
  destruct (Hd (lit "api") eq_refl) as [Ht _].
  exists (firstn 11 tr). exact Ht.
Defined.
